(** * Crypto Price Alert Assistant: the dashboard client and the alerting core

    The development embeds, as Rocq functions, the parts of the repository
    that the specification talks about:

    - [App]: the notification list of [src/App.js] ([addNotification],
      [removeNotification]);
    - [AppView]: what [src/App.js] renders of the notifications and of the
      tabs;
    - [Security]: [validate_crypto_symbol], the symbol check quoted in the
      security notes, and [Frontend]: the two JavaScript snippets there;
    - [Browser], [Dashboard], [PriceChart]: the browser timer queue and the
      two fetch-with-retry loops ([fetchPrices], [fetchChartData]) together
      with the effects that start them and the 30 second refresh;
    - [DashboardTurn], [PriceChartTurn]: the pages that the turns of the
      two loops are to lead to, and [DashboardPage]: what the dashboard
      shows against what the server sent;
    - [Backend]: the alert evaluator and the dispatcher, whose Python source
      is not part of the tree and which are therefore modelled from the
      specification. *)

From Stdlib Require Import Ascii String QArith Qround Lqa.
From stdpp Require Import base numbers list strings gmap pretty.

Local Open Scope string_scope.
Local Open Scope Z_scope.
Local Open Scope list_scope.

(** ** App.js: notifications *)

Module App.

(** The object literal built by [addNotification]. [id] is [Date.now()],
    [timestamp] is [new Date()]; both are milliseconds since the epoch. *)
Record notification := Notification {
  id : Z;
  message : string;
  type : string;
  timestamp : Z
}.

#[export] Instance notification_eq_dec : EqDecision notification.
Proof. solve_decision. Defined.

(** [const addNotification = (message, type = 'info') => ...]. The optional
    second argument is [None] when the caller leaves it out. The two clock
    readings are passed in; [prev] is the state handed to the functional
    update of [setNotifications], the result is the new state. *)
Definition addNotification (date_now new_date : Z)
    (message : string) (type : option string)
    (prev : list notification) : list notification :=
  let type := default "info" type in
  if decide (type = "error") then prev
  else
    let notification :=
      {| id := date_now; message := message; type := type;
         timestamp := new_date |} in
    notification :: take 4 prev.

(** [setNotifications(prev => prev.filter(n => n.id !== id))]. *)
Definition removeNotification (i : Z) (prev : list notification)
    : list notification :=
  filter (λ n, id n ≠ i) prev.

(** The two callbacks the component ever applies to its list. *)
Inductive call :=
| AddNotification (date_now new_date : Z) (message : string)
                  (type : option string)
| RemoveNotification (i : Z).

Definition perform (prev : list notification) (c : call)
    : list notification :=
  match c with
  | AddNotification d n m t => addNotification d n m t prev
  | RemoveNotification i => removeNotification i prev
  end.

(** [useState([])] followed by the calls, oldest call first. *)
Definition notifications_after (cs : list call) : list notification :=
  foldl perform [] cs.

(** Every notification object ever constructed by the calls, newest
    first, whether or not it is still displayed. *)
Fixpoint constructed (cs : list call) : list notification :=
  match cs with
  | [] => []
  | AddNotification d n m t :: cs =>
      constructed cs ++
      (if decide (default "info" t = "error") then []
       else [Notification d m (default "info" t) n])
  | RemoveNotification _ :: cs => constructed cs
  end.

End App.

(** ** Security notes: symbol validation *)

Module Security.

(** A Python value as far as [validate_crypto_symbol] can tell values
    apart: a [str], given by its code points, or anything else, of which
    only the truth value is ever looked at. *)
Inductive pyobj :=
| PyStr (s : list N)
| PyOther (truthy : bool).

(** The code points of an ASCII literal. *)
Definition ascii_str (s : string) : list N :=
  N_of_ascii <$> list_ascii_of_string s.

Section Unicode.

(** The Unicode character database is not part of the repository. Above
    U+007F the two tables [str.isalpha] and [str.upper] consult are
    taken as given; below, they are written out. *)
Variable unicode_isalpha : N → bool.
Variable unicode_upper : N → list N.

Definition ascii_isupper (c : N) : bool := ((65 <=? c) && (c <=? 90))%N.
Definition ascii_islower (c : N) : bool := ((97 <=? c) && (c <=? 122))%N.
Definition ascii_isdigit (c : N) : bool := ((48 <=? c) && (c <=? 57))%N.
Definition ascii_isletter (c : N) : bool :=
  ascii_isupper c || ascii_islower c.

Definition char_isalpha (c : N) : bool :=
  if (c <? 128)%N then ascii_isletter c else unicode_isalpha c.

Definition char_upper (c : N) : list N :=
  if (c <? 128)%N then [if ascii_islower c then (c - 32)%N else c]
  else unicode_upper c.

(** [s.upper()]: the upper-case mappings of the characters, in order. *)
Definition upper (s : list N) : list N := s ≫= char_upper.

(** [s.isalpha()]: at least one character and all alphabetic. *)
Definition isalpha (s : list N) : bool :=
  match s with
  | [] => false
  | _ => forallb char_isalpha s
  end.

(** [[
    def validate_crypto_symbol(symbol):
        if not symbol or not isinstance(symbol, str):
            return False
        return symbol.upper().isalpha() and len(symbol) <= 10
    ]] *)
Definition validate_crypto_symbol (symbol : pyobj) : bool :=
  match symbol with
  | PyOther _ => false
  | PyStr [] => false
  | PyStr s => isalpha (upper s) && bool_decide (length s ≤ 10)%nat
  end.

End Unicode.

(** The rule as the documentation and the specification word it: a
    non-empty string of at most ten characters, all of them ASCII letters
    or digits. *)
Definition ascii_isalnum (c : N) : bool :=
  ascii_isletter c || ascii_isdigit c.

Definition documented_symbol_ok (symbol : pyobj) : bool :=
  match symbol with
  | PyOther _ => false
  | PyStr [] => false
  | PyStr s => forallb ascii_isalnum s && bool_decide (length s ≤ 10)%nat
  end.

End Security.

(** ** The browser side: statements, tasks and timers *)

(** Values a caller may hand to [fetchPrices] or [fetchChartData] as
    [retryCount]: a number, or something that is not one (the click event
    React passes to an [onClick] handler, or the string such an object
    turns into when [1] is added to it). *)
Inductive jsval :=
| JsNumber (n : nat)
| JsOther.

#[export] Instance jsval_eq_dec : EqDecision jsval.
Proof. solve_decision. Defined.

(** [retryCount < maxRetries]: what is not a number converts to [NaN], and
    every comparison with [NaN] is false. *)
Definition js_lt (v : jsval) (n : nat) : bool :=
  match v with
  | JsNumber k => bool_decide (k < n)%nat
  | JsOther => false
  end.

(** [retryCount + 1]. *)
Definition js_succ (v : jsval) : jsval :=
  match v with
  | JsNumber k => JsNumber (S k)
  | JsOther => JsOther
  end.

(** What a statement does besides changing the state: it completes, or it
    throws. *)
Inductive completion (A : Type) :=
| Normal (a : A)
| Throw.
Arguments Normal {A}.
Arguments Throw {A}.

(** Statements over a state [W]; what was written before a throw stays
    written. *)
Definition js (W A : Type) : Type := W → completion A * W.

Definition js_ret {W A} (a : A) : js W A := λ w, (Normal a, w).

Definition js_bind {W A B} (m : js W A) (k : A → js W B) : js W B :=
  λ w, match m w with
       | (Normal a, w') => k a w'
       | (Throw, w') => (Throw, w')
       end.

Definition js_throw {W A} : js W A := λ w, (Throw, w).

(** [try { body } catch (error) { handler }]. *)
Definition js_try {W A} (body handler : js W A) : js W A :=
  λ w, match body w with
       | (Normal a, w') => (Normal a, w')
       | (Throw, w') => handler w'
       end.

Definition js_modify {W} (f : W → W) : js W () := λ w, (Normal (), f w).

Definition js_get {W} : js W W := λ w, (Normal w, w).

#[export] Instance js_mret {W} : MRet (js W) := λ A, js_ret.
#[export] Instance js_mbind {W} : MBind (js W) := λ A B k m, js_bind m k.

Definition exec {W} (m : js W ()) (w : W) : W := (m w).2.

Module Browser.

(** A pending task of the event loop: a timer set by [setTimeout] (no
    [period]) or [setInterval], or the rest of an [async] function that
    waits for the network. [handle] is what [setTimeout] and
    [setInterval] return. *)
Record task (H : Type) := Task {
  handle : nat;
  due : Z;
  period : option Z;
  callback : H
}.
Arguments Task {H}.
Arguments handle {H}.
Arguments due {H}.
Arguments period {H}.
Arguments callback {H}.

(** What an observer of the page can see happen, besides the rendering:
    requests, console lines, calls of the [onNotification] prop, and
    promises rejected with nobody to catch them. The first three
    constructors record the life cycle of an effect. *)
Inductive event :=
| EffectRan
| CleanupRan
| IntervalFired
| HttpGet (retryCount : jsval)
| LogAttempt (retryCount : jsval)
| LogFetched
| LogFetchError (retryCount : jsval)
| LogRetrying (retryCount : jsval)
| LogMaxRetries
| OnNotification (message : string) (type : option string)
| UnhandledRejection.

#[export] Instance event_eq_dec : EqDecision event.
Proof. solve_decision. Defined.

(** The page around one instance of a component with [useState] cells
    [S], whose callbacks are described by [H]. [component] is [None] once
    the instance is unmounted, and React then drops its state updates.
    [cleanup] is the handle captured by the function the effect returned.
    [requests] counts the requests sent. [trace] is newest first. *)
Record world (S H : Type) := World {
  now : Z;
  queue : list (task H);
  next_handle : nat;
  requests : nat;
  component : option S;
  cleanup : option nat;
  notifications : list App.notification;
  trace : list (Z * event)
}.
Arguments World {S H}.
Arguments now {S H}.
Arguments queue {S H}.
Arguments next_handle {S H}.
Arguments requests {S H}.
Arguments component {S H}.
Arguments cleanup {S H}.
Arguments notifications {S H}.
Arguments trace {S H}.

Section Page.
Context {S H : Type}.
Local Abbreviation world := (world S H).

Definition is_interval (e : task H) : bool :=
  match period e with Some _ => true | None => false end.

Definition intervals (q : list (task H)) : list (task H) :=
  filter (λ e, is_interval e = true) q.

(** The task to run next, and the tasks left: the earliest due one,
    the oldest among those that are due together. *)
Fixpoint pop (q : list (task H)) : option (task H * list (task H)) :=
  match q with
  | [] => None
  | e :: q' =>
      match pop q' with
      | Some (e', rest) =>
          if due e' <? due e then Some (e', e :: rest) else Some (e, q')
      | None => Some (e, [])
      end
  end.

(** An interval timer that has fired is due again one period later. *)
Definition rearm (e : task H) (rest : list (task H)) : list (task H) :=
  match period e with
  | Some p => rest ++ [Task (handle e) (due e + p) (Some p) (callback e)]
  | None => rest
  end.

(** Nothing pending is due before [t]. *)
Definition idle_until (t : Z) (q : list (task H)) : bool :=
  forallb (λ e, t <=? due e) q.

Definition set_now (t : Z) (w : world) : world :=
  World t (queue w) (next_handle w) (requests w) (component w)
        (cleanup w) (notifications w) (trace w).
Definition set_queue (q : list (task H)) (w : world) : world :=
  World (now w) q (next_handle w) (requests w) (component w)
        (cleanup w) (notifications w) (trace w).
Definition set_next_handle (h : nat) (w : world) : world :=
  World (now w) (queue w) h (requests w) (component w) (cleanup w)
        (notifications w) (trace w).
Definition set_requests (n : nat) (w : world) : world :=
  World (now w) (queue w) (next_handle w) n (component w) (cleanup w)
        (notifications w) (trace w).
Definition set_component (c : option S) (w : world) : world :=
  World (now w) (queue w) (next_handle w) (requests w) c (cleanup w)
        (notifications w) (trace w).
Definition set_cleanup (c : option nat) (w : world) : world :=
  World (now w) (queue w) (next_handle w) (requests w) (component w) c
        (notifications w) (trace w).
Definition set_notifications (ns : list App.notification) (w : world)
    : world :=
  World (now w) (queue w) (next_handle w) (requests w) (component w)
        (cleanup w) ns (trace w).
Definition set_trace (tr : list (Z * event)) (w : world) : world :=
  World (now w) (queue w) (next_handle w) (requests w) (component w)
        (cleanup w) (notifications w) tr.

(** [console.log], [console.error] and the other observable steps. *)
Definition emit (ev : event) : js world () :=
  js_modify (λ w, set_trace ((now w, ev) :: trace w) w).

Definition enqueue (d : Z) (p : option Z) (cb : H) : js world nat :=
  λ w, (Normal (next_handle w),
        set_next_handle (Datatypes.S (next_handle w))
          (set_queue (queue w ++ [Task (next_handle w) d p cb]) w)).

Definition setTimeout (cb : H) (delay : Z) : js world nat :=
  w ← js_get; enqueue (now w + delay) None cb.

Definition setInterval (cb : H) (delay : Z) : js world nat :=
  w ← js_get; enqueue (now w + delay) (Some delay) cb.

Definition clearInterval (h : nat) : js world () :=
  js_modify (λ w, set_queue (filter (λ e, handle e ≠ h) (queue w)) w).

(** A setter of a [useState] cell. *)
Definition setState (f : S → S) : js world () :=
  js_modify (λ w, set_component (f <$> component w) w).

(** The [onNotification] prop is [addNotification] of [App]. *)
Definition onNotification (message : string) (type : option string)
    : js world () :=
  emit (OnNotification message type);;
  js_modify (λ w,
    set_notifications
      (App.addNotification (now w) (now w) message type
         (notifications w))
      w).

(** Calling an [async] function and dropping its promise: what it
    throws never reaches the caller, it is reported as an unhandled
    rejection. *)
Definition async (m : js world ()) : js world () :=
  js_try m (emit UnhandledRejection).

(** The user and the parent component act at a time [t] by which every
    task due earlier has run. *)
Definition at_time (t : Z) (w : world) : option world :=
  if (now w <=? t) && idle_until t (queue w) then Some (set_now t w)
  else None.

(** One turn of the event loop: the next task is taken off the queue at
    the time it is due, an interval timer is set again, and the callback
    runs. *)
Definition turn (run_handler : H → js world ()) (w : world)
    : option world :=
  '(e, rest) ← pop (queue w);
  Some (exec
          ((if is_interval e then emit IntervalFired else mret ());;
           run_handler (callback e))
          (set_queue (rearm e rest) (set_now (due e) w))).

(** A sequence of steps, each of which must be possible. *)
Fixpoint run {A} (step : world → A → option world) (w : world)
    (acts : list A) : option world :=
  match acts with
  | [] => Some w
  | a :: acts => w' ← step w a; run step w' acts
  end.

(** *** What the trace and the queue of a page tell *)

(** The clock of a page is in order when nothing pending is overdue and
no timer has a negative period. *)
Definition clock_ok (w : world) : Prop :=
  Forall (λ e, now w ≤ due e ∧ ∀ p, period e = Some p → 0 ≤ p) (queue w).

(** A statement keeps time when it leaves the clock where it is and leaves
nothing overdue, however it completes. *)
Definition keeps_time {A} (m : js world A) : Prop :=
  ∀ w, clock_ok w → clock_ok (m w).2 ∧ now (m w).2 = now w.

(** The events that record the life cycle of an effect. *)
Definition lifecycle (ev : event) : bool :=
  match ev with
  | EffectRan | CleanupRan | IntervalFired => true
  | _ => false
  end.

(** The time at which the interval timer was last set, by the effect or by
its own firing; [None] when the effect has been cleaned up since, or has
never run. *)
Fixpoint armed_at (tr : list (Z * event)) : option Z :=
  match tr with
  | [] => None
  | (t, EffectRan) :: _ => Some t
  | (t, IntervalFired) :: _ => Some t
  | (_, CleanupRan) :: _ => None
  | _ :: tr => armed_at tr
  end.

(** Every firing of the interval timer comes [p] milliseconds after the
timer was last set, with no clean-up between. *)
Fixpoint periodic (p : Z) (tr : list (Z * event)) : Prop :=
  match tr with
  | [] => True
  | (t, IntervalFired) :: tr => armed_at tr = Some (t - p) ∧ periodic p tr
  | _ :: tr => periodic p tr
  end.

Section Discipline.

(** The bound and the delay of a retry loop; the event by which an attempt
with a given [retryCount] shows; and, for a callback that calls the fetch
function, the argument it passes. *)
Variable maxRetries : nat.
Variable retryDelay : Z.
Variable attempt : jsval → event.
Variable retry_call : H → option (option jsval).

(** The retry policy, read off the trace of a page, for the entries
[entries] of the trace: an attempt numbered [n + 1] comes [retryDelay]
after the failure of an attempt numbered [n] was answered with a retry,
and [n] is below [maxRetries]; a retry is announced only for a failed
attempt below the bound, and its timer is then pending for [retryDelay]
later or has led to the next attempt at that time; a failed attempt is
answered with a retry if it is below the bound and otherwise with the
give-up line and a warning notification; [onNotification] is called for
nothing else; and no promise is rejected without a handler. *)
Record retry_discipline_on (entries : list (Z * event)) (w : world)
    : Prop := RetryDiscipline {
  attempts_follow_failures :
    ∀ t n, (t, attempt (JsNumber (Datatypes.S n))) ∈ entries →
      (n < maxRetries)%nat
      ∧ (t - retryDelay, LogRetrying (JsNumber n)) ∈ trace w;
  retries_are_scheduled :
    ∀ t rc, (t, LogRetrying rc) ∈ entries →
      js_lt rc maxRetries = true
      ∧ (t, LogFetchError rc) ∈ trace w
      ∧ ((∃ e, e ∈ queue w ∧ period e = None ∧ due e = t + retryDelay
               ∧ retry_call (callback e) = Some (Some (js_succ rc)))
         ∨ (t + retryDelay, attempt (js_succ rc)) ∈ trace w);
  failures_are_answered :
    ∀ t rc, (t, LogFetchError rc) ∈ entries →
      if js_lt rc maxRetries then (t, LogRetrying rc) ∈ trace w
      else (t, LogMaxRetries) ∈ trace w
           ∧ ∃ msg, (t, OnNotification msg (Some "warning")) ∈ trace w;
  giving_up_follows_failure :
    ∀ t, (t, LogMaxRetries) ∈ entries →
      ∃ rc, js_lt rc maxRetries = false ∧ (t, LogFetchError rc) ∈ trace w;
  notifications_are_warnings :
    ∀ t msg ty, (t, OnNotification msg ty) ∈ entries →
      ty = Some "warning" ∧ (t, LogMaxRetries) ∈ trace w;
  nothing_unhandled :
    ∀ t, (t, UnhandledRejection) ∉ entries
}.

(** The policy holds of a page when it holds for its whole trace. *)
Definition retry_discipline (w : world) : Prop :=
  retry_discipline_on (trace w) w.

(** The queue of a page: handles are given out once, and a pending timer
that will call the fetch function with an argument stands for a retry that
was announced. *)
Record queue_ok (w : world) : Prop := QueueOk {
  handles_distinct : NoDup (handle <$> queue w);
  handles_given : Forall (λ e, (handle e < next_handle w)%nat) (queue w);
  pending_retries :
    ∀ e arg, e ∈ queue w → period e = None →
      retry_call (callback e) = Some arg →
      ∃ n, arg = Some (JsNumber (Datatypes.S n)) ∧ (n < maxRetries)%nat
           ∧ (due e - retryDelay, LogRetrying (JsNumber n)) ∈ trace w
}.

End Discipline.

End Page.

End Browser.

(** The settlement of a promise. *)
Inductive settlement (D : Type) :=
| Fulfilled (data : D)
| Rejected.
Arguments Fulfilled {D}.
Arguments Rejected {D}.

(** [await p]: the value of a fulfilled promise, a throw for a rejected
    one. *)
Definition await {W D} (r : settlement D) : js W D :=
  match r with
  | Fulfilled d => mret d
  | Rejected => js_throw
  end.

(** ** Dashboard: [fetchPrices] and the refresh effect *)

Module Dashboard.
Import Browser.

(** [response.data] of [GET /api/prices]: a price per symbol. *)
Definition prices : Type := gmap string Q.

(** What the event loop can be asked to run on behalf of the component:
    a call of [fetchPrices] (from [setInterval], or from the closure
    [() => fetchPrices(retryCount + 1)] once its argument is evaluated),
    or the rest of a [fetchPrices] activation that waits in
    [await axios.get(...)]. *)
Inductive handler :=
| CallFetchPrices (retryCount : option jsval)
| ResumeFetchPrices (retryCount : jsval) (r : settlement prices).

(** The [useState] cells [fetchPrices] writes. *)
Record state := State {
  cryptoPrices : prices;
  loading : bool;
  lastUpdate : option Z
}.

Abbreviation world := (Browser.world state handler).

Definition maxRetries : nat := 5.
Definition retryDelay : Z := 2000.

Definition setCryptoPrices (d : prices) : js world () :=
  setState (λ s, State d (loading s) (lastUpdate s)).
Definition setLastUpdate : js world () :=
  w ← js_get;
  setState (λ s, State (cryptoPrices s) (loading s) (Some (now w))).
Definition setLoading (b : bool) : js world () :=
  setState (λ s, State (cryptoPrices s) b (lastUpdate s)).

Section Network.

(** The server and the network between: the [n]-th request sent is
    answered after the given number of milliseconds, with the given
    settlement. *)
Variable net : nat → N * settlement prices.

(** [axios.get(`${API_BASE_URL}/prices`, ...)] inside [fetchPrices]:
    the request leaves, and the activation continues when the promise
    settles. *)
Definition axios_get (retryCount : jsval) : js world () :=
  emit (HttpGet retryCount);;
  w ← js_get;
  let '(latency, r) := net (requests w) in
  js_modify (set_requests (S (requests w)));;
  _ ← enqueue (now w + Z.of_N latency) None
        (ResumeFetchPrices retryCount r);
  mret ().

(** [fetchPrices], up to the [await]. [retryCount = 0] when the
    argument is left out. *)
Definition fetchPrices (arg : option jsval) : js world () :=
  let retryCount := default (JsNumber 0) arg in
  axios_get retryCount.

(** [fetchPrices], from the [await] on. *)
Definition fetchPrices_resume (retryCount : jsval)
    (r : settlement prices) : js world () :=
  js_try
    (data ← await r;
     emit LogFetched;;
     setCryptoPrices data;;
     setLastUpdate;;
     setLoading false)
    (emit (LogFetchError retryCount);;
     if js_lt retryCount maxRetries then
       emit (LogRetrying retryCount);;
       _ ← setTimeout (CallFetchPrices (Some (js_succ retryCount)))
             retryDelay;
       mret ()
     else
       emit LogMaxRetries;;
       onNotification
         "Network unstable - Unable to fetch cryptocurrency prices"
         (Some "warning");;
       setLoading false).

Definition run_handler (h : handler) : js world () :=
  match h with
  | CallFetchPrices arg => async (fetchPrices arg)
  | ResumeFetchPrices retryCount r =>
      async (fetchPrices_resume retryCount r)
  end.

(** The effect: [fetchPrices(); ... setInterval(fetchPrices, 30000)],
    and the function it returns. [fetchAlerts], which the effect also
    calls, sets no timer and posts no notification, and is left out. *)
Definition effect : js world () :=
  emit EffectRan;;
  async (fetchPrices None);;
  interval ← setInterval (CallFetchPrices None) 30000;
  js_modify (set_cleanup (Some interval)).

Definition effect_cleanup : js world () :=
  w ← js_get;
  match cleanup w with
  | Some interval =>
      clearInterval interval;;
      emit CleanupRan;;
      js_modify (set_cleanup None)
  | None => mret ()
  end.

(** The component is rendered for the first time at [t0], on a page
    that shows the notifications [ns]. *)
Definition mount (t0 : Z) (ns : list App.notification) : world :=
  exec effect
    (World t0 [] 0 0 (Some (State ∅ true None)) None ns []).

(** What happens to the component: the event loop takes a turn, the
    user clicks Refresh (the button is rendered once [loading] is
    false, and [onClick={fetchPrices}] passes the click event), the
    [telegramChatId] prop changes (the effect is cleaned up and runs
    again), or the component is unmounted. *)
Inductive action :=
| Turn
| ClickRefresh (t : Z)
| ChatIdChanged (t : Z)
| Unmount (t : Z).

Definition step (w : world) (a : action) : option world :=
  match a with
  | Turn => turn run_handler w
  | ClickRefresh t =>
      match component w with
      | Some s =>
          if loading s then None
          else exec (async (fetchPrices (Some JsOther))) <$> at_time t w
      | None => None
      end
  | ChatIdChanged t =>
      match component w with
      | Some _ => exec (effect_cleanup;; effect) <$> at_time t w
      | None => None
      end
  | Unmount t =>
      match component w with
      | Some _ =>
          set_component None <$> (exec effect_cleanup <$> at_time t w)
      | None => None
      end
  end.

End Network.

(** The callbacks that call [fetchPrices], and the argument they pass. *)
Definition retry_call (h : handler) : option (option jsval) :=
  match h with
  | CallFetchPrices arg => Some arg
  | ResumeFetchPrices _ _ => None
  end.

(** The refresh timer, read off a page: every firing comes 30000 ms after
the timer was last set and sends a request with [retryCount] 0; while the
component is mounted exactly one interval timer is pending, it calls
[fetchPrices] without argument every 30000 ms, its handle is the one the
clean-up holds, and it is due 30000 ms after it was last set; once the
component is unmounted no interval timer is pending. *)
Record refresh_ok (w : world) : Prop := RefreshOk {
  firings_are_periodic : periodic 30000 (trace w);
  firings_fetch :
    ∀ t, (t, IntervalFired) ∈ trace w →
      (t, HttpGet (JsNumber 0)) ∈ trace w;
  interval_pending :
    match component w with
    | Some _ =>
        ∃ e, intervals (queue w) = [e] ∧ period e = Some 30000
             ∧ callback e = CallFetchPrices None
             ∧ cleanup w = Some (handle e)
             ∧ armed_at (trace w) = Some (due e - 30000)
    | None =>
        intervals (queue w) = [] ∧ cleanup w = None
        ∧ armed_at (trace w) = None
    end
}.

End Dashboard.

(** ** PriceChart: [fetchChartData] *)

Module PriceChart.
Import Browser.

(** An element of [chartData]. [time] is the millisecond timestamp the
    ISO string is made from. *)
Record point := Point {
  time : Z;
  price : Q;
  volume : Q
}.

(** The body of [GET /api/chart-data]: [prices] and [volumes] are arrays
    of [[timestamp, value]] pairs; [None] stands for a field that is
    missing (for [json_prices], also one that is not an array). *)
Record chart_json := ChartJson {
  json_prices : option (list (Z * Q));
  json_volumes : option (list (Z * Q))
}.

(** What [fetch] and [response.json()] give: a network error, or a
    response with its [ok] flag and its body, [None] when the body is not
    JSON. *)
Inductive reply :=
| NetworkError
| HttpReply (ok : bool) (body : option chart_json).

(** The closure of [useCallback] is made for one selection; its calls and
    its suspended activations carry that selection. *)
Inductive handler :=
| CallFetchChartData (selectedCrypto timeRange : string)
                     (retryCount : option jsval)
| ResumeFetchChartData (selectedCrypto timeRange : string)
                       (retryCount : jsval) (r : reply).

(** The instance of the component: its six [useState] cells; the render
    of [App] from which the [onNotification] prop comes ([App] makes a new
    [addNotification] every time it renders); and the dependencies
    [[selectedCrypto, timeRange, fetchChartData]] with which the effect
    last ran, where [fetchChartData] is made anew by [useCallback] when
    [[selectedCrypto, timeRange, onNotification]] changes. *)
Record state := State {
  selectedCrypto : string;
  timeRange : string;
  chartData : list point;
  loading : bool;
  currentPrice : option Q;
  dataSource : string;
  app_render : nat;
  effect_deps : option (string * string * nat)
}.

Abbreviation world := (Browser.world state handler).

Definition maxRetries : nat := 5.
Definition retryDelay : Z := 3000.

Definition setSelection (crypto range : string) : js world () :=
  setState (λ s, State crypto range (chartData s) (loading s)
                   (currentPrice s) (dataSource s) (app_render s)
                   (effect_deps s)).
Definition setChartData (d : list point) : js world () :=
  setState (λ s, State (selectedCrypto s) (timeRange s) d (loading s)
                   (currentPrice s) (dataSource s) (app_render s)
                   (effect_deps s)).
Definition setLoading (b : bool) : js world () :=
  setState (λ s, State (selectedCrypto s) (timeRange s) (chartData s) b
                   (currentPrice s) (dataSource s) (app_render s)
                   (effect_deps s)).
Definition setCurrentPrice (p : option Q) : js world () :=
  setState (λ s, State (selectedCrypto s) (timeRange s) (chartData s)
                   (loading s) p (dataSource s) (app_render s)
                   (effect_deps s)).
Definition setDataSource (src : string) : js world () :=
  setState (λ s, State (selectedCrypto s) (timeRange s) (chartData s)
                   (loading s) (currentPrice s) src (app_render s)
                   (effect_deps s)).

(** [App] renders again, and hands down a new [onNotification]. *)
Definition app_rendered : js world () :=
  setState (λ s, State (selectedCrypto s) (timeRange s) (chartData s)
                   (loading s) (currentPrice s) (dataSource s)
                   (S (app_render s)) (effect_deps s)).

(** The [onNotification] prop, called by this component: [addNotification]
    of [App] returns early for ['error'] and otherwise sets the list of
    notifications, upon which [App] renders again. *)
Definition notify (message : string) (type : option string)
    : js world () :=
  onNotification message type;;
  if decide (default "info" type = "error") then mret ()
  else app_rendered.

(** [rangeMapping[range]], the [days] of the entry. *)
Definition rangeMapping (range : string) : option Z :=
  if decide (range = "1h") then Some 1
  else if decide (range = "24h") then Some 1
  else if decide (range = "7d") then Some 7
  else if decide (range = "30d") then Some 30
  else None.

(** [new Date(timestamp).toISOString()] throws a [RangeError] when the
    time value is beyond 8.64e15 ms on either side of the epoch. *)
Definition valid_time (timestamp : Z) : bool :=
  (-8640000000000000 <=? timestamp) && (timestamp <=? 8640000000000000).

(** [data.volumes ? data.volumes.find(v => v[0] === timestamp)?.[1] || 0
    : 0]. *)
Definition volume_at (volumes : option (list (Z * Q))) (timestamp : Z)
    : Q :=
  match volumes with
  | Some vs =>
      match list_find (λ v, v.1 = timestamp) vs with
      | Some (_, v) => v.2
      | None => 0%Q
      end
  | None => 0%Q
  end.

Section Network.

Variable net : nat → N * reply.

(** [fetchRealChartData], up to [await fetch(...)]. An unsupported
    range throws before anything is sent. Its console lines are not
    recorded. *)
Definition fetchRealChartData (crypto range : string)
    (retryCount : jsval) : js world () :=
  match rangeMapping range with
  | None => js_throw
  | Some days =>
      emit (HttpGet retryCount);;
      w ← js_get;
      let '(latency, r) := net (requests w) in
      js_modify (set_requests (S (requests w)));;
      _ ← enqueue (now w + Z.of_N latency) None
            (ResumeFetchChartData crypto range retryCount r);
      mret ()
  end.

(** [fetchRealChartData], from the reply on; the [catch] there throws
    again what it caught. *)
Definition fetchRealChartData_resume (r : reply)
    : js world (list point) :=
  match r with
  | NetworkError => js_throw
  | HttpReply false _ => js_throw
  | HttpReply true None => js_throw
  | HttpReply true (Some data) =>
      match json_prices data with
      | None => js_throw
      | Some ps =>
          if forallb (λ tp, valid_time tp.1) ps then
            mret ((λ tp, Point tp.1 tp.2
                           (volume_at (json_volumes data) tp.1)) <$> ps)
          else js_throw
      end
  end.

(** The [catch] block of [fetchChartData]. *)
Definition fetchChartData_catch (crypto range : string)
    (retryCount : jsval) : js world () :=
  emit (LogFetchError retryCount);;
  if js_lt retryCount maxRetries then
    emit (LogRetrying retryCount);;
    _ ← setTimeout
          (CallFetchChartData crypto range (Some (js_succ retryCount)))
          retryDelay;
    mret ()
  else
    emit LogMaxRetries;;
    notify
      ("Network unstable - Unable to fetch chart data for " +:+ crypto)
      (Some "warning");;
    setChartData [];;
    setDataSource "error";;
    setLoading false.

(** [fetchChartData], up to the [await]. *)
Definition fetchChartData (crypto range : string) (arg : option jsval)
    : js world () :=
  let retryCount := default (JsNumber 0) arg in
  setLoading true;;
  js_try
    (emit (LogAttempt retryCount);;
     fetchRealChartData crypto range retryCount)
    (fetchChartData_catch crypto range retryCount).

(** [fetchChartData], from the [await] on. *)
Definition fetchChartData_resume (crypto range : string)
    (retryCount : jsval) (r : reply) : js world () :=
  js_try
    (realData ← fetchRealChartData_resume r;
     match last realData with
     | Some p =>
         setChartData realData;;
         setDataSource "real";;
         setCurrentPrice (Some (price p));;
         emit LogFetched;;
         setLoading false
     | None => js_throw
     end)
    (fetchChartData_catch crypto range retryCount).

(** What a task of the queue runs. *)
Definition handle_task (h : handler) : js world () :=
  match h with
  | CallFetchChartData crypto range arg =>
      async (fetchChartData crypto range arg)
  | ResumeFetchChartData crypto range retryCount r =>
      async (fetchChartData_resume crypto range retryCount r)
  end.

(** The effect [fetchChartData()], run with the callback of the
    current render. It returns no clean-up. *)
Definition effect : js world () :=
  emit EffectRan;;
  w ← js_get;
  match component w with
  | Some s => async (fetchChartData (selectedCrypto s) (timeRange s) None)
  | None => mret ()
  end.

(** The component is rendered with its present cells and props, and
    React runs the effect if one of its dependencies differs from what it
    was when the effect last ran. *)
Definition render_effects : js world () :=
  w ← js_get;
  match component w with
  | Some s =>
      let deps := (selectedCrypto s, timeRange s, app_render s) in
      if decide (effect_deps s = Some deps) then mret ()
      else
        setState (λ s, State (selectedCrypto s) (timeRange s)
                         (chartData s) (loading s) (currentPrice s)
                         (dataSource s) (app_render s) (Some deps));;
        effect
  | None => mret ()
  end.

(** A task runs, and the component is rendered with what it has set. *)
Definition run_handler (h : handler) : js world () :=
  handle_task h;; render_effects.

Definition mount (t0 : Z) (ns : list App.notification) : world :=
  exec render_effects
    (World t0 [] 0 0
       (Some (State "BTC" "24h" [] false None "real" 0 None)) None ns []).

(** What happens to the component: the event loop takes a turn; the
    user clicks Refresh (enabled while [loading] is false; the click
    event arrives as [retryCount]); the user selects a cryptocurrency
    and a time range; [App] renders again for a reason of its own (a
    notification is closed); or the component is unmounted. *)
Inductive action :=
| Turn
| ClickRefresh (t : Z)
| Select (t : Z) (crypto range : string)
| AppRendered (t : Z)
| Unmount (t : Z).

Definition step (w : world) (a : action) : option world :=
  match a with
  | Turn => turn run_handler w
  | ClickRefresh t =>
      match component w with
      | Some s =>
          if loading s then None
          else exec (async (fetchChartData (selectedCrypto s)
                              (timeRange s) (Some JsOther));;
                     render_effects)
               <$> at_time t w
      | None => None
      end
  | Select t crypto range =>
      match component w with
      | Some _ =>
          exec (setSelection crypto range;; render_effects)
          <$> at_time t w
      | None => None
      end
  | AppRendered t =>
      match component w with
      | Some _ => exec (app_rendered;; render_effects) <$> at_time t w
      | None => None
      end
  | Unmount t =>
      match component w with
      | Some _ => set_component None <$> at_time t w
      | None => None
      end
  end.

End Network.

(** The callbacks that call [fetchChartData], and the argument they
    pass. *)
Definition retry_call (h : handler) : option (option jsval) :=
  match h with
  | CallFetchChartData _ _ arg => Some arg
  | ResumeFetchChartData _ _ _ _ => None
  end.

(** What else holds of a page with the chart: a request is sent only in
    an attempt, and the component sets no interval timer. *)
Record chart_ok (w : world) : Prop := ChartOk {
  requests_are_attempts :
    ∀ t rc, (t, HttpGet rc) ∈ trace w → (t, LogAttempt rc) ∈ trace w;
  only_timers : Forall (λ e, period e = None) (queue w)
}.

End PriceChart.

(** ** The retry policy, turn by turn *)

(** A [retryCount] as the components count it themselves: a number up to
    the bound. What is not a number is the click event. *)
Definition counted (maxRetries : nat) (retryCount : jsval) : Prop :=
  match retryCount with
  | JsNumber k => (k ≤ maxRetries)%nat
  | JsOther => True
  end.

(** The pages that the turns of the dashboard are to lead to. In each,
    [w] is the page before the turn, [e] the task that the turn takes off
    the queue and [rest] the tasks that stay; the turn happens at the time
    [e] is due. *)
Module DashboardTurn.
Import Browser Dashboard.

Definition warning : string :=
  "Network unstable - Unable to fetch cryptocurrency prices".

Section Network.
Variable net : nat → N * settlement prices.

(** A timer has called [fetchPrices]: the request is on its way, and
    its reply is waited for. A timer that is an interval is set again. *)
Definition request_sent (w : world) (e : task handler)
    (rest : list (task handler)) (retryCount : jsval) : world :=
  World (due e)
    (rearm e rest ++
     [Task (next_handle w) (due e + Z.of_N (net (requests w)).1) None
        (ResumeFetchPrices retryCount (net (requests w)).2)])
    (S (next_handle w)) (S (requests w)) (component w) (cleanup w)
    (notifications w)
    ((due e, HttpGet retryCount)
     :: (if is_interval e then [(due e, IntervalFired)] else [])
     ++ trace w).

End Network.

(** The request numbered [k] has failed, and a timer is set that calls
    [fetchPrices(k + 1)] after [retryDelay]. *)
Definition retry_set (w : world) (e : task handler)
    (rest : list (task handler)) (k : nat) : world :=
  World (due e)
    (rest ++
     [Task (next_handle w) (due e + retryDelay) None
        (CallFetchPrices (Some (JsNumber (S k))))])
    (S (next_handle w)) (requests w) (component w) (cleanup w)
    (notifications w)
    ((due e, LogRetrying (JsNumber k))
     :: (due e, LogFetchError (JsNumber k)) :: trace w).

(** The request has failed and is not tried again: the warning is on
    top of the notifications, before the first four of those that were
    there; nothing is set, nothing is thrown; the spinner is gone. *)
Definition warned (w : world) (e : task handler)
    (rest : list (task handler)) (retryCount : jsval) : world :=
  World (due e) rest (next_handle w) (requests w)
    ((λ s, State (cryptoPrices s) false (lastUpdate s)) <$> component w)
    (cleanup w)
    (App.Notification (due e) warning "warning" (due e)
     :: take 4 (notifications w))
    ((due e, OnNotification warning (Some "warning"))
     :: (due e, LogMaxRetries) :: (due e, LogFetchError retryCount)
     :: trace w).

(** The reply has come: the prices are shown, and the chain ends. *)
Definition received (w : world) (e : task handler)
    (rest : list (task handler)) (data : prices) : world :=
  World (due e) rest (next_handle w) (requests w)
    ((λ _, State data false (Some (due e))) <$> component w) (cleanup w)
    (notifications w) ((due e, LogFetched) :: trace w).

End DashboardTurn.

(** The same for the chart. *)
Module PriceChartTurn.
Import Browser PriceChart.

Definition warning (crypto : string) : string :=
  "Network unstable - Unable to fetch chart data for " +:+ crypto.

(** The points a reply gives to [fetchChartData]: none if the request
    failed, if the status is not [ok], if the body is not JSON or has no
    array of prices, or if a timestamp is out of range. *)
Definition reply_points (r : reply) : option (list point) :=
  match r with
  | HttpReply true (Some data) =>
      ps ← json_prices data;
      if forallb (λ tp, valid_time tp.1) ps then
        Some ((λ tp, Point tp.1 tp.2
                       (volume_at (json_volumes data) tp.1)) <$> ps)
      else None
  | _ => None
  end.

(** The reply counts as a failure: it gives no points, or an empty list
    of them. *)
Definition failed (r : reply) : Prop :=
  reply_points r = None ∨ reply_points r = Some [].

Section Network.
Variable net : nat → N * reply.

(** A retry timer has called [fetchChartData] for a supported range. *)
Definition request_sent (w : world) (e : task handler)
    (rest : list (task handler)) (crypto range : string)
    (retryCount : jsval) : world :=
  World (due e)
    (rest ++
     [Task (next_handle w) (due e + Z.of_N (net (requests w)).1) None
        (ResumeFetchChartData crypto range retryCount
           (net (requests w)).2)])
    (S (next_handle w)) (S (requests w))
    ((λ s, State (selectedCrypto s) (timeRange s) (chartData s) true
             (currentPrice s) (dataSource s) (app_render s)
             (effect_deps s)) <$> component w)
    (cleanup w) (notifications w)
    ((due e, HttpGet retryCount) :: (due e, LogAttempt retryCount)
     :: trace w).

End Network.

Definition retry_set (w : world) (e : task handler)
    (rest : list (task handler)) (crypto range : string) (k : nat)
    : world :=
  World (due e)
    (rest ++
     [Task (next_handle w) (due e + retryDelay) None
        (CallFetchChartData crypto range (Some (JsNumber (S k))))])
    (S (next_handle w)) (requests w) (component w) (cleanup w)
    (notifications w)
    ((due e, LogRetrying (JsNumber k))
     :: (due e, LogFetchError (JsNumber k)) :: trace w).

(** The warning is posted, [App] has a new list to render, and the
    chart is empty and marked ['error']. The page is then rendered. *)
Definition warned (w : world) (e : task handler)
    (rest : list (task handler)) (crypto : string) (retryCount : jsval)
    : world :=
  World (due e) rest (next_handle w) (requests w)
    ((λ s, State (selectedCrypto s) (timeRange s) [] false
             (currentPrice s) "error" (S (app_render s))
             (effect_deps s)) <$> component w)
    (cleanup w)
    (App.Notification (due e) (warning crypto) "warning" (due e)
     :: take 4 (notifications w))
    ((due e, OnNotification (warning crypto) (Some "warning"))
     :: (due e, LogMaxRetries) :: (due e, LogFetchError retryCount)
     :: trace w).

Definition received (w : world) (e : task handler)
    (rest : list (task handler)) (realData : list point) (p : point)
    : world :=
  World (due e) rest (next_handle w) (requests w)
    ((λ s, State (selectedCrypto s) (timeRange s) realData false
             (Some (price p)) "real" (app_render s) (effect_deps s))
     <$> component w)
    (cleanup w) (notifications w) ((due e, LogFetched) :: trace w).

End PriceChartTurn.

(** ** The alerting core *)

(** The Python backend (the alert table, the scheduled check and the
Telegram sender) is not part of the tree. This module is written from the
specification of the Alert Evaluator and the Dispatcher. *)

Module Backend.

(** Modelled from the spec: the two enumerations of the data model. *)
Inductive direction := ABOVE | BELOW.
Inductive status := ACTIVE | TRIGGERED.

#[export] Instance direction_eq_dec : EqDecision direction.
Proof. solve_decision. Defined.
#[export] Instance status_eq_dec : EqDecision status.
Proof. solve_decision. Defined.

(** Modelled from the spec: a timestamp, as a UTC time of day on a
calendar date. *)
Record datetime := DateTime {
  year : nat; month : nat; day : nat;
  hour : nat; minute : nat; second : nat
}.

(** Modelled from the spec: the [Alert] row of the data model. The [id] of
a row is its key in the store. *)
Record Alert := MkAlert {
  owner : string;
  symbol : string;
  threshold : Q;
  direction_of : direction;
  status_of : status;
  created_at : datetime
}.

(** Modelled from the spec: an entry of the [PriceSnapshot], the latest
observed price of a symbol and the time of the observation. *)
Record observation := Observation {
  price : Q;
  observed_at : datetime
}.

(** Modelled from the spec: the outcome of one delivery attempt, as the
messaging service reports it. *)
Inductive delivery := Delivered | TransientFailure | PermanentFailure.

(** Modelled from the spec: how a dispatch ended: delivered, dropped after
a permanent failure, or given up after the last allowed attempt failed
transiently. *)
Inductive outcome := Sent | Dropped | GaveUp.

(** Modelled from the spec: what the Dispatcher was handed and what became
of it. *)
Record dispatch := Dispatch {
  alert_id : nat;
  chat : string;
  text : string;
  result : outcome;
  attempts : nat
}.

(** Modelled from the spec: the persistence store and what has left the
system. [next_id] is the identifier the next created alert receives. *)
Record system := System {
  alerts : gmap nat Alert;
  next_id : nat;
  dispatched : list dispatch
}.

(** [x < y] on rationals, as a boolean. *)
Definition Qltb (x y : Q) : bool := negb (Qle_bool y x).

(** Modelled from the spec: the trigger predicate of the Alert Evaluator,
[observed_price > threshold] for ABOVE and [observed_price < threshold] for
BELOW. *)
Definition satisfied (d : direction) (threshold observed_price : Q)
    : bool :=
  match d with
  | ABOVE => Qltb threshold observed_price
  | BELOW => Qltb observed_price threshold
  end.

(** Modelled from the spec: the evaluation of one alert against a
snapshot. Only ACTIVE alerts are evaluated; an alert whose symbol the
snapshot does not have is skipped; the result is the observation that
satisfies the predicate, if there is one. *)
Definition evaluate (snapshot : gmap string observation) (a : Alert)
    : option observation :=
  match status_of a with
  | TRIGGERED => None
  | ACTIVE =>
      obs ← snapshot !! symbol a;
      if satisfied (direction_of a) (threshold a) (price obs)
      then Some obs else None
  end.

(** Modelled from the spec: the transition ACTIVE → TRIGGERED. *)
Definition trigger (a : Alert) : Alert :=
  MkAlert (owner a) (symbol a) (threshold a) (direction_of a) TRIGGERED
          (created_at a).

(** A text as the list of its characters. *)
Definition chars : string → list ascii := list_ascii_of_string.

Definition newline : list ascii := [ascii_of_nat 10].

(** The decimal digit [d], and back. *)
Definition digit (d : N) : ascii := ascii_of_N (48 + d).

(** The decimal digits of a number, the last one first. *)
Fixpoint digits_rev (fuel : nat) (n : N) : list N :=
  match fuel with
  | O => []
  | S fuel =>
      (n mod 10)%N ::
      (if (n <? 10)%N then [] else digits_rev fuel (n / 10)%N)
  end.

(** Modelled from the spec: a number in the text, in decimal. *)
Definition decimal (n : N) : list ascii :=
  digit <$> reverse (digits_rev (S (N.to_nat (N.size n))) n).



(** Modelled from the spec: digits in groups of three, as the README
example has them ([$65,420.00]). *)
Fixpoint grouped (cs : list ascii) : list ascii :=
  match cs with
  | [] => []
  | c :: cs =>
      c :: (if (negb (length cs =? 0) && (length cs mod 3 =? 0))%nat
            then ","%char :: grouped cs
            else grouped cs)
  end.

(** A number below 100 in two digits. *)
Definition pad2 (n : N) : list ascii := [digit (n / 10); digit (n mod 10)].

(** Modelled from the spec: a price in cents, to the nearest cent, a
half going to the even side; nothing below zero. *)
Definition cents (p : Q) : N :=
  let x := (p * 100)%Q in
  let f := Qfloor x in
  Z.to_N
    match (x - inject_Z f ?= 1 # 2)%Q with
    | Lt => f
    | Gt => f + 1
    | Eq => if Z.even f then f else f + 1
    end.

(** Modelled from the spec: a price in the text, with two decimals. *)
Definition render_price (p : Q) : list ascii :=
  chars "$" ++ grouped (decimal (cents p / 100)) ++ chars "." ++
  pad2 (cents p mod 100).

(** Modelled from the spec: a timestamp in the text. *)
Definition render_time (t : datetime) : list ascii :=
  decimal (N.of_nat (year t)) ++ chars "-" ++
  pad2 (N.of_nat (month t)) ++ chars "-" ++
  pad2 (N.of_nat (day t)) ++ chars " " ++
  pad2 (N.of_nat (hour t)) ++ chars ":" ++
  pad2 (N.of_nat (minute t)) ++ chars ":" ++
  pad2 (N.of_nat (second t)) ++ chars " UTC".

(** Modelled from the spec: a direction in the text. *)
Definition render_direction (d : direction) : list ascii :=
  chars match d with ABOVE => "above" | BELOW => "below" end.

(** Modelled from the spec: the fixed parts of the notification text,
as the example message of the README has them. *)
Definition header : list ascii :=
  chars "🚨 CRYPTO ALERT 🚨" ++ newline ++ newline ++ chars "💰 ".
Definition is_now : list ascii := chars " is now ".
Definition this_is : list ascii := newline ++ chars "📊 This is ".
Definition your_threshold : list ascii := chars " your threshold of ".
Definition triggered_at : list ascii :=
  newline ++ chars "⏰ Alert triggered at ".
Definition alert_number : list ascii :=
  newline ++ newline ++ chars "🔔 Alert ID: #".

(** Modelled from the spec: the notification text. The lines are those
of the example message of the README: symbol and observed price, relation
to the threshold, time, alert number. The example has one more line, with
the change of the price over a day, for which the snapshot of the
specification holds no data; it is left out. *)
Definition format_message (id : nat) (a : Alert) (obs : observation)
    : string :=
  string_of_list_ascii
    (header ++ chars (symbol a) ++ is_now ++ render_price (price obs) ++
     this_is ++ render_direction (direction_of a) ++
     your_threshold ++ render_price (threshold a) ++
     triggered_at ++ render_time (observed_at obs) ++
     alert_number ++ decimal (N.of_nat id)).

(** *** Reading a notification *)












(** Modelled from the spec: why the creation of an alert is refused. The
direction is one of the two by its type. *)
Inductive rejection := InvalidSymbol | NonPositiveThreshold.

(** Modelled from the spec: a symbol is a non-empty alphanumeric token of
at most ten characters. *)
Definition valid_symbol (sym : string) : bool :=
  Security.documented_symbol_ok (Security.PyStr (Security.ascii_str sym)).

(** Modelled from the spec: the creation of an alert. Malformed input is
refused; otherwise the alert is stored as ACTIVE under a fresh
identifier. *)
Definition create (o sym : string) (thr : Q) (d : direction)
    (created : datetime) (s : system) : rejection + system :=
  if negb (valid_symbol sym) then inl InvalidSymbol
  else if negb (Qltb 0 thr) then inl NonPositiveThreshold
  else inr (System (<[next_id s := MkAlert o sym thr d ACTIVE created]>
                      (alerts s))
                   (S (next_id s)) (dispatched s)).

(** Modelled from the spec: the deletion of an alert, for its owner. *)
Definition delete_alert (id : nat) (o : string) (s : system) : system :=
  match alerts s !! id with
  | Some a =>
      if decide (owner a = o)
      then System (delete id (alerts s)) (next_id s) (dispatched s)
      else s
  | None => s
  end.

Section Dispatcher.

(** The bound on delivery attempts, from the configuration. *)
Variable max_attempts : nat.

(** Modelled from the spec: delivery with bounded retry. [send k] is what
the messaging service answers to attempt number [k]; a transient failure
is tried again while attempts are left, a permanent one is not. The result
carries the number of attempts made. *)
Fixpoint deliver (send : nat → delivery) (remaining made : nat)
    : outcome * nat :=
  match remaining with
  | 0%nat => (GaveUp, made)
  | S remaining =>
      match send made with
      | Delivered => (Sent, S made)
      | PermanentFailure => (Dropped, S made)
      | TransientFailure => deliver send remaining (S made)
      end
  end.

(** Modelled from the spec: the Dispatcher. It is given the triggered
alert and the observation, formats the text, delivers it to the owner's
chat, and records what happened. It has the alert table in its hands and
leaves it alone. *)
Definition deliver_message (send : nat → delivery) (id : nat)
    (a : Alert) (obs : observation) : dispatch :=
  let '(res, n) := deliver send max_attempts 0 in
  Dispatch id (owner a) (format_message id a obs) res n.

Definition dispatch_alert (send : nat → delivery) (id : nat)
    (a : Alert) (obs : observation) (s : system) : system :=
  System (alerts s) (next_id s)
         (dispatched s ++ [deliver_message send id a obs]).

(** Modelled from the spec: what the Evaluator does with one row of the
batch: nothing if the alert does not fire, otherwise the row is set to
TRIGGERED and the alert is handed to the Dispatcher. *)
Definition process (snapshot : gmap string observation)
    (messaging : nat → nat → delivery)
    (id : nat) (a : Alert) (s : system) : system :=
  match evaluate snapshot a with
  | None => s
  | Some obs =>
      dispatch_alert (messaging id) id (trigger a) obs
        (System (<[id := trigger a]> (alerts s)) (next_id s)
                (dispatched s))
  end.

(** Modelled from the spec: one evaluation cycle over the rows read from
the store at the start of the tick. [messaging id k] is the answer of the
messaging service to attempt [k] for alert [id]. *)
Definition evaluation_cycle (snapshot : gmap string observation)
    (messaging : nat → nat → delivery) (s : system) : system :=
  map_fold (process snapshot messaging) s (alerts s).

(** Modelled from the spec: what changes the alert table: a tick of the
poller, and the create and delete operations of the REST surface. *)
Inductive operation :=
| Tick (snapshot : gmap string observation)
       (messaging : nat → nat → delivery)
| Create (owner symbol : string) (threshold : Q) (d : direction)
         (created : datetime)
| Delete (id : nat) (owner : string).

Definition apply (s : system) (op : operation) : system :=
  match op with
  | Tick snapshot messaging => evaluation_cycle snapshot messaging s
  | Create o sym thr d created =>
      match create o sym thr d created s with
      | inr s' => s'
      | inl _ => s
      end
  | Delete id o => delete_alert id o s
  end.

Definition initial : system := System ∅ 0 [].

(** The system after the operations [ops], oldest first. *)
Definition history (ops : list operation) : system :=
  foldl apply initial ops.

(** The dispatches made for one alert. *)
Definition dispatches_of (id : nat) (s : system) : list dispatch :=
  filter (λ d, alert_id d = id) (dispatched s).

End Dispatcher.

End Backend.

(** ** App.js: what is rendered *)

Module AppView.

(** The colours of a notification: the end of its [className]. *)
Definition notification_class (type : string) : string :=
  if decide (type = "success") then "bg-green-500 text-white"
  else if decide (type = "error") then "bg-red-500 text-white"
  else if decide (type = "warning") then "bg-orange-500 text-white"
  else "bg-blue-500 text-white".

Inductive icon := CheckCircle | X | AlertTriangle.

(** The icons rendered before the message of a notification, one
    [type === ... && <Icon />] each. *)
Definition notification_icons (type : string) : list icon :=
  (if decide (type = "success") then [CheckCircle] else []) ++
  (if decide (type = "error") then [X] else []) ++
  (if decide (type = "warning") then [AlertTriangle] else []).





End AppView.

(** ** Security notes: the frontend snippets *)

Module Frontend.

(** A JavaScript string: its UTF-16 code units. *)
Abbreviation js_string := (list N).

(** [input.replace(/[<>]/g, '')]: every [<] (U+003C) and every [>]
    (U+003E) is taken out. *)
Definition sanitizedInput (input : js_string) : js_string :=
  filter (λ c, c ≠ 60%N ∧ c ≠ 62%N) input.

(** [s.substring(start)]: what follows the first [start] characters. *)
Definition substring (start : nat) (s : string) : string :=
  String.substring start (String.length s - start) s.

(** The HTTPS enforcement: the address [location.replace] is called
    with, if it is called. [node_env] is [process.env.NODE_ENV],
    [protocol] and [href] are those of [location]. *)
Definition https_redirect (node_env protocol href : string)
    : option string :=
  if decide (node_env = "production" ∧ protocol ≠ "https:")
  then Some ("https:" +:+ substring (String.length protocol) href)
  else None.

End Frontend.

(** ** Dashboard: what the page shows *)

Module DashboardPage.
Import Browser Dashboard.

(** The time of the newest [Fetched prices] line of a trace. *)
Fixpoint last_fetched (tr : list (Z * event)) : option Z :=
  match tr with
  | [] => None
  | (t, LogFetched) :: _ => Some t
  | _ :: tr => last_fetched tr
  end.

(** Some chain of attempts has come to its end: with a reply, or by
    giving up. *)
Fixpoint settled (tr : list (Z * event)) : bool :=
  match tr with
  | [] => false
  | (_, LogFetched) :: _ => true
  | (_, LogMaxRetries) :: _ => true
  | _ :: tr => settled tr
  end.

(** What the cells of the component hold, against what has happened on
    the page: a reply that is waited for is the reply of the server to a
    request that was sent; [lastUpdate] is the time of the newest reply
    that was received; [cryptoPrices] is what that reply held, and the
    initial [{}] if there is none; [loading] is true until some chain of
    attempts has ended. *)
Record display_ok (net : nat → N * settlement prices) (w : world)
    : Prop := DisplayOk {
  replies_from_server :
    ∀ e rc r, e ∈ queue w → callback e = ResumeFetchPrices rc r →
      ∃ k, (k < requests w)%nat ∧ (net k).2 = r;
  lastUpdate_newest :
    ∀ s, component w = Some s → lastUpdate s = last_fetched (trace w);
  loading_until_settled :
    ∀ s, component w = Some s → loading s = negb (settled (trace w));
  prices_from_server :
    ∀ s, component w = Some s →
      match lastUpdate s with
      | None => cryptoPrices s = ∅
      | Some _ =>
          ∃ k, (k < requests w)%nat
               ∧ (net k).2 = Fulfilled (cryptoPrices s)
      end
}.

End DashboardPage.

(** * Properties *)

(** ** The notification list *)

Section AppFacts.
Import App.

Lemma addNotification_error d n m prev :
  addNotification d n m (Some "error") prev = prev.
Proof. reflexivity. Qed.

Lemma addNotification_shown d n m ty prev :
  default "info" ty ≠ "error" →
  addNotification d n m ty prev
  = Notification d m (default "info" ty) n :: take 4 prev.
Proof. intros Hty. unfold addNotification. by rewrite decide_False. Qed.

Lemma addNotification_length d n m ty prev :
  (length prev ≤ 5 → length (addNotification d n m ty prev) ≤ 5)%nat.
Proof.
  intros Hlen. unfold addNotification. case_decide; [done|].
  cbn [length]. rewrite length_take. lia.
Qed.

Lemma removeNotification_sublist i prev :
  removeNotification i prev `sublist_of` prev.
Proof. apply sublist_filter. Qed.

Lemma perform_length prev c :
  (length prev ≤ 5 → length (perform prev c) ≤ 5)%nat.
Proof.
  destruct c as [d n m ty|i]; cbn [perform].
  - apply addNotification_length.
  - intros Hlen. pose proof (sublist_length _ _ (removeNotification_sublist i prev)).
    lia.
Qed.

Lemma notifications_after_snoc cs c :
  notifications_after (cs ++ [c]) = perform (notifications_after cs) c.
Proof. unfold notifications_after. by rewrite foldl_app. Qed.

Lemma constructed_snoc cs c :
  constructed (cs ++ [c])
  = match c with
    | AddNotification d n m ty =>
        if decide (default "info" ty = "error") then constructed cs
        else Notification d m (default "info" ty) n :: constructed cs
    | RemoveNotification _ => constructed cs
    end.
Proof.
  induction cs as [|c' cs IH]; cbn [constructed app].
  - destruct c as [d n m ty|i]; [|done]. by case_decide.
  - rewrite IH. destruct c' as [d' n' m' ty'|i']; [|done].
    destruct c as [d n m ty|i]; [|done]. by case_decide.
Qed.

Lemma notifications_after_length cs :
  (length (notifications_after cs) ≤ 5)%nat.
Proof.
  induction cs as [|c cs IH] using rev_ind; [cbn; lia|].
  rewrite notifications_after_snoc. by apply perform_length.
Qed.

Lemma notifications_after_sublist cs :
  notifications_after cs `sublist_of` constructed cs.
Proof.
  induction cs as [|c cs IH] using rev_ind; [done|].
  rewrite notifications_after_snoc, constructed_snoc.
  destruct c as [d n m ty|i]; cbn [perform].
  - unfold addNotification. case_decide; [done|].
    apply sublist_skip. etrans; [apply sublist_take|done].
  - etrans; [apply removeNotification_sublist|done].
Qed.

End AppFacts.

(** C8. A call of [addNotification] with type ['error'] leaves the list of
    notifications as it was; a call with any other type, or with none
    (which stands for ['info']), puts a new notification with the given
    message and type in front, before the first four of the previous
    ones. *)
Theorem addNotification_drops_errors_only :
  ∀ (date_now new_date : Z) (message : string)
    (prev : list App.notification),
    App.addNotification date_now new_date message (Some "error") prev = prev
    ∧ ∀ type : option string,
        default "info" type ≠ "error" →
        App.addNotification date_now new_date message type prev
        = App.Notification date_now message (default "info" type) new_date
          :: take 4 prev.
Proof.
  intros d n m prev. split.
  - apply addNotification_error.
  - intros ty. apply addNotification_shown.
Qed.

Lemma addNotification_drops_errors_only_witness :
  let old := App.Notification 1 "Alert created successfully!" "success" 1 in
  App.addNotification 7 8 "Failed to fetch alerts" (Some "error") [old]
  = [old]
  ∧ App.addNotification 7 8 "Please log in to create alerts"
      (Some "warning") [old]
    = [App.Notification 7 "Please log in to create alerts" "warning" 8; old].
Proof.
  intros old.
  destruct (addNotification_drops_errors_only 7 8 "Failed to fetch alerts"
              [old]) as [Herr _].
  destruct (addNotification_drops_errors_only 7 8
              "Please log in to create alerts" [old]) as [_ Hshow].
  split; [exact Herr|]. apply (Hshow (Some "warning")). discriminate.
Defined.

(** C10. Whatever calls of [addNotification] and [removeNotification] the
    page has performed since it was loaded, the list holds at most five
    notifications and lists them newest first: it is a subsequence of the
    notifications constructed so far, taken from the latest to the
    earliest. Every further call keeps the bound; a call that inserts puts
    the new notification first and keeps the first four, that is the four
    most recent, of the previous ones; [removeNotification] only takes
    entries out. *)
Theorem notifications_bounded_newest_first :
  ∀ cs : list App.call,
    let ns := App.notifications_after cs in
    (length ns ≤ 5)%nat
    ∧ ns `sublist_of` App.constructed cs
    ∧ (∀ c, (length (App.perform ns c) ≤ 5)%nat)
    ∧ (∀ d n m ty,
         default "info" ty ≠ "error" →
         App.perform ns (App.AddNotification d n m ty)
         = App.Notification d m (default "info" ty) n :: take 4 ns)
    ∧ (∀ i, App.perform ns (App.RemoveNotification i) `sublist_of` ns).
Proof.
  intros cs ns. split_and!.
  - apply notifications_after_length.
  - apply notifications_after_sublist.
  - intros c. apply perform_length, notifications_after_length.
  - intros d n m ty. apply addNotification_shown.
  - intros i. apply removeNotification_sublist.
Qed.

Lemma notifications_bounded_newest_first_witness :
  let cs := (λ k : Z, App.AddNotification k k "tick" None) <$>
              [1; 2; 3; 4; 5; 6; 7] in
  App.id <$> App.notifications_after (cs ++ [App.RemoveNotification 5])
  = [7; 6; 4; 3]
  ∧ (length (App.notifications_after cs) ≤ 5)%nat.
Proof.
  intros cs. split; [reflexivity|].
  exact (proj1 (notifications_bounded_newest_first cs)).
Defined.

(** ** Symbol validation *)

Section SecurityFacts.
Import Security.
Variable unicode_isalpha : N → bool.
Variable unicode_upper : N → list N.

Lemma char_upper_ascii c :
  (c < 128)%N →
  ∃ c', char_upper unicode_upper c = [c'] ∧ (c' < 128)%N
        ∧ ascii_isletter c' = ascii_isletter c.
Proof.
  intros Hc. unfold char_upper.
  destruct (N.ltb_spec c 128); [|lia].
  destruct (ascii_islower c) eqn:Hlow; [|by eauto].
  exists (c - 32)%N. split; [done|].
  unfold ascii_isletter, ascii_isupper, ascii_islower in *.
  apply andb_true_iff in Hlow as [Hlo Hhi].
  apply N.leb_le in Hlo, Hhi. split; [lia|].
  replace (65 <=? c - 32)%N with true by (symmetry; apply N.leb_le; lia).
  replace (c - 32 <=? 90)%N with true by (symmetry; apply N.leb_le; lia).
  replace (97 <=? c)%N with true by (symmetry; apply N.leb_le; lia).
  replace (c <=? 122)%N with true by (symmetry; apply N.leb_le; lia).
  cbn. by rewrite orb_true_r.
Qed.

Lemma upper_ascii_letters s :
  Forall (λ c, (c < 128)%N) s →
  forallb (char_isalpha unicode_isalpha) (upper unicode_upper s)
  = forallb ascii_isletter s
  ∧ length (upper unicode_upper s) = length s.
Proof.
  induction 1 as [|c s Hc _ [IH1 IH2]]; [done|].
  destruct (char_upper_ascii c Hc) as (c' & Hup & Hc' & Hlet).
  unfold upper in *. cbn [mbind list_bind]. rewrite Hup. cbn [app forallb length].
  rewrite IH1, IH2. split; [|done]. f_equal.
  unfold char_isalpha. destruct (N.ltb_spec c' 128); [|lia].
  exact Hlet.
Qed.

Lemma validate_crypto_symbol_ascii s :
  Forall (λ c, (c < 128)%N) s →
  validate_crypto_symbol unicode_isalpha unicode_upper (PyStr s) = true
  ↔ s ≠ [] ∧ Forall (λ c, ascii_isletter c = true) s
    ∧ (length s ≤ 10)%nat.
Proof.
  intros Hs. destruct (upper_ascii_letters s Hs) as [Hall Hlen].
  destruct s as [|c s]; [cbn; split; [discriminate|by intros [? _]]|].
  unfold validate_crypto_symbol, isalpha.
  destruct (upper unicode_upper (c :: s)) as [|u us] eqn:Hu; [done|].
  rewrite Hall, andb_true_iff, bool_decide_eq_true, forallb_forall.
  rewrite Forall_forall. setoid_rewrite <- list_elem_of_In.
  split; [intros [? ?]; by split_and!|by intros (_ & ? & ?)].
Qed.

End SecurityFacts.

(** C6. The check accepts a symbol only if it is a non-empty string of at
    most ten characters; but it asks for letters, not for letters or
    digits: [1INCH], which the documented rule admits, is turned down,
    whatever the Unicode tables say about other characters. *)
Theorem validate_crypto_symbol_rejects_digits :
  ∀ (unicode_isalpha : N → bool) (unicode_upper : N → list N),
    Security.documented_symbol_ok (Security.PyStr (Security.ascii_str "1INCH"))
    = true
    ∧ Security.validate_crypto_symbol unicode_isalpha unicode_upper
        (Security.PyStr (Security.ascii_str "1INCH"))
      = false.
Proof. intros ia up. split; reflexivity. Qed.

(** On ASCII input the check accepts exactly the non-empty strings of at
    most ten letters. *)
Theorem validate_crypto_symbol_ascii_letters :
  ∀ (unicode_isalpha : N → bool) (unicode_upper : N → list N) (s : list N),
    Forall (λ c, (c < 128)%N) s →
    Security.validate_crypto_symbol unicode_isalpha unicode_upper
      (Security.PyStr s) = true
    ↔ s ≠ [] ∧ Forall (λ c, Security.ascii_isletter c = true) s
      ∧ (length s ≤ 10)%nat.
Proof. apply validate_crypto_symbol_ascii. Qed.

Lemma validate_crypto_symbol_ascii_letters_witness :
  Security.validate_crypto_symbol (λ _, false) (λ c, [c])
    (Security.PyStr (Security.ascii_str "btc")) = true.
Proof.
  apply (validate_crypto_symbol_ascii_letters (λ _, false) (λ c, [c])
           (Security.ascii_str "btc")).
  - repeat constructor.
  - split; [discriminate|]. split; [repeat constructor|]. cbn. lia.
Defined.

(** ** The alerting core *)

Section BackendFacts.
Import Backend.
Variable max_attempts : nat.

Implicit Types (s : system) (a : Alert) (obs : observation).
Implicit Types (snapshot : gmap string observation).
Implicit Types (messaging : nat → nat → delivery).

Lemma Qltb_lt (x y : Q) : Qltb x y = true ↔ (x < y)%Q.
Proof.
  unfold Qltb. rewrite negb_true_iff, <- not_true_iff_false, Qle_bool_iff.
  split; [apply Qnot_le_lt|apply Qlt_not_le].
Qed.

Lemma satisfied_above thr p : satisfied ABOVE thr p = true ↔ (thr < p)%Q.
Proof. apply Qltb_lt. Qed.

Lemma satisfied_below thr p : satisfied BELOW thr p = true ↔ (p < thr)%Q.
Proof. apply Qltb_lt. Qed.

Lemma satisfied_equal d thr p : (p == thr)%Q → satisfied d thr p = false.
Proof.
  intros Heq. apply not_true_iff_false. intros Hsat.
  destruct d; apply Qltb_lt in Hsat; rewrite Heq in Hsat;
    by apply Qlt_irrefl in Hsat.
Qed.

Lemma evaluate_triggered snapshot a :
  status_of a = TRIGGERED → evaluate snapshot a = None.
Proof. intros Hst. unfold evaluate. by rewrite Hst. Qed.

Lemma evaluate_absent snapshot a :
  snapshot !! symbol a = None → evaluate snapshot a = None.
Proof. intros Hno. unfold evaluate. rewrite Hno. by destruct (status_of a). Qed.

Lemma evaluate_Some snapshot a obs :
  evaluate snapshot a = Some obs ↔
  status_of a = ACTIVE ∧ snapshot !! symbol a = Some obs
  ∧ satisfied (direction_of a) (threshold a) (price obs) = true.
Proof.
  unfold evaluate. destruct (status_of a); [|by split; [|intros [? _]]].
  destruct (snapshot !! symbol a) as [obs'|]; cbn;
    [|by split; [|intros (_ & ? & _)]].
  destruct (satisfied _ _ (price obs')) eqn:Hsat.
  - split; [intros [= <-]; by split_and!|]. by intros (_ & [= <-] & _).
  - split; [done|]. intros (_ & [= <-] & ?). congruence.
Qed.

Lemma deliver_message_id send id a obs :
  alert_id (deliver_message max_attempts send id a obs) = id.
Proof. unfold deliver_message. by destruct (deliver _ _ _). Qed.


(** The rows of the batch are processed independently of each other. *)
Lemma map_fold_process snapshot messaging s0 (m : gmap nat Alert) :
  let r := map_fold (process max_attempts snapshot messaging) s0 m in
  next_id r = next_id s0
  ∧ (∀ i, alerts r !! i =
          match m !! i with
          | Some a => if evaluate snapshot a is Some _ then Some (trigger a)
                      else alerts s0 !! i
          | None => alerts s0 !! i
          end)
  ∧ (∀ i, dispatches_of i r =
          dispatches_of i s0 ++
          match m !! i with
          | Some a => match evaluate snapshot a with
                      | Some obs => [deliver_message max_attempts (messaging i) i
                              (trigger a) obs]
                      | None => []
                      end
          | None => []
          end).
Proof.
  cbn zeta.
  apply (map_fold_weak_ind (λ r m,
    next_id r = next_id s0
    ∧ (∀ i, alerts r !! i =
            match m !! i with
            | Some a => if evaluate snapshot a is Some _ then Some (trigger a)
                        else alerts s0 !! i
            | None => alerts s0 !! i
            end)
    ∧ (∀ i, dispatches_of i r =
            dispatches_of i s0 ++
            match m !! i with
            | Some a => match evaluate snapshot a with
                        | Some obs => [deliver_message max_attempts (messaging i) i
                              (trigger a) obs]
                        | None => []
                        end
            | None => []
            end))); clear m.
  { split_and!; [done|done|]. intros i. rewrite lookup_empty.
    by rewrite app_nil_r. }
  intros j a m r Hj (IHn & IHa & IHd). unfold process.
  destruct (evaluate snapshot a) as [obs|] eqn:Hev.
  - split_and!.
    + done.
    + intros i. cbn.
      destruct (decide (j = i)) as [->|Hne].
      * by rewrite !lookup_insert_eq, Hev.
      * by rewrite !lookup_insert_ne, IHa by done.
    + intros i. unfold dispatches_of at 1. cbn [dispatch_alert dispatched].
      rewrite filter_app. fold (dispatches_of i r). rewrite IHd.
      destruct (decide (j = i)) as [->|Hne].
      * rewrite lookup_insert_eq, Hev, Hj, app_nil_r.
        by rewrite filter_cons_True by apply deliver_message_id.
      * rewrite lookup_insert_ne by done.
        rewrite filter_cons_False, filter_nil, app_nil_r;
          [done|by rewrite deliver_message_id].
  - split_and!; [done| |].
    + intros i. rewrite IHa. destruct (decide (j = i)) as [->|Hne].
      * by rewrite lookup_insert_eq, Hev, Hj.
      * by rewrite lookup_insert_ne.
    + intros i. rewrite IHd. destruct (decide (j = i)) as [->|Hne].
      * by rewrite lookup_insert_eq, Hev, Hj.
      * by rewrite lookup_insert_ne.
Qed.

Lemma cycle_next_id snapshot messaging s :
  next_id (evaluation_cycle max_attempts snapshot messaging s) = next_id s.
Proof. apply (map_fold_process snapshot messaging s (alerts s)). Qed.

Lemma cycle_alerts snapshot messaging s i :
  alerts (evaluation_cycle max_attempts snapshot messaging s) !! i
  = (λ a, if evaluate snapshot a is Some _ then trigger a else a)
    <$> alerts s !! i.
Proof.
  destruct (map_fold_process snapshot messaging s (alerts s))
    as (_ & Ha & _).
  unfold evaluation_cycle. rewrite Ha.
  destruct (alerts s !! i) as [a|]; [|done]. cbn.
  by destruct (evaluate snapshot a).
Qed.

Lemma cycle_dispatches snapshot messaging s i :
  dispatches_of i (evaluation_cycle max_attempts snapshot messaging s)
  = dispatches_of i s ++
    match alerts s !! i with
    | Some a => match evaluate snapshot a with
                | Some obs => [deliver_message max_attempts (messaging i) i
                              (trigger a) obs]
                | None => []
                end
    | None => []
    end.
Proof. apply (map_fold_process snapshot messaging s (alerts s)). Qed.

Lemma cycle_fired snapshot messaging s i a obs :
  alerts s !! i = Some a → evaluate snapshot a = Some obs →
  let s' := evaluation_cycle max_attempts snapshot messaging s in
  alerts s' !! i = Some (trigger a)
  ∧ dispatches_of i s' =
    dispatches_of i s ++
    [deliver_message max_attempts (messaging i) i (trigger a) obs].
Proof.
  intros Ha Hev. cbn zeta.
  by rewrite cycle_alerts, cycle_dispatches, Ha; cbn; rewrite Hev.
Qed.

Lemma cycle_quiet snapshot messaging s i a :
  alerts s !! i = Some a → evaluate snapshot a = None →
  let s' := evaluation_cycle max_attempts snapshot messaging s in
  alerts s' !! i = Some a ∧ dispatches_of i s' = dispatches_of i s.
Proof.
  intros Ha Hev. cbn zeta.
  by rewrite cycle_alerts, cycle_dispatches, Ha; cbn; rewrite Hev, app_nil_r.
Qed.

Lemma history_snoc ops op :
  history max_attempts (ops ++ [op])
  = apply max_attempts (history max_attempts ops) op.
Proof. unfold history. by rewrite foldl_app. Qed.

(** What one operation does to the row and the dispatches of one
    identifier. *)
Lemma apply_row s op i :
  let s' := apply max_attempts s op in
  (next_id s ≤ next_id s')%nat
  ∧ ((∃ a, alerts s !! i = Some a ∧ status_of a = ACTIVE
           ∧ alerts s' !! i = Some (trigger a)
           ∧ ∃ d, dispatches_of i s' = dispatches_of i s ++ [d])
     ∨ (dispatches_of i s' = dispatches_of i s
        ∧ (alerts s' !! i = alerts s !! i
           ∨ alerts s' !! i = None
           ∨ (i = next_id s ∧ (next_id s < next_id s')%nat
              ∧ ∃ a, alerts s' !! i = Some a ∧ status_of a = ACTIVE)))).
Proof.
  destruct op as [snapshot messaging|o sym thr d created|id o];
    cbn [apply].
  - split; [by rewrite cycle_next_id|].
    destruct (alerts s !! i) as [a|] eqn:Ha.
    + destruct (evaluate snapshot a) as [obs|] eqn:Hev.
      * left. exists a. apply evaluate_Some in Hev as Hact.
        destruct (cycle_fired snapshot messaging s i a obs Ha Hev)
          as [-> ->]. split_and!; [done|apply Hact|done|by eexists].
      * right.
        destruct (cycle_quiet snapshot messaging s i a Ha Hev)
          as [-> ->]. by split; [|left].
    + right. rewrite cycle_alerts, cycle_dispatches, Ha. cbn.
      rewrite app_nil_r. by split; [|left].
  - unfold create.
    destruct (negb (valid_symbol sym));
      [by split; [|right; split; [|left]]|].
    destruct (negb (Qltb 0 thr));
      [by split; [|right; split; [|left]]|].
    split; [cbn; lia|]. right. split; [done|]. cbn.
    destruct (decide (next_id s = i)) as [<-|Hne].
    + right; right. rewrite lookup_insert_eq.
      split_and!; [done|lia|by eexists].
    + left. by rewrite lookup_insert_ne.
  - unfold delete_alert.
    destruct (alerts s !! id) as [a|] eqn:Ha;
      [|by split; [|right; split; [|left]]].
    case_decide; [|by split; [|right; split; [|left]]].
    split; [done|]. right. split; [done|]. cbn.
    destruct (decide (id = i)) as [->|Hne].
    + right; left. by rewrite lookup_delete_eq.
    + left. by rewrite lookup_delete_ne.
Qed.

(** At every point of a history: an identifier not yet assigned has no
    row and no dispatch; an alert has at most one dispatch, and if it has
    one it is TRIGGERED. *)
Lemma history_invariant ops i :
  let s := history max_attempts ops in
  ((next_id s ≤ i)%nat → alerts s !! i = None ∧ dispatches_of i s = [])
  ∧ (length (dispatches_of i s) ≤ 1)%nat
  ∧ (dispatches_of i s ≠ [] →
     ∀ a, alerts s !! i = Some a → status_of a = TRIGGERED).
Proof.
  induction ops as [|op ops IH] using rev_ind.
  { cbn. split_and!; [done|lia|done]. }
  rewrite history_snoc. cbn zeta in *.
  set (s := history max_attempts ops) in *.
  destruct IH as (IHfresh & IHlen & IHtrig).
  destruct (apply_row s op i) as [Hmono Hrow].
  destruct Hrow as [(a & Ha & Hact & Ha' & d & Hd)
                   |(Hd & [Ha'|[Ha'|(-> & Hlt & a & Ha' & Hact)]])].
  - assert (dispatches_of i s = []) as Hnone.
    { destruct (dispatches_of i s) eqn:Hds; [done|].
      specialize (IHtrig ltac:(done) a Ha). congruence. }
    rewrite Ha', Hd, Hnone. split_and!.
    + intros Hi. destruct (IHfresh ltac:(lia)). congruence.
    + cbn. lia.
    + by intros _ ? [= <-].
  - rewrite Ha', Hd. split_and!; [|done|done].
    intros Hi. apply IHfresh. lia.
  - rewrite Ha', Hd. split_and!; [|done|done].
    intros Hi. split; [done|]. apply IHfresh. lia.
  - rewrite Ha', Hd. destruct (IHfresh ltac:(lia)) as [_ ->].
    split_and!; [lia|cbn; lia|done].
Qed.

(** From the moment an alert is TRIGGERED, no operation dispatches for
    it again; its row stays as it is until it is deleted. *)
Lemma triggered_forever ops ops' i a :
  let s := history max_attempts ops in
  let s' := history max_attempts (ops ++ ops') in
  alerts s !! i = Some a → status_of a = TRIGGERED →
  dispatches_of i s' = dispatches_of i s
  ∧ (alerts s' !! i = Some a ∨ alerts s' !! i = None)
  ∧ (i < next_id s')%nat.
Proof.
  cbn zeta. intros Ha Htr.
  induction ops' as [|op ops' IH] using rev_ind.
  - rewrite app_nil_r. split_and!; [done|by left|].
    destruct (decide (i < next_id (history max_attempts ops))%nat);
      [done|].
    destruct (history_invariant ops i) as [Hfresh _].
    destruct Hfresh; [lia|congruence].
  - rewrite app_assoc, history_snoc.
    set (s' := history max_attempts (ops ++ ops')) in *.
    destruct IH as (IHd & IHa & IHlt).
    destruct (apply_row s' op i) as [Hmono Hrow].
    destruct Hrow as [(a' & Ha' & Hact & _)
                     |(Hd & [Hsame|[Hgone|(-> & _)]])].
    + destruct IHa; congruence.
    + rewrite Hd, Hsame. split_and!; [done|done|lia].
    + rewrite Hd, Hgone. split_and!; [done|by right|lia].
    + lia.
Qed.


End BackendFacts.


Section BackendClaims.
Import Backend.

(** C1. An ACTIVE alert whose symbol the snapshot prices fires exactly
    when the observed price is strictly above the threshold (direction
    ABOVE), or strictly below it (direction BELOW); at a price equal to
    the threshold it does not fire. Firing means that the cycle sets the
    alert to TRIGGERED and hands one notification to the Dispatcher; not
    firing, that the cycle leaves the row and the dispatches alone. *)
Theorem evaluator_fires_strictly_beyond_threshold :
  ∀ (max_attempts : nat) (snapshot : gmap string observation)
    (messaging : nat → nat → delivery) (s : system) (id : nat)
    (a : Alert) (obs : observation),
    alerts s !! id = Some a →
    status_of a = ACTIVE →
    snapshot !! symbol a = Some obs →
    let s' := evaluation_cycle max_attempts snapshot messaging s in
    let fires := evaluate snapshot a = Some obs in
    (direction_of a = ABOVE → (fires ↔ (threshold a < price obs)%Q))
    ∧ (direction_of a = BELOW → (fires ↔ (price obs < threshold a)%Q))
    ∧ ((price obs == threshold a)%Q → ¬ fires)
    ∧ (fires →
       status_of <$> alerts s' !! id = Some TRIGGERED
       ∧ dispatches_of id s' =
         dispatches_of id s ++
         [deliver_message max_attempts (messaging id) id (trigger a) obs])
    ∧ (¬ fires →
       alerts s' !! id = Some a ∧ dispatches_of id s' = dispatches_of id s).
Proof.
  intros max_attempts snapshot messaging s id a obs Ha Hact Hobs s' fires.
  assert (fires ↔ satisfied (direction_of a) (threshold a) (price obs)
                  = true) as Hfires.
  { unfold fires. rewrite evaluate_Some. by split; [intros (_ & _ & ?)|]. }
  split_and!.
  - intros Hd. rewrite Hfires, Hd. apply satisfied_above.
  - intros Hd. rewrite Hfires, Hd. apply satisfied_below.
  - intros Heq. rewrite Hfires, (satisfied_equal _ _ _ Heq). discriminate.
  - intros Hev.
    destruct (cycle_fired max_attempts snapshot messaging s id a obs Ha Hev)
      as [Ha' Hd']. fold s' in Ha', Hd'. by rewrite Ha', Hd'.
  - intros Hno. apply cycle_quiet; [done|].
    destruct (evaluate snapshot a) as [obs'|] eqn:Hev; [|done].
    apply evaluate_Some in Hev as Hev'. destruct Hev' as (_ & Hobs' & _).
    exfalso. apply Hno. unfold fires. congruence.
Qed.

(** C4. An ACTIVE alert whose symbol is missing from the snapshot comes
    out of the cycle as it went in, with no dispatch; the cycle is a
    total function, so nothing is raised; and the next cycle evaluates
    the alert again: if its snapshot has a price that satisfies the
    predicate, the alert fires then. *)
Theorem absent_symbol_leaves_alert_active :
  ∀ (max_attempts : nat) (snapshot : gmap string observation)
    (messaging : nat → nat → delivery) (s : system) (id : nat)
    (a : Alert),
    alerts s !! id = Some a →
    status_of a = ACTIVE →
    snapshot !! symbol a = None →
    let s' := evaluation_cycle max_attempts snapshot messaging s in
    alerts s' !! id = Some a
    ∧ dispatches_of id s' = dispatches_of id s
    ∧ ∀ (snapshot' : gmap string observation)
        (messaging' : nat → nat → delivery) (obs : observation),
        snapshot' !! symbol a = Some obs →
        satisfied (direction_of a) (threshold a) (price obs) = true →
        let s'' := evaluation_cycle max_attempts snapshot' messaging' s' in
        alerts s'' !! id = Some (trigger a)
        ∧ dispatches_of id s'' =
          dispatches_of id s ++
          [deliver_message max_attempts (messaging' id) id (trigger a) obs].
Proof.
  intros max_attempts snapshot messaging s id a Ha Hact Hno s'.
  destruct (cycle_quiet max_attempts snapshot messaging s id a Ha
              (evaluate_absent _ _ Hno)) as [Ha' Hd']. fold s' in Ha', Hd'.
  split_and!; [done|done|].
  intros snapshot' messaging' obs Hobs Hsat s''.
  assert (evaluate snapshot' a = Some obs) as Hev
    by by apply evaluate_Some.
  destruct (cycle_fired max_attempts snapshot' messaging' s' id a obs
              Ha' Hev) as [Ha'' Hd'']. fold s'' in Ha'', Hd''.
  by rewrite Ha'', Hd'', Hd'.
Qed.

Lemma deliver_attempts send remaining made :
  (made ≤ (deliver send remaining made).2 ≤ made + remaining)%nat.
Proof.
  revert made. induction remaining as [|n IH]; intros made; cbn; [lia|].
  destruct (send made); cbn; [lia| |lia].
  specialize (IH (S made)). lia.
Qed.

(** C3. When an alert fires, the cycle leaves it TRIGGERED whatever the
    messaging service answers: the delivery may succeed, be dropped
    after a permanent failure or be given up after the allowed number of
    attempts, the row is the same; the Dispatcher writes nothing to the
    alert table; and the attempts it makes are bounded. *)
Theorem delivery_outcome_leaves_alert_triggered :
  ∀ (max_attempts : nat) (snapshot : gmap string observation)
    (messaging : nat → nat → delivery) (s : system) (id : nat)
    (a : Alert) (obs : observation),
    alerts s !! id = Some a →
    evaluate snapshot a = Some obs →
    let s' := evaluation_cycle max_attempts snapshot messaging s in
    let d := deliver_message max_attempts (messaging id) id (trigger a)
               obs in
    alerts s' !! id = Some (trigger a)
    ∧ status_of (trigger a) = TRIGGERED
    ∧ dispatches_of id s' = dispatches_of id s ++ [d]
    ∧ (result d, attempts d) = deliver (messaging id) max_attempts 0
    ∧ (attempts d ≤ max_attempts)%nat
    ∧ (∀ messaging' : nat → nat → delivery,
         alerts (evaluation_cycle max_attempts snapshot messaging' s)
         = alerts s')
    ∧ (∀ (send : nat → delivery) (i : nat) (b : Alert) (o : observation)
         (t : system),
         alerts (dispatch_alert max_attempts send i b o t) = alerts t).
Proof.
  intros max_attempts snapshot messaging s id a obs Ha Hev s' d.
  destruct (cycle_fired max_attempts snapshot messaging s id a obs Ha Hev)
    as [Ha' Hd']. fold s' in Ha', Hd'.
  split_and!; [done|done|done| | | |done].
  - unfold d, deliver_message. by destruct (deliver _ _ _).
  - unfold d, deliver_message.
    pose proof (deliver_attempts (messaging id) max_attempts 0) as Hb.
    destruct (deliver _ _ _). cbn in *. lia.
  - intros messaging'. apply map_eq. intros i.
    unfold s'. by rewrite !cycle_alerts.
Qed.

(** C2. In every history of ticks, creations and deletions, an alert is
    dispatched at most once. Once its row is TRIGGERED the Evaluator
    passes it over on every snapshot, and whatever happens afterwards adds
    no dispatch for it: the row stays as it is until it is deleted. *)
Theorem triggered_alert_never_fires_again :
  ∀ (max_attempts : nat) (ops : list operation) (id : nat),
    let s := history max_attempts ops in
    (length (dispatches_of id s) ≤ 1)%nat
    ∧ ∀ a : Alert,
        alerts s !! id = Some a →
        status_of a = TRIGGERED →
        (∀ snapshot : gmap string observation, evaluate snapshot a = None)
        ∧ ∀ ops' : list operation,
            let s' := history max_attempts (ops ++ ops') in
            dispatches_of id s' = dispatches_of id s
            ∧ (alerts s' !! id = Some a ∨ alerts s' !! id = None).
Proof.
  intros max_attempts ops id s. split.
  - apply (history_invariant max_attempts ops id).
  - intros a Ha Htr. split.
    + intros snapshot. by apply evaluate_triggered.
    + intros ops' s'.
      destruct (triggered_forever max_attempts ops ops' id a Ha Htr)
        as (Hd & Hrow & _). by split.
Qed.

End BackendClaims.

Section BackendScenarios.
Import Backend.

Lemma evaluator_fires_strictly_beyond_threshold_witness :
  let noon := DateTime 2025 9 20 12 0 0 in
  let a := MkAlert "42" "BTC" 60000 ABOVE ACTIVE noon in
  let s := history 3 [Create "42" "BTC" 60000 ABOVE noon] in
  let at_threshold := Observation 60000 noon in
  evaluate {[ "BTC" := at_threshold ]} a ≠ Some at_threshold
  ∧ dispatched
      (evaluation_cycle 3 {[ "BTC" := at_threshold ]} (λ _ _, Delivered) s)
    = [].
Proof.
  intros noon a s at_threshold.
  destruct (evaluator_fires_strictly_beyond_threshold 3
              {[ "BTC" := at_threshold ]} (λ _ _, Delivered) s 0%nat a
              at_threshold)
    as (_ & _ & Hequal & _ & _); [reflexivity..|].
  split; [|reflexivity]. apply Hequal. reflexivity.
Defined.

Lemma absent_symbol_leaves_alert_active_witness :
  let noon := DateTime 2025 9 20 12 0 0 in
  let a := MkAlert "42" "BTC" 60000 ABOVE ACTIVE noon in
  let s := history 3 [Create "42" "BTC" 60000 ABOVE noon] in
  let without_btc : gmap string observation :=
    {[ "ETH" := Observation 70000 noon ]} in
  alerts (evaluation_cycle 3 without_btc (λ _ _, Delivered) s) !! 0%nat
  = Some a.
Proof.
  intros noon a s without_btc.
  refine (proj1 (absent_symbol_leaves_alert_active 3 without_btc
                   (λ _ _, Delivered) s 0%nat a _ _ _)); reflexivity.
Defined.

Lemma delivery_outcome_leaves_alert_triggered_witness :
  let noon := DateTime 2025 9 20 12 0 0 in
  let a := MkAlert "42" "BTC" 60000 ABOVE ACTIVE noon in
  let s := history 3 [Create "42" "BTC" 60000 ABOVE noon] in
  let obs := Observation 60001 noon in
  alerts (evaluation_cycle 3 {[ "BTC" := obs ]}
            (λ _ _, PermanentFailure) s) !! 0%nat
  = Some (trigger a).
Proof.
  intros noon a s obs.
  refine (proj1 (delivery_outcome_leaves_alert_triggered 3
                   {[ "BTC" := obs ]} (λ _ _, PermanentFailure) s 0%nat a
                   obs _ _)); reflexivity.
Defined.

Lemma triggered_alert_never_fires_again_witness :
  let noon := DateTime 2025 9 20 12 0 0 in
  let rising (p : Q) : operation :=
    Tick {[ "BTC" := Observation p noon ]} (λ _ _, TransientFailure) in
  let ops := [Create "42" "BTC" 60000 ABOVE noon; rising 60001%Q] in
  dispatches_of 0 (history 3 (ops ++ [rising 60002%Q; rising 70000%Q]))
  = dispatches_of 0 (history 3 ops).
Proof.
  intros noon rising ops.
  destruct (triggered_alert_never_fires_again 3 ops 0%nat) as [_ Hlater].
  destruct (Hlater (MkAlert "42" "BTC" 60000 ABOVE TRIGGERED noon))
    as [_ Hsame]; [reflexivity..|].
  exact (proj1 (Hsame [rising 60002%Q; rising 70000%Q])).
Defined.


End BackendScenarios.

(** ** The text of a notification *)

Section MessageFacts.
Import Backend.





















End MessageFacts.

Section MessageClaims.
Import Backend.


End MessageClaims.

Section MessageScenarios.
Import Backend.


End MessageScenarios.

(** ** The event loop *)

Section QueueFacts.
Import Browser.
Context {H : Type}.
Implicit Types (e : task H) (q rest : list (task H)).

Lemma pop_None q : pop q = None → q = [].
Proof.
  destruct q as [|x q]; [done|]. cbn.
  destruct (pop q) as [[e' rest']|]; [|done]. by destruct (due e' <? due x).
Qed.

Lemma pop_perm q e rest : pop q = Some (e, rest) → q ≡ₚ e :: rest.
Proof.
  revert e rest. induction q as [|x q IH]; intros e rest; cbn; [done|].
  destruct (pop q) as [[e' rest']|] eqn:Hpop.
  - destruct (due e' <? due x); intros [= <- <-]; [|done].
    rewrite (IH e' rest' eq_refl). apply Permutation_swap.
  - intros [= <- <-]. by apply pop_None in Hpop as ->.
Qed.

Lemma pop_earliest q e rest :
  pop q = Some (e, rest) → Forall (λ x, due e ≤ due x) q.
Proof.
  revert e rest. induction q as [|x q IH]; intros e rest; cbn; [done|].
  destruct (pop q) as [[e' rest']|] eqn:Hpop.
  - specialize (IH e' rest' eq_refl).
    destruct (Z.ltb_spec (due e') (due x)); intros [= <- <-].
    + constructor; [lia|done].
    + constructor; [lia|]. eapply Forall_impl; [done|]. cbn. lia.
  - intros [= <- <-]. apply pop_None in Hpop as ->. by repeat constructor.
Qed.

Lemma intervals_app q1 q2 : intervals (q1 ++ q2) = intervals q1 ++ intervals q2.
Proof. apply filter_app. Qed.

Lemma intervals_timer h d (cb : H) : intervals [Task h d None cb] = [].
Proof. done. Qed.

Lemma intervals_interval h d p (cb : H) :
  intervals [Task h d (Some p) cb] = [Task h d (Some p) cb].
Proof. done. Qed.

Lemma intervals_pop q e rest :
  pop q = Some (e, rest) →
  intervals q ≡ₚ (if is_interval e then [e] else []) ++ intervals rest.
Proof.
  intros Hpop%pop_perm. unfold intervals at 1. rewrite Hpop.
  unfold is_interval. destruct (period e) eqn:Hp.
  - rewrite filter_cons_True; [done|]. unfold is_interval. by rewrite Hp.
  - rewrite filter_cons_False; [done|]. unfold is_interval. by rewrite Hp.
Qed.

Lemma intervals_clear h q :
  intervals (filter (λ e, handle e ≠ h) q)
  = filter (λ e, handle e ≠ h) (intervals q).
Proof.
  unfold intervals. induction q as [|x q IH]; [done|].
  rewrite !filter_cons. repeat case_decide; rewrite ?filter_cons;
    repeat case_decide; try done; by rewrite IH.
Qed.

Lemma elem_of_intervals e q :
  e ∈ intervals q ↔ e ∈ q ∧ is_Some (period e).
Proof.
  unfold intervals. rewrite list_elem_of_filter. unfold is_interval.
  destruct (period e); split; intros [? ?]; split; try done; by eauto.
Qed.

End QueueFacts.

(** ** Extending a trace *)

Section PageFacts.
Import Browser.
Context {S H : Type}.
Variable maxRetries : nat.
Variable retryDelay : Z.
Variable attempt : jsval → event.
Variable retry_call : H → option (option jsval).

Implicit Types (w : world S H) (new : list (Z * event)).

(** The policy carries over to a longer trace, if it holds for the new
entries and every pending retry is still pending or is attempted in the
new entries. *)
Lemma retry_discipline_extend w w' new :
  retry_discipline maxRetries retryDelay attempt retry_call w →
  trace w' = new ++ trace w →
  (∀ e rc, e ∈ queue w → period e = None →
     retry_call (callback e) = Some (Some rc) →
     e ∈ queue w' ∨ (due e, attempt rc) ∈ new) →
  retry_discipline_on maxRetries retryDelay attempt retry_call new w' →
  retry_discipline maxRetries retryDelay attempt retry_call w'.
Proof.
  intros [O1 O2 O3 O4 O5 O6] Htr Hq [N1 N2 N3 N4 N5 N6].
  unfold retry_discipline. rewrite Htr.
  assert (∀ x, x ∈ trace w → x ∈ trace w') as Hold.
  { intros x Hx. rewrite Htr. apply elem_of_app. by right. }
  assert (∀ x, x ∈ new → x ∈ trace w') as Hnew.
  { intros x Hx. rewrite Htr. apply elem_of_app. by left. }
  split.
  - intros t n [Hin|Hin]%elem_of_app; [by apply N1|].
    destruct (O1 t n Hin) as [? ?]. auto.
  - intros t rc [Hin|Hin]%elem_of_app; [by apply N2|].
    destruct (O2 t rc Hin) as (? & ? & Hsched). split_and!; [done|auto|].
    destruct Hsched as [(e & He & Hp & Hdue & Hcall)|Hdone]; [|auto].
    destruct (Hq e _ He Hp Hcall) as [He'|Hnow].
    + left. by exists e.
    + right. rewrite <- Hdue. auto.
  - intros t rc [Hin|Hin]%elem_of_app; [by apply N3|].
    specialize (O3 t rc Hin). destruct (js_lt rc maxRetries); [auto|].
    destruct O3 as [? [msg ?]]. split; [auto|]. exists msg. auto.
  - intros t [Hin|Hin]%elem_of_app; [by apply N4|].
    destruct (O4 t Hin) as (rc & ? & ?). exists rc. auto.
  - intros t msg ty [Hin|Hin]%elem_of_app; [by apply (N5 t msg ty)|].
    destruct (O5 t msg ty Hin) as [? ?]. auto.
  - intros t [Hin|Hin]%elem_of_app; [by apply (N6 t)|by apply (O6 t)].
Qed.

(** Handles stay distinct when tasks are taken off the queue and fresh
ones are put on. *)
Lemma handles_extend (q kept added : list (task H)) (nh : nat) :
  NoDup (handle <$> q) →
  Forall (λ e, (handle e < nh)%nat) q →
  handle <$> kept ⊆+ handle <$> q →
  handle <$> added = seq nh (length added) →
  NoDup (handle <$> (kept ++ added))
  ∧ Forall (λ e, (handle e < nh + length added)%nat) (kept ++ added).
Proof.
  intros Hnd Hlt Hkept Hadded.
  assert (Forall (λ h, (h < nh)%nat) (handle <$> kept)) as Hkept_lt.
  { apply Forall_forall. intros h Hh.
    assert (h ∈ handle <$> q) as (e & -> & He)%list_elem_of_fmap
      by by eapply elem_of_submseteq.
    by eapply Forall_forall in Hlt. }
  split.
  - rewrite fmap_app. apply NoDup_app. split_and!.
    + destruct (submseteq_Permutation _ _ Hkept) as [k Hk].
      rewrite Hk in Hnd. by apply NoDup_app in Hnd as [? _].
    + intros h Hh. rewrite Hadded, elem_of_seq.
      eapply Forall_forall in Hkept_lt; [|done]. lia.
    + rewrite Hadded. apply NoDup_seq.
  - apply Forall_app. split.
    + apply Forall_forall. intros e He.
      assert (handle e < nh)%nat; [|lia].
      eapply Forall_forall in Hkept_lt; [done|].
      apply list_elem_of_fmap. by exists e.
    + apply Forall_forall. intros e He.
      assert (handle e ∈ seq nh (length added)) as Hs.
      { rewrite <- Hadded. apply list_elem_of_fmap. by exists e. }
      apply elem_of_seq in Hs. lia.
Qed.

(** The queue stays in order, if in addition every timer that will call
the fetch function with an argument was pending before or stands for a
retry announced in the trace. *)
Lemma queue_ok_extend w w' new (kept added : list (task H)) :
  queue_ok maxRetries retryDelay retry_call w →
  trace w' = new ++ trace w →
  queue w' = kept ++ added →
  handle <$> kept ⊆+ handle <$> queue w →
  handle <$> added = seq (next_handle w) (length added) →
  next_handle w' = (next_handle w + length added)%nat →
  (∀ e arg, e ∈ queue w' → period e = None →
     retry_call (callback e) = Some arg →
     e ∈ queue w
     ∨ ∃ n, arg = Some (JsNumber (Datatypes.S n)) ∧ (n < maxRetries)%nat
            ∧ (due e - retryDelay, LogRetrying (JsNumber n)) ∈ new) →
  queue_ok maxRetries retryDelay retry_call w'.
Proof.
  intros [Hnd Hlt Hpend] Htr Hq Hkept Hadded Hnh Hnew.
  destruct (handles_extend (queue w) kept added (next_handle w))
    as [Hnd' Hlt']; [done..|].
  split.
  - by rewrite Hq.
  - by rewrite Hq, Hnh.
  - intros e arg He Hp Hcall.
    destruct (Hnew e arg He Hp Hcall) as [Hold|(n & -> & ? & Hin)].
    + destruct (Hpend e arg Hold Hp Hcall) as (n & -> & ? & Hin).
      exists n. split_and!; [done..|]. rewrite Htr. apply elem_of_app. by right.
    + exists n. split_and!; [done..|]. rewrite Htr. apply elem_of_app. by left.
Qed.

Lemma exec_emit_then ev (m : js (world S H) ()) w :
  exec (emit ev;; m) w
  = exec m (World (now w) (queue w) (next_handle w) (requests w)
              (component w) (cleanup w) (notifications w)
              ((now w, ev) :: trace w)).
Proof. by destruct w. Qed.

Lemma exec_skip_then (m : js (world S H) ()) w :
  exec (mret ();; m) w = exec m w.
Proof. done. Qed.

Lemma at_time_spec t w w1 : at_time t w = Some w1 → w1 = set_now t w.
Proof. unfold at_time. by case_match; intros [= <-]. Qed.

End PageFacts.

(** ** More on the queue *)

Section MoreQueueFacts.
Import Browser.
Context {H : Type}.
Implicit Types (e : task H) (q rest : list (task H)).

Lemma Permutation_short {A} (l k : list A) :
  l ≡ₚ k → (length k ≤ 1)%nat → l = k.
Proof.
  intros Hperm Hlen. destruct k as [|x [|y k]]; [| |cbn in Hlen; lia].
  - by apply Permutation_nil_r.
  - by apply Permutation_singleton_r.
Qed.

Lemma intervals_pop_timer q e rest l :
  pop q = Some (e, rest) → period e = None → intervals q = l →
  (length l ≤ 1)%nat → intervals rest = l.
Proof.
  intros Hpop Hp <- Hlen. apply intervals_pop in Hpop.
  unfold is_interval in Hpop. rewrite Hp in Hpop.
  apply Permutation_short; [by symmetry|done].
Qed.

Lemma intervals_pop_interval q e rest e0 :
  pop q = Some (e, rest) → is_Some (period e) → intervals q = [e0] →
  intervals rest = [].
Proof.
  intros Hpop [p Hp] Hi. apply intervals_pop in Hpop.
  unfold is_interval in Hpop. rewrite Hp, Hi in Hpop.
  apply Permutation_length in Hpop. cbn in Hpop.
  destruct (intervals rest); [done|cbn in Hpop; lia].
Qed.

Lemma kept_pop q e rest :
  pop q = Some (e, rest) → handle <$> rest ⊆+ handle <$> q.
Proof.
  intros Hpop%pop_perm. rewrite Hpop. cbn. apply submseteq_cons. done.
Qed.

Lemma kept_rearm q e rest d p (cb : H) :
  pop q = Some (e, rest) →
  handle <$> (rest ++ [Task (handle e) d p cb]) ⊆+ handle <$> q.
Proof.
  intros Hpop%pop_perm. rewrite Hpop, fmap_app. cbn.
  apply Permutation_submseteq. by rewrite Permutation_app_comm.
Qed.

Lemma kept_clear q h :
  handle <$> filter (λ e, handle e ≠ h) q ⊆+ handle <$> q.
Proof. apply fmap_submseteq, sublist_submseteq, sublist_filter. Qed.

Lemma elem_of_pop q e rest x :
  pop q = Some (e, rest) → x ∈ q ↔ x = e ∨ x ∈ rest.
Proof. intros Hpop%pop_perm. rewrite Hpop. apply elem_of_cons. Qed.

End MoreQueueFacts.

Ltac fields :=
  cbn [Browser.now Browser.queue Browser.next_handle Browser.requests
       Browser.component Browser.cleanup Browser.notifications
       Browser.trace Browser.handle Browser.due Browser.period
       Browser.callback Browser.set_now Browser.set_queue].

Ltac in_list H :=
  repeat (apply elem_of_cons in H; destruct H as [H|H]; [simplify_eq|]);
  try (apply elem_of_nil in H; destruct H).

(** ** Events of the life cycle *)

Section TraceFacts.
Import Browser.

Lemma armed_at_quiet new tr :
  Forall (λ x : Z * event, lifecycle x.2 = false) new → armed_at (new ++ tr) = armed_at tr.
Proof.
  induction 1 as [|[t ev] new Hq _ IH]; [done|].
  cbn in *. by destruct ev.
Qed.

Lemma periodic_quiet p new tr :
  Forall (λ x : Z * event, lifecycle x.2 = false) new →
  periodic p (new ++ tr) ↔ periodic p tr.
Proof.
  induction 1 as [|[t ev] new Hq _ IH]; [done|].
  cbn in *. by destruct ev.
Qed.

Lemma not_fired_quiet t new :
  Forall (λ x : Z * event, lifecycle x.2 = false) new → (t, IntervalFired) ∉ new.
Proof.
  intros Hq Hin. eapply Forall_forall in Hq; [|done]. done.
Qed.

End TraceFacts.

(** ** Dashboard: what every reachable page satisfies *)

Section DashboardFacts.
Import Browser Dashboard.
Variable net : nat → N * settlement prices.

Implicit Types (w : world) (e : task handler).

Ltac js_unfold :=
  cbv [exec async run_handler fetchPrices fetchPrices_resume axios_get
       effect effect_cleanup onNotification setCryptoPrices setLastUpdate
       setLoading setState setTimeout setInterval clearInterval enqueue emit
       await mbind js_mbind mret js_mret js_bind js_ret js_try js_throw
       js_modify js_get set_now set_queue set_next_handle set_requests
       set_component set_cleanup set_notifications set_trace now queue
       next_handle requests component cleanup notifications trace snd fst].

Lemma exec_fetchPrices arg w :
  exec (async (fetchPrices net arg)) w
  = World (now w)
      (queue w ++
       [Task (next_handle w) (now w + Z.of_N (net (requests w)).1) None
          (ResumeFetchPrices (default (JsNumber 0) arg)
             (net (requests w)).2)])
      (S (next_handle w)) (S (requests w)) (component w) (cleanup w)
      (notifications w)
      ((now w, HttpGet (default (JsNumber 0) arg)) :: trace w).
Proof.
  destruct w as [t q h n c cl ns tr]. js_unfold.
  by destruct (net n) as [lat r].
Qed.

Lemma exec_resume_fulfilled rc d w :
  ∃ c, (c = None ↔ component w = None) ∧
  exec (async (fetchPrices_resume rc (Fulfilled d))) w
  = World (now w) (queue w) (next_handle w) (requests w) c (cleanup w)
      (notifications w) ((now w, LogFetched) :: trace w).
Proof.
  destruct w as [t q h n c cl ns tr]. js_unfold. eexists. split; [|done].
  by destruct c.
Qed.

Lemma exec_resume_retry rc w :
  js_lt rc maxRetries = true →
  exec (async (fetchPrices_resume rc Rejected)) w
  = World (now w)
      (queue w ++
       [Task (next_handle w) (now w + retryDelay) None
          (CallFetchPrices (Some (js_succ rc)))])
      (S (next_handle w)) (requests w) (component w) (cleanup w)
      (notifications w)
      ((now w, LogRetrying rc) :: (now w, LogFetchError rc) :: trace w).
Proof.
  destruct w as [t q h n c cl ns tr]. intros Hlt. js_unfold. by rewrite Hlt.
Qed.

Local Abbreviation warning :=
  "Network unstable - Unable to fetch cryptocurrency prices".

Lemma exec_resume_exhausted rc w :
  js_lt rc maxRetries = false →
  ∃ c, (c = None ↔ component w = None) ∧
  exec (async (fetchPrices_resume rc Rejected)) w
  = World (now w) (queue w) (next_handle w) (requests w) c (cleanup w)
      (App.addNotification (now w) (now w) warning (Some "warning")
         (notifications w))
      ((now w, OnNotification warning (Some "warning"))
       :: (now w, LogMaxRetries) :: (now w, LogFetchError rc) :: trace w).
Proof.
  destruct w as [t q h n c cl ns tr]. intros Hlt. js_unfold. rewrite Hlt.
  eexists. split; [|done]. by destruct c.
Qed.

Lemma exec_effect w :
  exec (effect net) w
  = World (now w)
      ((queue w ++
        [Task (next_handle w) (now w + Z.of_N (net (requests w)).1) None
           (ResumeFetchPrices (JsNumber 0) (net (requests w)).2)]) ++
       [Task (S (next_handle w)) (now w + 30000) (Some 30000)
          (CallFetchPrices None)])
      (S (S (next_handle w))) (S (requests w)) (component w)
      (Some (S (next_handle w))) (notifications w)
      ((now w, HttpGet (JsNumber 0)) :: (now w, EffectRan) :: trace w).
Proof.
  destruct w as [t q h n c cl ns tr]. js_unfold.
  by destruct (net n) as [lat r].
Qed.

Lemma exec_cleanup h w :
  cleanup w = Some h →
  exec effect_cleanup w
  = World (now w) (filter (λ e, handle e ≠ h) (queue w)) (next_handle w)
      (requests w) (component w) None (notifications w)
      ((now w, CleanupRan) :: trace w).
Proof.
  destruct w as [t q nh n c cl ns tr]. cbn. intros ->. by js_unfold.
Qed.

Local Abbreviation invariant w :=
  (queue_ok maxRetries retryDelay retry_call w
   ∧ retry_discipline maxRetries retryDelay HttpGet retry_call w
   ∧ refresh_ok w).

(** A task of the queue that is an interval timer is the refresh timer. *)
Lemma interval_is_refresh w e :
  refresh_ok w → e ∈ queue w → is_Some (period e) →
  period e = Some 30000 ∧ callback e = CallFetchPrices None
  ∧ intervals (queue w) = [e] ∧ cleanup w = Some (handle e)
  ∧ armed_at (trace w) = Some (due e - 30000)
  ∧ is_Some (component w).
Proof.
  intros [_ _ Hint] He Hp.
  assert (e ∈ intervals (queue w)) as Hin by by apply elem_of_intervals.
  destruct (component w).
  - destruct Hint as (e0 & Hq & ? & ? & ? & ?). rewrite Hq in Hin.
    apply list_elem_of_singleton in Hin as ->. by split_and!.
  - destruct Hint as (Hq & _). rewrite Hq in Hin. by apply elem_of_nil in Hin.
Qed.

(** Nothing but the refresh timer is an interval timer: a task without
period is what is popped in every other case. *)
Lemma resume_is_timer w e rc r :
  refresh_ok w → e ∈ queue w → callback e = ResumeFetchPrices rc r →
  period e = None.
Proof.
  intros Hr He Hcb. destruct (period e) eqn:Hp; [|done].
  destruct (interval_is_refresh w e Hr He) as (_ & ? & _);
    [by rewrite Hp|congruence].
Qed.

(** A step that records no event of the life cycle and leaves the
interval timers, the clean-up and the mounting as they are. *)
Lemma refresh_ok_quiet w w' new :
  refresh_ok w → trace w' = new ++ trace w →
  Forall (λ x : Z * event, lifecycle x.2 = false) new →
  intervals (queue w') = intervals (queue w) →
  cleanup w' = cleanup w →
  (component w' = None ↔ component w = None) →
  refresh_ok w'.
Proof.
  intros [Hper Hfetch Hint] Htr Hquiet Hi Hcl Hc. split.
  - rewrite Htr. by apply periodic_quiet.
  - intros t. rewrite Htr, !elem_of_app. intros [Hin|Hin]; [|by auto].
    by apply not_fired_quiet in Hin.
  - rewrite Htr, armed_at_quiet, Hi, Hcl by done.
    destruct (component w') as [s'|], (component w) as [s|]; try done.
    + by destruct Hc as [_ Hc]; specialize (Hc eq_refl).
    + by destruct Hc as [Hc _]; specialize (Hc eq_refl).
Qed.

Lemma intervals_timer_popped w e rest added :
  refresh_ok w → pop (queue w) = Some (e, rest) → period e = None →
  intervals added = [] →
  intervals (rest ++ added) = intervals (queue w).
Proof.
  intros [_ _ Hint] Hpop Hp Hadd. rewrite intervals_app, Hadd, app_nil_r.
  apply (intervals_pop_timer _ _ _ _ Hpop Hp eq_refl).
  destruct (component w).
  - by destruct Hint as (e0 & -> & _).
  - destruct Hint as (-> & _). cbn. lia.
Qed.

Lemma turn_resume_retry w e rest rc w' :
  invariant w → pop (queue w) = Some (e, rest) →
  callback e = ResumeFetchPrices rc Rejected →
  js_lt rc maxRetries = true →
  turn (run_handler net) w = Some w' → invariant w'.
Proof.
  intros (Hq & Hd & Hr) Hpop Hcb Hlt. unfold turn. rewrite Hpop.
  cbn [mbind option_bind].
  assert (period e = None) as Hp.
  { eapply resume_is_timer; [done| |done].
    apply (elem_of_pop _ _ _ _ Hpop). by left. }
  unfold is_interval, rearm. rewrite Hp, Hcb, exec_skip_then.
  cbn [run_handler]. rewrite exec_resume_retry by done. fields.
  intros [= <-]. split_and!.
  - eapply (queue_ok_extend _ _ _ w _ [_; _] rest [_]);
      [done|reflexivity|reflexivity|by eapply kept_pop|reflexivity
      |cbn; lia|].
    fields. intros e' arg [He'|He']%elem_of_app Hp' Hcall.
    + left. apply (elem_of_pop _ _ _ _ Hpop). by right.
    + right. apply list_elem_of_singleton in He' as ->. cbn in *.
      destruct rc as [n|]; [|done]. exists n. injection Hcall as <-.
      split_and!; [done|by apply bool_decide_eq_true in Hlt|].
      replace (due e + retryDelay - retryDelay) with (due e) by lia. left.
  - eapply (retry_discipline_extend _ _ _ _ w _ [_; _]);
      [done|reflexivity| |].
    + fields. intros e' rc' He' Hp' Hcall. left.
      apply (elem_of_pop _ _ _ _ Hpop) in He' as [->|He'].
      * by rewrite Hcb in Hcall.
      * apply elem_of_app. by left.
    + split; fields.
      * intros t n Hin. in_list Hin.
      * intros t rc' Hin. in_list Hin. split_and!; [done|by right; left|].
        left. eexists. split; [apply elem_of_app; right; left|]. done.
      * intros t rc' Hin. in_list Hin. rewrite Hlt. left.
      * intros t Hin. in_list Hin.
      * intros t msg ty Hin. in_list Hin.
      * intros t Hin. in_list Hin.
  - eapply (refresh_ok_quiet w _ [_; _]);
      [done|reflexivity|by repeat constructor| |done|done].
    by apply (intervals_timer_popped w e).
Qed.

Lemma turn_resume_exhausted w e rest rc w' :
  invariant w → pop (queue w) = Some (e, rest) →
  callback e = ResumeFetchPrices rc Rejected →
  js_lt rc maxRetries = false →
  turn (run_handler net) w = Some w' → invariant w'.
Proof.
  intros (Hq & Hd & Hr) Hpop Hcb Hlt. unfold turn. rewrite Hpop.
  cbn [mbind option_bind].
  assert (period e = None) as Hp.
  { eapply resume_is_timer; [done| |done].
    apply (elem_of_pop _ _ _ _ Hpop). by left. }
  unfold is_interval, rearm. rewrite Hp, Hcb, exec_skip_then.
  cbn [run_handler].
  destruct (exec_resume_exhausted rc (set_queue rest (set_now (due e) w))
              Hlt) as (c & Hc & ->). fields.
  intros [= <-]. split_and!.
  - eapply (queue_ok_extend _ _ _ w _ [_; _; _] rest []);
      [done|reflexivity|by rewrite app_nil_r|by eapply kept_pop|reflexivity
      |cbn; lia|].
    fields. intros e' arg He' Hp' Hcall.
    left. apply (elem_of_pop _ _ _ _ Hpop). by right.
  - eapply (retry_discipline_extend _ _ _ _ w _ [_; _; _]);
      [done|reflexivity| |].
    + fields. intros e' rc' He' Hp' Hcall. left.
      apply (elem_of_pop _ _ _ _ Hpop) in He' as [->|He']; [|done].
      by rewrite Hcb in Hcall.
    + split; fields.
      * intros t n Hin. in_list Hin.
      * intros t rc' Hin. in_list Hin.
      * intros t rc' Hin. in_list Hin. rewrite Hlt.
        split; [by right; left|]. eexists. left.
      * intros t Hin. in_list Hin. exists rc. split; [done|]. by do 2 right; left.
      * intros t msg ty Hin. in_list Hin. split; [done|]. by right; left.
      * intros t Hin. in_list Hin.
  - eapply (refresh_ok_quiet w _ [_; _; _]);
      [done|reflexivity|by repeat constructor| |done|done].
    rewrite <- (app_nil_r rest). by apply (intervals_timer_popped w e).
Qed.

Lemma turn_resume_fulfilled w e rest rc d w' :
  invariant w → pop (queue w) = Some (e, rest) →
  callback e = ResumeFetchPrices rc (Fulfilled d) →
  turn (run_handler net) w = Some w' → invariant w'.
Proof.
  intros (Hq & Hd & Hr) Hpop Hcb. unfold turn. rewrite Hpop.
  cbn [mbind option_bind].
  assert (period e = None) as Hp.
  { eapply resume_is_timer; [done| |done].
    apply (elem_of_pop _ _ _ _ Hpop). by left. }
  unfold is_interval, rearm. rewrite Hp, Hcb, exec_skip_then.
  cbn [run_handler].
  destruct (exec_resume_fulfilled rc d (set_queue rest (set_now (due e) w)))
    as (c & Hc & ->). fields.
  intros [= <-]. split_and!.
  - eapply (queue_ok_extend _ _ _ w _ [_] rest []);
      [done|reflexivity|by rewrite app_nil_r|by eapply kept_pop|reflexivity
      |cbn; lia|].
    fields. intros e' arg He' Hp' Hcall.
    left. apply (elem_of_pop _ _ _ _ Hpop). by right.
  - eapply (retry_discipline_extend _ _ _ _ w _ [_]);
      [done|reflexivity| |].
    + fields. intros e' rc' He' Hp' Hcall. left.
      apply (elem_of_pop _ _ _ _ Hpop) in He' as [->|He']; [|done].
      by rewrite Hcb in Hcall.
    + split; fields.
      * intros t n Hin. in_list Hin.
      * intros t rc' Hin. in_list Hin.
      * intros t rc' Hin. in_list Hin.
      * intros t Hin. in_list Hin.
      * intros t msg ty Hin. in_list Hin.
      * intros t Hin. in_list Hin.
  - eapply (refresh_ok_quiet w _ [_]);
      [done|reflexivity|by repeat constructor| |done|done].
    rewrite <- (app_nil_r rest). by apply (intervals_timer_popped w e).
Qed.

Lemma turn_retry_timer w e rest arg w' :
  invariant w → pop (queue w) = Some (e, rest) →
  callback e = CallFetchPrices arg → period e = None →
  turn (run_handler net) w = Some w' → invariant w'.
Proof.
  intros (Hq & Hd & Hr) Hpop Hcb Hp. unfold turn. rewrite Hpop.
  cbn [mbind option_bind].
  assert (e ∈ queue w) as He by (apply (elem_of_pop _ _ _ _ Hpop); by left).
  destruct (pending_retries _ _ _ _ Hq e arg He Hp) as (n & -> & Hn & Hlog).
  { by rewrite Hcb. }
  unfold is_interval, rearm. rewrite Hp, Hcb, exec_skip_then.
  cbn [run_handler]. rewrite exec_fetchPrices. fields. cbn [default].
  intros [= <-]. split_and!.
  - eapply (queue_ok_extend _ _ _ w _ [_] rest [_]);
      [done|reflexivity|reflexivity|by eapply kept_pop|reflexivity
      |cbn; lia|].
    fields. intros e' arg [He'|He']%elem_of_app Hp' Hcall.
    + left. apply (elem_of_pop _ _ _ _ Hpop). by right.
    + by apply list_elem_of_singleton in He' as ->.
  - eapply (retry_discipline_extend _ _ _ _ w _ [_]);
      [done|reflexivity| |].
    + fields. intros e' rc' He' Hp' Hcall.
      apply (elem_of_pop _ _ _ _ Hpop) in He' as [->|He'].
      * right. rewrite Hcb in Hcall. injection Hcall as <-. left.
      * left. apply elem_of_app. by left.
    + split; fields.
      * intros t m Hin. in_list Hin. split; [done|]. by right.
      * intros t rc' Hin. in_list Hin.
      * intros t rc' Hin. in_list Hin.
      * intros t Hin. in_list Hin.
      * intros t msg ty Hin. in_list Hin.
      * intros t Hin. in_list Hin.
  - eapply (refresh_ok_quiet w _ [_]);
      [done|reflexivity|by repeat constructor| |done|done].
    by apply (intervals_timer_popped w e).
Qed.

Lemma turn_refresh_timer w e rest w' :
  invariant w → pop (queue w) = Some (e, rest) → is_Some (period e) →
  turn (run_handler net) w = Some w' → invariant w'.
Proof.
  intros (Hq & Hd & Hr) Hpop Hsome. unfold turn. rewrite Hpop.
  cbn [mbind option_bind].
  assert (e ∈ queue w) as He by (apply (elem_of_pop _ _ _ _ Hpop); by left).
  destruct (interval_is_refresh w e Hr He Hsome)
    as (Hp & Hcb & Hi & Hcl & Harmed & Hc).
  unfold is_interval, rearm. rewrite Hp, Hcb, exec_emit_then.
  cbn [run_handler]. rewrite exec_fetchPrices. fields. cbn [default].
  intros [= <-]. split_and!.
  - eapply (queue_ok_extend _ _ _ w _ [_; _] (rest ++ [_]) [_]);
      [done|reflexivity|reflexivity|by eapply kept_rearm|reflexivity
      |cbn; lia|].
    fields. intros e' arg [[He'|He']%elem_of_app|He']%elem_of_app Hp' Hcall.
    + left. apply (elem_of_pop _ _ _ _ Hpop). by right.
    + by apply list_elem_of_singleton in He' as ->.
    + by apply list_elem_of_singleton in He' as ->.
  - eapply (retry_discipline_extend _ _ _ _ w _ [_; _]);
      [done|reflexivity| |].
    + fields. intros e' rc' He' Hp' Hcall. left.
      apply (elem_of_pop _ _ _ _ Hpop) in He' as [->|He']; [congruence|].
      rewrite !elem_of_app. by do 2 left.
    + split; fields.
      * intros t n Hin. in_list Hin.
      * intros t rc' Hin. in_list Hin.
      * intros t rc' Hin. in_list Hin.
      * intros t Hin. in_list Hin.
      * intros t msg ty Hin. in_list Hin.
      * intros t Hin. in_list Hin.
  - destruct Hr as [Hper Hfetch _]. split; fields.
    + cbn. by split.
    + intros t Hin. in_list Hin; [by left|]. do 2 right. by apply Hfetch.
    + destruct Hc as [s ->].
      exists (Task (handle e) (due e + 30000) (Some 30000)
                (CallFetchPrices None)).
      split_and!; [|reflexivity|reflexivity|done|].
      * rewrite !intervals_app, intervals_timer, intervals_interval.
        by rewrite (intervals_pop_interval _ _ _ _ Hpop Hsome Hi).
      * cbn. f_equal. lia.
Qed.

Lemma turn_invariant w w' :
  invariant w → turn (run_handler net) w = Some w' → invariant w'.
Proof.
  intros Hinv Hturn.
  destruct (pop (queue w)) as [[e rest]|] eqn:Hpop;
    [|by unfold turn in Hturn; rewrite Hpop in Hturn].
  destruct (period e) as [p|] eqn:Hp.
  { eapply turn_refresh_timer; [done..|by rewrite Hp|done]. }
  destruct (callback e) as [arg|rc [d|]] eqn:Hcb.
  - by eapply turn_retry_timer.
  - by eapply turn_resume_fulfilled.
  - destruct (js_lt rc maxRetries) eqn:Hlt.
    + by eapply turn_resume_retry.
    + by eapply turn_resume_exhausted.
Qed.

Lemma click_invariant w t0 w1 :
  invariant w → at_time t0 w = Some w1 →
  invariant (exec (async (fetchPrices net (Some JsOther))) w1).
Proof.
  intros (Hq & Hd & Hr) ->%at_time_spec. rewrite exec_fetchPrices. fields.
  cbn [default]. split_and!.
  - eapply (queue_ok_extend _ _ _ w _ [_] (queue w) [_]);
      [done|reflexivity|reflexivity|done|reflexivity|cbn; lia|].
    fields. intros e' arg [He'|He']%elem_of_app Hp' Hcall; [by left|].
    by apply list_elem_of_singleton in He' as ->.
  - eapply (retry_discipline_extend _ _ _ _ w _ [_]);
      [done|reflexivity| |].
    + fields. intros e' rc' He' Hp' Hcall. left. apply elem_of_app. by left.
    + split; fields.
      * intros t n Hin. in_list Hin.
      * intros t rc' Hin. in_list Hin.
      * intros t rc' Hin. in_list Hin.
      * intros t Hin. in_list Hin.
      * intros t msg ty Hin. in_list Hin.
      * intros t Hin. in_list Hin.
  - eapply (refresh_ok_quiet w _ [_]);
      [done|reflexivity|by repeat constructor| |done|done].
    fields. by rewrite intervals_app, intervals_timer, app_nil_r.
Qed.

Lemma exec_cleanup_then h (m : js world ()) w :
  cleanup w = Some h →
  exec (effect_cleanup;; m) w = exec m (exec effect_cleanup w).
Proof. destruct w as [t q nh n c cl ns tr]. cbn. by intros ->. Qed.

(** The clean-up takes the refresh timer off the queue and nothing else. *)
Lemma cleanup_keeps_timers w e0 e :
  queue_ok maxRetries retryDelay retry_call w →
  intervals (queue w) = [e0] → e ∈ queue w → period e = None →
  e ∈ filter (λ x, handle x ≠ handle e0) (queue w).
Proof.
  intros [Hnd _ _] Hi He Hp. apply list_elem_of_filter. split; [|done].
  intros Heq.
  assert (e0 ∈ queue w ∧ is_Some (period e0)) as [He0 [p Hp0]].
  { apply elem_of_intervals. rewrite Hi. left. }
  assert (e = e0); [|congruence].
  apply list_elem_of_lookup in He as [i Hi1].
  apply list_elem_of_lookup in He0 as [j Hj].
  assert (i = j) as ->; [|congruence].
  eapply NoDup_lookup; [done| |].
  - by rewrite list_lookup_fmap, Hi1.
  - by rewrite list_lookup_fmap, Hj, Heq.
Qed.

Lemma intervals_cleared w e0 :
  intervals (queue w) = [e0] →
  intervals (filter (λ x, handle x ≠ handle e0) (queue w)) = [].
Proof.
  intros Hi. rewrite intervals_clear, Hi.
  by rewrite filter_cons_False by (by intros ?).
Qed.

Lemma chat_id_invariant w t0 w1 :
  invariant w → is_Some (component w) → at_time t0 w = Some w1 →
  invariant (exec (effect_cleanup;; effect net) w1).
Proof.
  intros (Hq & Hd & Hr) [s Hc] ->%at_time_spec.
  pose proof (interval_pending _ Hr) as Hint. rewrite Hc in Hint.
  destruct Hint as (e0 & Hi & Hp0 & Hcb0 & Hcl & Harmed).
  rewrite (exec_cleanup_then (handle e0)) by done.
  rewrite (exec_cleanup (handle e0)) by done.
  rewrite exec_effect. fields. rewrite <- app_assoc. cbn [app].
  split_and!.
  - eapply (queue_ok_extend _ _ _ w _ [_; _; _]
              (filter (λ x, handle x ≠ handle e0) (queue w)) [_; _]);
      [done|reflexivity|reflexivity|apply kept_clear|reflexivity
      |cbn; lia|].
    fields. intros e' arg [He'|He']%elem_of_app Hp' Hcall.
    + left. by apply list_elem_of_filter in He' as [_ ?].
    + in_list He'.
  - eapply (retry_discipline_extend _ _ _ _ w _ [_; _; _]);
      [done|reflexivity| |].
    + fields. intros e' rc' He' Hp' Hcall. left. apply elem_of_app. left.
      by apply cleanup_keeps_timers.
    + split; fields.
      * intros t n Hin. in_list Hin.
      * intros t rc' Hin. in_list Hin.
      * intros t rc' Hin. in_list Hin.
      * intros t Hin. in_list Hin.
      * intros t msg ty Hin. in_list Hin.
      * intros t Hin. in_list Hin.
  - destruct Hr as [Hper Hfetch _]. split; fields.
    + done.
    + intros t Hin. in_list Hin. do 3 right. by apply Hfetch.
    + rewrite Hc.
      exists (Task (S (next_handle w)) (t0 + 30000) (Some 30000)
                (CallFetchPrices None)).
      split_and!; [|reflexivity|reflexivity|reflexivity|].
      * rewrite intervals_app, (intervals_cleared w e0 Hi). done.
      * cbn. f_equal. lia.
Qed.

Lemma unmount_invariant w t0 w1 :
  invariant w → is_Some (component w) → at_time t0 w = Some w1 →
  invariant (set_component None (exec effect_cleanup w1)).
Proof.
  intros (Hq & Hd & Hr) [s Hc] ->%at_time_spec.
  pose proof (interval_pending _ Hr) as Hint. rewrite Hc in Hint.
  destruct Hint as (e0 & Hi & Hp0 & Hcb0 & Hcl & Harmed).
  rewrite (exec_cleanup (handle e0)) by done. unfold set_component. fields.
  split_and!.
  - eapply (queue_ok_extend _ _ _ w _ [_]
              (filter (λ x, handle x ≠ handle e0) (queue w)) []);
      [done|reflexivity|by rewrite app_nil_r|apply kept_clear|reflexivity
      |cbn; lia|].
    fields. intros e' arg He' Hp' Hcall.
    left. by apply list_elem_of_filter in He' as [_ ?].
  - eapply (retry_discipline_extend _ _ _ _ w _ [_]);
      [done|reflexivity| |].
    + fields. intros e' rc' He' Hp' Hcall. left.
      by apply cleanup_keeps_timers.
    + split; fields.
      * intros t n Hin. in_list Hin.
      * intros t rc' Hin. in_list Hin.
      * intros t rc' Hin. in_list Hin.
      * intros t Hin. in_list Hin.
      * intros t msg ty Hin. in_list Hin.
      * intros t Hin. in_list Hin.
  - destruct Hr as [Hper Hfetch _]. split; fields.
    + done.
    + intros t Hin. in_list Hin. right. by apply Hfetch.
    + by rewrite (intervals_cleared w e0 Hi).
Qed.

Lemma mount_invariant t0 ns : invariant (mount net t0 ns).
Proof.
  unfold mount. rewrite exec_effect. fields. cbn [app]. split_and!.
  - split; fields.
    + exact (NoDup_seq 0 2).
    + repeat constructor.
    + intros e arg He Hp Hcall. in_list He.
  - split; fields.
    + intros t n Hin. in_list Hin.
    + intros t rc' Hin. in_list Hin.
    + intros t rc' Hin. in_list Hin.
    + intros t Hin. in_list Hin.
    + intros t msg ty Hin. in_list Hin.
    + intros t Hin. in_list Hin.
  - split; fields.
    + done.
    + intros t Hin. in_list Hin.
    + eexists. split_and!; [reflexivity..|]. cbn. f_equal. lia.
Qed.

Lemma step_invariant w a w' :
  invariant w → step net w a = Some w' → invariant w'.
Proof.
  intros Hinv. destruct a as [|t|t|t]; cbn [step].
  - by apply turn_invariant.
  - destruct (component w) as [s|]; [|done]. destruct (loading s); [done|].
    destruct (at_time t w) as [w1|] eqn:Hat; [|done]. intros [= <-].
    by eapply click_invariant.
  - destruct (component w) as [s|] eqn:Hc; [|done].
    destruct (at_time t w) as [w1|] eqn:Hat; [|done]. intros [= <-].
    eapply chat_id_invariant; [done|by rewrite Hc|done].
  - destruct (component w) as [s|] eqn:Hc; [|done].
    destruct (at_time t w) as [w1|] eqn:Hat; [|done]. intros [= <-].
    eapply unmount_invariant; [done|by rewrite Hc|done].
Qed.

Lemma run_invariant w acts w' :
  invariant w → run (step net) w acts = Some w' → invariant w'.
Proof.
  revert w. induction acts as [|a acts IH]; intros w Hinv; cbn [run].
  - by intros [= <-].
  - destruct (step net w a) as [w1|] eqn:Hstep; [|done]. cbn.
    apply IH. by eapply step_invariant.
Qed.

End DashboardFacts.

(** ** PriceChart: what every reachable page satisfies *)

Section PriceChartFacts.
Import Browser PriceChart.
Variable net : nat → N * reply.

Implicit Types (w : world) (e : task handler).

Ltac js_unfold :=
  cbv [exec async run_handler handle_task fetchChartData
       fetchChartData_resume fetchChartData_catch fetchRealChartData effect
       render_effects notify app_rendered onNotification
       setSelection setChartData setLoading setCurrentPrice setDataSource
       setState setTimeout enqueue emit mbind js_mbind mret js_mret
       js_bind js_ret js_try js_throw js_modify js_get set_now set_queue
       set_next_handle set_requests set_component set_cleanup
       set_notifications set_trace now queue next_handle requests
       component cleanup notifications trace snd fst].

Local Abbreviation invariant w :=
  (queue_ok maxRetries retryDelay retry_call w
   ∧ retry_discipline maxRetries retryDelay LogAttempt retry_call w
   ∧ chart_ok w).

(** The three ways a call of [fetchChartData] can go before it waits: the
request is sent; or the range is unsupported, and the failure is answered
at once, with a retry or by giving up. *)
Lemma exec_fetchChartData crypto range arg w :
  let rc := default (JsNumber 0) arg in
  ∃ c, (c = None ↔ component w = None) ∧
  ((is_Some (rangeMapping range) ∧
    exec (async (fetchChartData net crypto range arg)) w
    = World (now w)
        (queue w ++
         [Task (next_handle w) (now w + Z.of_N (net (requests w)).1) None
            (ResumeFetchChartData crypto range rc (net (requests w)).2)])
        (S (next_handle w)) (S (requests w)) c (cleanup w)
        (notifications w)
        ((now w, HttpGet rc) :: (now w, LogAttempt rc) :: trace w))
   ∨ (js_lt rc maxRetries = true ∧
      exec (async (fetchChartData net crypto range arg)) w
      = World (now w)
          (queue w ++
           [Task (next_handle w) (now w + retryDelay) None
              (CallFetchChartData crypto range (Some (js_succ rc)))])
          (S (next_handle w)) (requests w) c (cleanup w) (notifications w)
          ((now w, LogRetrying rc) :: (now w, LogFetchError rc)
           :: (now w, LogAttempt rc) :: trace w))
   ∨ (js_lt rc maxRetries = false ∧
      ∃ msg ns,
      exec (async (fetchChartData net crypto range arg)) w
      = World (now w) (queue w) (next_handle w) (requests w) c (cleanup w)
          ns
          ((now w, OnNotification msg (Some "warning"))
           :: (now w, LogMaxRetries) :: (now w, LogFetchError rc)
           :: (now w, LogAttempt rc) :: trace w))).
Proof.
  destruct w as [t q h n c cl ns tr]. cbn zeta. js_unfold.
  destruct (rangeMapping range) as [days|].
  - eexists. split; [|left; split; [by eexists|]].
    2:{ destruct (net n) as [lat r]. reflexivity. }
    by destruct c.
  - destruct (js_lt (default (JsNumber 0) arg) maxRetries) eqn:Hlt.
    + eexists. split; [|right; left; split; [done|reflexivity]].
      by destruct c.
    + eexists. split; [|right; right; split; [done|]].
      2:{ eexists _, _. reflexivity. }
      by destruct c.
Qed.

(** What the reply amounts to: the points of the chart, or nothing. *)
Lemma fetchRealChartData_resume_pure r :
  ∃ o : option (list point), ∀ w,
    fetchRealChartData_resume r w
    = (match o with Some d => Normal d | None => Throw end, w).
Proof.
  destruct r as [|[|] [[[ps|] vs]|]]; cbn; try (by exists None).
  destruct (forallb _ ps); [by eexists (Some _)|by exists None].
Qed.

(** The three ways the rest of [fetchChartData] can go. *)
Lemma exec_fetchChartData_resume crypto range rc r w :
  ∃ c, (c = None ↔ component w = None) ∧
  (exec (async (fetchChartData_resume crypto range rc r)) w
   = World (now w) (queue w) (next_handle w) (requests w) c (cleanup w)
       (notifications w) ((now w, LogFetched) :: trace w)
   ∨ (js_lt rc maxRetries = true ∧
      exec (async (fetchChartData_resume crypto range rc r)) w
      = World (now w)
          (queue w ++
           [Task (next_handle w) (now w + retryDelay) None
              (CallFetchChartData crypto range (Some (js_succ rc)))])
          (S (next_handle w)) (requests w) c (cleanup w) (notifications w)
          ((now w, LogRetrying rc) :: (now w, LogFetchError rc) :: trace w))
   ∨ (js_lt rc maxRetries = false ∧
      ∃ msg ns,
      exec (async (fetchChartData_resume crypto range rc r)) w
      = World (now w) (queue w) (next_handle w) (requests w) c (cleanup w)
          ns
          ((now w, OnNotification msg (Some "warning"))
           :: (now w, LogMaxRetries) :: (now w, LogFetchError rc)
           :: trace w))).
Proof.
  destruct (fetchRealChartData_resume_pure r) as [o Ho].
  destruct w as [t q h n c cl ns tr]. js_unfold. rewrite Ho.
  destruct o as [d|]; [destruct (last d) as [p|]|].
  - eexists. split; [|left; reflexivity]. by destruct c.
  - destruct (js_lt rc maxRetries) eqn:Hlt.
    + eexists. split; [|right; left; split; [done|reflexivity]].
      by destruct c.
    + eexists. split; [|right; right; split; [done|]].
      2:{ eexists _, _. reflexivity. }
      by destruct c.
  - destruct (js_lt rc maxRetries) eqn:Hlt.
    + eexists. split; [|right; left; split; [done|reflexivity]].
      by destruct c.
    + eexists. split; [|right; right; split; [done|]].
      2:{ eexists _, _. reflexivity. }
      by destruct c.
Qed.

(** A call of [fetchChartData], made in a world [w1] that came from a
world [w] in order by taking tasks off the queue and, possibly, by
recording that the effect ran: the call keeps the page in order if every
pending retry of [w] is still pending or is the one that calls now, and
if a numbered argument stands for a retry announced [retryDelay]
earlier. *)
Lemma chart_call_invariant w w1 pre crypto range arg :
  invariant w →
  trace w1 = pre ++ trace w →
  pre = [] ∨ pre = [(now w1, EffectRan)] →
  handle <$> queue w1 ⊆+ handle <$> queue w →
  (∀ e, e ∈ queue w1 → e ∈ queue w) →
  next_handle w1 = next_handle w →
  (∀ e rc, e ∈ queue w → retry_call (callback e) = Some (Some rc) →
     e ∈ queue w1 ∨ (due e = now w1 ∧ rc = default (JsNumber 0) arg)) →
  (∀ n, default (JsNumber 0) arg = JsNumber (S n) →
     (n < maxRetries)%nat
     ∧ (now w1 - retryDelay, LogRetrying (JsNumber n)) ∈ trace w) →
  invariant (exec (async (fetchChartData net crypto range arg)) w1).
Proof.
  intros (Hq & Hd & [Hreq Htim]) Htr Hpre Hkept Hsub Hnh Hpend Harg.
  destruct (exec_fetchChartData crypto range arg w1) as (c & Hc & Hexec).
  cbn zeta in Hexec. revert Hpend Harg Hexec.
  generalize (default (JsNumber 0) arg). intros rc Hpend Harg Hexec.
  assert (Forall (λ e, period e = None) (queue w1)) as Htim1.
  { apply Forall_forall. intros e He. eapply Forall_forall in Htim; [done|].
    by apply Hsub. }
  assert (∀ (new : list (Z * event)) e rc', e ∈ queue w → period e = None →
            retry_call (callback e) = Some (Some rc') →
            (now w1, LogAttempt rc) ∈ new →
            ∀ added : list (task handler),
              e ∈ queue w1 ++ added ∨ (due e, LogAttempt rc') ∈ new)
    as Hpend'.
  { intros new e rc' He _ Hcall Hnew added.
    destruct (Hpend e rc' He Hcall) as [?|[-> ->]]; [left|by right].
    apply elem_of_app. by left. }
  destruct Hexec as [[_ ->]|[[Hlt ->]|(Hlt & msg & ns & ->)]].
  - split_and!.
    + eapply (queue_ok_extend _ _ _ w _ ([_; _] ++ pre) (queue w1) [_]);
        [done|by fields; rewrite Htr|reflexivity|done|by rewrite Hnh
        |by fields; rewrite Hnh; cbn; lia|].
      fields. intros e' arg' [He'|He']%elem_of_app Hp' Hcall; [by auto|].
      by apply list_elem_of_singleton in He' as ->.
    + eapply (retry_discipline_extend _ _ _ _ w _ ([_; _] ++ pre));
        [done|by fields; rewrite Htr| |].
      * fields. intros e' rc' He' Hp' Hcall.
        eapply Hpend'; [done..|]. by right; left.
      * split; fields.
        -- intros t n Hin. destruct Hpre as [->| ->]; in_list Hin.
           all: destruct (Harg n eq_refl) as [? Hlog]; split; [done|].
           all: rewrite Htr; do 2 right; apply elem_of_app; by right.
        -- intros t rc' Hin. destruct Hpre as [->| ->]; in_list Hin.
        -- intros t rc' Hin. destruct Hpre as [->| ->]; in_list Hin.
        -- intros t Hin. destruct Hpre as [->| ->]; in_list Hin.
        -- intros t msg ty Hin. destruct Hpre as [->| ->]; in_list Hin.
        -- intros t Hin. destruct Hpre as [->| ->]; in_list Hin.
    + split; fields.
      * intros t rc' Hin. rewrite Htr in Hin.
        in_list Hin; [by right; left|]. do 2 right. rewrite Htr.
        apply elem_of_app in Hin as [Hin|Hin].
        -- destruct Hpre as [->| ->]; in_list Hin.
        -- apply elem_of_app. right. by apply Hreq.
      * apply Forall_app. split; [done|]. by repeat constructor.
  - split_and!.
    + eapply (queue_ok_extend _ _ _ w _ ([_; _; _] ++ pre) (queue w1) [_]);
        [done|by fields; rewrite Htr|reflexivity|done|by rewrite Hnh
        |by fields; rewrite Hnh; cbn; lia|].
      fields. intros e' arg' [He'|He']%elem_of_app Hp' Hcall; [by auto|].
      right. apply list_elem_of_singleton in He' as ->. cbn in *.
      destruct rc as [n|]; [|done]. exists n. injection Hcall as <-.
      split_and!; [done|by apply bool_decide_eq_true in Hlt|].
      replace (now w1 + retryDelay - retryDelay) with (now w1) by lia. left.
    + eapply (retry_discipline_extend _ _ _ _ w _ ([_; _; _] ++ pre));
        [done|by fields; rewrite Htr| |].
      * fields. intros e' rc' He' Hp' Hcall.
        eapply Hpend'; [done..|]. by do 2 right; left.
      * split; fields.
        -- intros t n Hin. destruct Hpre as [->| ->]; in_list Hin.
           all: destruct (Harg n eq_refl) as [? Hlog]; split; [done|].
           all: rewrite Htr; do 3 right; apply elem_of_app; by right.
        -- intros t rc' Hin. destruct Hpre as [->| ->]; in_list Hin.
           all: split_and!; [done|by right; left|].
           all: left; eexists; split; [apply elem_of_app; right; left|done].
        -- intros t rc' Hin. destruct Hpre as [->| ->]; in_list Hin.
           all: rewrite Hlt; left.
        -- intros t Hin. destruct Hpre as [->| ->]; in_list Hin.
        -- intros t msg ty Hin. destruct Hpre as [->| ->]; in_list Hin.
        -- intros t Hin. destruct Hpre as [->| ->]; in_list Hin.
    + split; fields.
      * intros t rc' Hin. rewrite Htr in Hin.
        in_list Hin. do 3 right. rewrite Htr.
        apply elem_of_app in Hin as [Hin|Hin].
        -- destruct Hpre as [->| ->]; in_list Hin.
        -- apply elem_of_app. right. by apply Hreq.
      * apply Forall_app. split; [done|]. by repeat constructor.
  - split_and!.
    + eapply (queue_ok_extend _ _ _ w _ ([_; _; _; _] ++ pre) (queue w1) []);
        [done|by fields; rewrite Htr|by rewrite app_nil_r|done
        |reflexivity|by fields; rewrite Hnh; cbn; lia|].
      fields. intros e' arg' He' Hp' Hcall. by auto.
    + eapply (retry_discipline_extend _ _ _ _ w _ ([_; _; _; _] ++ pre));
        [done|by fields; rewrite Htr| |].
      * fields. intros e' rc' He' Hp' Hcall.
        rewrite <- (app_nil_r (queue w1)).
        eapply Hpend'; [done..|]. by do 3 right; left.
      * split; fields.
        -- intros t n Hin. destruct Hpre as [->| ->]; in_list Hin.
           all: destruct (Harg n eq_refl) as [? Hlog]; split; [done|].
           all: rewrite Htr; do 4 right; apply elem_of_app; by right.
        -- intros t rc' Hin. destruct Hpre as [->| ->]; in_list Hin.
        -- intros t rc' Hin. destruct Hpre as [->| ->]; in_list Hin.
           all: rewrite Hlt; split; [by right; left|]; eexists; left.
        -- intros t Hin. destruct Hpre as [->| ->]; in_list Hin.
           all: exists rc; split; [done|]; by do 2 right; left.
        -- intros t msg' ty Hin. destruct Hpre as [->| ->]; in_list Hin.
           all: split; [done|]; by right; left.
        -- intros t Hin. destruct Hpre as [->| ->]; in_list Hin.
    + split; fields.
      * intros t rc' Hin. rewrite Htr in Hin.
        in_list Hin. do 4 right. rewrite Htr.
        apply elem_of_app in Hin as [Hin|Hin].
        -- destruct Hpre as [->| ->]; in_list Hin.
        -- apply elem_of_app. right. by apply Hreq.
      * done.
Qed.

Lemma chart_turn_resume_invariant w e rest crypto range rc r w' :
  invariant w → pop (queue w) = Some (e, rest) →
  callback e = ResumeFetchChartData crypto range rc r →
  turn (handle_task net) w = Some w' → invariant w'.
Proof.
  intros (Hq & Hd & [Hreq Htim]) Hpop Hcb. unfold turn. rewrite Hpop.
  cbn [mbind option_bind].
  assert (e ∈ queue w) as He by (apply (elem_of_pop _ _ _ _ Hpop); by left).
  assert (period e = None) as Hp by by eapply Forall_forall in Htim.
  assert (Forall (λ e, period e = None) rest) as Htim'.
  { apply Forall_forall. intros x Hx. eapply Forall_forall in Htim; [done|].
    apply (elem_of_pop _ _ _ _ Hpop). by right. }
  assert (∀ e' rc', e' ∈ queue w →
            retry_call (callback e') = Some (Some rc') → e' ∈ rest)
    as Hpend.
  { intros e' rc' [->|?]%(elem_of_pop _ _ _ _ Hpop) Hcall; [|done].
    by rewrite Hcb in Hcall. }
  unfold is_interval, rearm. rewrite Hp, Hcb, exec_skip_then.
  cbn [handle_task].
  destruct (exec_fetchChartData_resume crypto range rc r
              (set_queue rest (set_now (due e) w)))
    as (c & Hc & [->|[[Hlt ->]|(Hlt & msg & ns & ->)]]); fields;
    intros [= <-].
  - split_and!.
    + eapply (queue_ok_extend _ _ _ w _ [_] rest []);
        [done|reflexivity|by rewrite app_nil_r|by eapply kept_pop
        |reflexivity|cbn; lia|].
      fields. intros e' arg He' Hp' Hcall.
      left. apply (elem_of_pop _ _ _ _ Hpop). by right.
    + eapply (retry_discipline_extend _ _ _ _ w _ [_]);
        [done|reflexivity| |].
      * fields. intros e' rc' He' Hp' Hcall. left. by eapply Hpend.
      * split; fields.
        -- intros t n Hin. in_list Hin.
        -- intros t rc' Hin. in_list Hin.
        -- intros t rc' Hin. in_list Hin.
        -- intros t Hin. in_list Hin.
        -- intros t msg ty Hin. in_list Hin.
        -- intros t Hin. in_list Hin.
    + split; fields; [|done].
      intros t rc' Hin. in_list Hin. right. by apply Hreq.
  - split_and!.
    + eapply (queue_ok_extend _ _ _ w _ [_; _] rest [_]);
        [done|reflexivity|reflexivity|by eapply kept_pop|reflexivity
        |cbn; lia|].
      fields. intros e' arg [He'|He']%elem_of_app Hp' Hcall.
      * left. apply (elem_of_pop _ _ _ _ Hpop). by right.
      * right. apply list_elem_of_singleton in He' as ->. cbn in *.
        destruct rc as [n|]; [|done]. exists n. injection Hcall as <-.
        split_and!; [done|by apply bool_decide_eq_true in Hlt|].
        replace (due e + retryDelay - retryDelay) with (due e) by lia. left.
    + eapply (retry_discipline_extend _ _ _ _ w _ [_; _]);
        [done|reflexivity| |].
      * fields. intros e' rc' He' Hp' Hcall. left.
        apply elem_of_app. left. by eapply Hpend.
      * split; fields.
        -- intros t n Hin. in_list Hin.
        -- intros t rc' Hin. in_list Hin. split_and!; [done|by right; left|].
           left. eexists. split; [apply elem_of_app; right; left|]. done.
        -- intros t rc' Hin. in_list Hin. rewrite Hlt. left.
        -- intros t Hin. in_list Hin.
        -- intros t msg ty Hin. in_list Hin.
        -- intros t Hin. in_list Hin.
    + split; fields.
      * intros t rc' Hin. in_list Hin. do 2 right. by apply Hreq.
      * apply Forall_app. split; [done|]. by repeat constructor.
  - split_and!.
    + eapply (queue_ok_extend _ _ _ w _ [_; _; _] rest []);
        [done|reflexivity|by rewrite app_nil_r|by eapply kept_pop
        |reflexivity|cbn; lia|].
      fields. intros e' arg He' Hp' Hcall.
      left. apply (elem_of_pop _ _ _ _ Hpop). by right.
    + eapply (retry_discipline_extend _ _ _ _ w _ [_; _; _]);
        [done|reflexivity| |].
      * fields. intros e' rc' He' Hp' Hcall. left. by eapply Hpend.
      * split; fields.
        -- intros t n Hin. in_list Hin.
        -- intros t rc' Hin. in_list Hin.
        -- intros t rc' Hin. in_list Hin. rewrite Hlt.
           split; [by right; left|]. eexists. left.
        -- intros t Hin. in_list Hin. exists rc. split; [done|].
           by do 2 right; left.
        -- intros t msg' ty Hin. in_list Hin. split; [done|]. by right; left.
        -- intros t Hin. in_list Hin.
    + split; fields; [|done].
      intros t rc' Hin. in_list Hin. do 3 right. by apply Hreq.
Qed.

Lemma chart_turn_call_invariant w e rest crypto range arg w' :
  invariant w → pop (queue w) = Some (e, rest) →
  callback e = CallFetchChartData crypto range arg →
  turn (handle_task net) w = Some w' → invariant w'.
Proof.
  intros Hinv Hpop Hcb. pose proof Hinv as (Hq & Hd & [Hreq Htim]).
  unfold turn. rewrite Hpop. cbn [mbind option_bind].
  assert (e ∈ queue w) as He by (apply (elem_of_pop _ _ _ _ Hpop); by left).
  assert (period e = None) as Hp by by eapply Forall_forall in Htim.
  destruct (pending_retries _ _ _ _ Hq e arg He Hp) as (n & -> & Hn & Hlog).
  { by rewrite Hcb. }
  unfold is_interval, rearm. rewrite Hp, Hcb, exec_skip_then.
  cbn [handle_task]. intros [= <-].
  eapply (chart_call_invariant w _ []); [done|reflexivity|by left| | |done| |].
  - fields. by eapply kept_pop.
  - fields. intros x Hx. apply (elem_of_pop _ _ _ _ Hpop). by right.
  - fields. intros x rc [->|?]%(elem_of_pop _ _ _ _ Hpop) Hcall; [|by left].
    right. rewrite Hcb in Hcall. by injection Hcall as <-.
  - fields. cbn [default]. by intros ? [= <-].
Qed.

Lemma chart_turn_invariant w w' :
  invariant w → turn (handle_task net) w = Some w' → invariant w'.
Proof.
  intros Hinv Hturn.
  destruct (pop (queue w)) as [[e rest]|] eqn:Hpop;
    [|by unfold turn in Hturn; rewrite Hpop in Hturn].
  destruct (callback e) as [crypto range arg|crypto range rc r] eqn:Hcb.
  - by eapply chart_turn_call_invariant.
  - by eapply chart_turn_resume_invariant.
Qed.

(** Rendering: the effect runs again, or nothing happens. *)
Lemma exec_render_effects w :
  exec (render_effects net) w = w
  ∨ ∃ s s',
      component w = Some s
      ∧ exec (render_effects net) w
        = exec (async (fetchChartData net (selectedCrypto s) (timeRange s)
                         None))
            (World (now w) (queue w) (next_handle w) (requests w) (Some s')
               (cleanup w) (notifications w)
               ((now w, EffectRan) :: trace w)).
Proof.
  destruct w as [t q nh n [s|] cl ns tr]; [|by left].
  destruct (decide (effect_deps s
                    = Some (selectedCrypto s, timeRange s, app_render s)))
    as [Heq|Hne].
  - left. unfold exec, render_effects, mbind, js_mbind, js_bind, js_get.
    cbn [component]. by rewrite decide_True.
  - right. eexists s, _. split; [done|].
    unfold exec, render_effects, mbind, js_mbind, js_bind, js_get.
    cbn [component]. rewrite decide_False by done. reflexivity.
Qed.

Lemma render_invariant w :
  invariant w → invariant (exec (render_effects net) w).
Proof.
  intros Hinv.
  destruct (exec_render_effects w) as [->|(s & s' & Hs & ->)]; [done|].
  eapply (chart_call_invariant w _ [_]);
    [done|reflexivity|by right|done|done|done| |done].
  intros e rc He Hcall. by left.
Qed.

Lemma exec_then (m k : js world ()) w :
  (∀ w0, (m w0).1 = Normal ()) → exec (m;; k) w = exec k (exec m w).
Proof.
  intros Hm. unfold exec, mbind, js_mbind, js_bind. specialize (Hm w).
  by destruct (m w) as [[[]|] w1].
Qed.

Lemma async_normal (m : js world ()) w0 : (async m w0).1 = Normal ().
Proof.
  unfold async, js_try, emit, js_modify. by destruct (m w0) as [[[]|] w1].
Qed.

Lemma handle_task_normal h w0 : (handle_task net h w0).1 = Normal ().
Proof. destruct h; apply async_normal. Qed.

(** A turn of the page is a turn of the task, then the rendering. *)
Lemma turn_run_handler w :
  turn (run_handler net) w
  = exec (render_effects net) <$> turn (handle_task net) w.
Proof.
  unfold turn. destruct (pop (queue w)) as [[e rest]|]; [|done].
  cbn [mbind option_bind fmap option_fmap option_map]. f_equal.
  unfold run_handler.
  set (w1 := set_queue _ _). set (pre := if is_interval e then _ else _).
  assert (∀ w0, (pre w0).1 = Normal ()) as Hpre.
  { intros w0. unfold pre. by destruct (is_interval e). }
  rewrite (exec_then pre (_;; _)), (exec_then pre (handle_task net _))
    by exact Hpre.
  by rewrite exec_then by apply handle_task_normal.
Qed.

Lemma chart_turn_page_invariant w w' :
  invariant w → turn (run_handler net) w = Some w' → invariant w'.
Proof.
  intros Hinv. rewrite turn_run_handler.
  destruct (turn (handle_task net) w) as [w1|] eqn:Hturn; [|done].
  intros [= <-]. by eapply render_invariant, chart_turn_invariant.
Qed.

(** The invariant looks at the queue, the handles and the trace only. *)
Lemma chart_invariant_same w w' :
  queue w' = queue w → next_handle w' = next_handle w →
  trace w' = trace w → invariant w → invariant w'.
Proof.
  intros Hq Hnh Htr ([O1 O2 O3] & [D1 D2 D3 D4 D5 D6] & [C1 C2]).
  split_and!; split; rewrite ?Hq, ?Hnh, ?Htr; done.
Qed.

Lemma setState_invariant f w :
  invariant w → invariant (exec (setState f) w).
Proof. apply chart_invariant_same; by destruct w. Qed.

Lemma setState_normal f (w0 : world) : (setState f w0).1 = Normal ().
Proof. done. Qed.

Lemma chart_step_invariant w a w' :
  invariant w → step net w a = Some w' → invariant w'.
Proof.
  intros Hinv. destruct a as [|t|t crypto range|t|t]; cbn [step].
  - by apply chart_turn_page_invariant.
  - destruct (component w) as [s|]; [|done]. destruct (loading s); [done|].
    destruct (at_time t w) as [w1|] eqn:Hat; [|done]. intros [= <-].
    apply at_time_spec in Hat as ->.
    rewrite exec_then by apply async_normal. apply render_invariant.
    eapply (chart_call_invariant w _ []);
      [done|reflexivity|by left|done|done|done| |done].
    intros e rc He Hcall. by left.
  - destruct (component w) as [s|] eqn:Hc; [|done].
    destruct (at_time t w) as [w1|] eqn:Hat; [|done]. intros [= <-].
    apply at_time_spec in Hat as ->.
    rewrite exec_then by apply setState_normal.
    apply render_invariant, setState_invariant.
    by apply (chart_invariant_same w).
  - destruct (component w) as [s|] eqn:Hc; [|done].
    destruct (at_time t w) as [w1|] eqn:Hat; [|done]. intros [= <-].
    apply at_time_spec in Hat as ->.
    rewrite exec_then by apply setState_normal.
    apply render_invariant, setState_invariant.
    by apply (chart_invariant_same w).
  - destruct (component w) as [s|] eqn:Hc; [|done].
    destruct (at_time t w) as [w1|] eqn:Hat; [|done]. intros [= <-].
    apply at_time_spec in Hat as ->.
    by apply (chart_invariant_same w).
Qed.

Lemma chart_mount_invariant t0 ns : invariant (mount net t0 ns).
Proof.
  unfold mount. apply render_invariant. split_and!.
  - split; fields; [constructor|constructor|].
    intros e arg He. by apply elem_of_nil in He.
  - split; fields.
    + intros t n Hin. by apply elem_of_nil in Hin.
    + intros t rc Hin. by apply elem_of_nil in Hin.
    + intros t rc Hin. by apply elem_of_nil in Hin.
    + intros t Hin. by apply elem_of_nil in Hin.
    + intros t msg ty Hin. by apply elem_of_nil in Hin.
    + intros t. apply not_elem_of_nil.
  - split; fields; [|constructor].
    intros t rc Hin. by apply elem_of_nil in Hin.
Qed.

Lemma chart_run_invariant w acts w' :
  invariant w → run (step net) w acts = Some w' → invariant w'.
Proof.
  revert w. induction acts as [|a acts IH]; intros w Hinv; cbn [run].
  - by intros [= <-].
  - destruct (step net w a) as [w1|] eqn:Hstep; [|done]. cbn.
    apply IH. by eapply chart_step_invariant.
Qed.

End PriceChartFacts.

(** ** The clock *)

Section ClockFacts.
Import Browser.
Context {S H : Type}.
Implicit Types (w : world S H).

Lemma keeps_time_ret {A} (a : A) : keeps_time (mret a : js (world S H) A).
Proof. done. Qed.

Lemma keeps_time_throw {A} : keeps_time (js_throw : js (world S H) A).
Proof. done. Qed.

Lemma keeps_time_bind {A B} (m : js (world S H) A)
    (k : A → js (world S H) B) :
  keeps_time m → (∀ a, keeps_time (k a)) → keeps_time (m ≫= k).
Proof.
  intros Hm Hk w Hw. specialize (Hm w Hw).
  unfold mbind, js_mbind, js_bind. destruct (m w) as [[a|] w1]; [|done].
  cbn in Hm. destruct Hm as [Hw1 <-]. by apply Hk.
Qed.

Lemma keeps_time_try {A} (m h : js (world S H) A) :
  keeps_time m → keeps_time h → keeps_time (js_try m h).
Proof.
  intros Hm Hh w Hw. specialize (Hm w Hw).
  unfold js_try. destruct (m w) as [[a|] w1]; [done|].
  cbn in Hm. destruct Hm as [Hw1 <-]. by apply Hh.
Qed.

Lemma keeps_time_get : keeps_time (js_get : js (world S H) _).
Proof. done. Qed.

Lemma keeps_time_modify (f : world S H → world S H) :
  (∀ w, queue (f w) = queue w ∧ now (f w) = now w) →
  keeps_time (js_modify f).
Proof.
  intros Hf w Hw. cbn. destruct (Hf w) as [Hq Hn]. split; [|done].
  unfold clock_ok. by rewrite Hq, Hn.
Qed.

Lemma keeps_time_emit ev : keeps_time (emit ev : js (world S H) ()).
Proof. by apply keeps_time_modify. Qed.

Lemma keeps_time_setState f : keeps_time (setState f : js (world S H) ()).
Proof. by apply keeps_time_modify. Qed.

Lemma keeps_time_setTimeout (cb : H) delay :
  0 ≤ delay → keeps_time (setTimeout cb delay : js (world S H) nat).
Proof.
  intros Hd w Hw.
  unfold clock_ok, setTimeout, mbind, js_mbind, js_bind, js_get, enqueue
    in *. cbn. split; [|done]. apply Forall_app. split; [done|].
  apply Forall_singleton. cbn. split; [lia|done].
Qed.

Lemma keeps_time_setInterval (cb : H) delay :
  0 ≤ delay → keeps_time (setInterval cb delay : js (world S H) nat).
Proof.
  intros Hd w Hw.
  unfold clock_ok, setInterval, mbind, js_mbind, js_bind, js_get, enqueue
    in *. cbn. split; [|done]. apply Forall_app. split; [done|].
  apply Forall_singleton. cbn. split; [lia|by intros ? [= <-]].
Qed.

Lemma keeps_time_clearInterval h :
  keeps_time (clearInterval h : js (world S H) ()).
Proof.
  intros w Hw. cbn. split; [|done]. unfold clock_ok in *. cbn.
  apply Forall_forall. intros x [_ Hx]%list_elem_of_filter.
  by eapply Forall_forall in Hw.
Qed.

Lemma keeps_time_onNotification msg ty :
  keeps_time (onNotification msg ty : js (world S H) ()).
Proof.
  apply keeps_time_bind; [apply keeps_time_emit|]. intros _.
  by apply keeps_time_modify.
Qed.

Lemma keeps_time_async (m : js (world S H) ()) :
  keeps_time m → keeps_time (async m).
Proof. intros Hm. apply keeps_time_try; [done|apply keeps_time_emit]. Qed.

Lemma keeps_time_await {D} (r : settlement D) :
  keeps_time (await r : js (world S H) D).
Proof. by destruct r. Qed.

(** A turn of the event loop runs the next task at its time. *)
Lemma turn_clock_ok (run_handler : H → js (world S H) ()) w w' :
  (∀ h, keeps_time (run_handler h)) →
  clock_ok w → turn run_handler w = Some w' → clock_ok w' ∧ now w ≤ now w'.
Proof.
  intros Hrun Hw. unfold turn.
  destruct (pop (queue w)) as [[e rest]|] eqn:Hpop; [|done]. cbn.
  intros [= <-].
  pose proof (pop_earliest _ _ _ Hpop) as Hmin.
  unfold clock_ok in Hw. rewrite (pop_perm _ _ _ Hpop) in Hmin, Hw.
  apply Forall_cons in Hmin as [_ Hmin]. apply Forall_cons in Hw as [He Hw].
  assert (clock_ok (set_queue (rearm e rest) (set_now (due e) w))) as Hw1.
  { unfold clock_ok. cbn.
    assert (Forall (λ x, due e ≤ due x ∧ ∀ p, period x = Some p → 0 ≤ p)
              rest) as Hrest.
    { apply Forall_forall. intros x Hx.
      eapply Forall_forall in Hmin, Hw; [|done..]. by split; [|apply Hw]. }
    unfold rearm. destruct (period e) as [p|] eqn:Hp; [|done].
    apply Forall_app. split; [done|]. apply Forall_singleton. cbn. split.
    - destruct He as [_ Hpos]. specialize (Hpos p eq_refl). lia.
    - intros ? [= <-]. destruct He as [_ Hpos]. by apply Hpos. }
  assert (keeps_time ((if is_interval e then emit IntervalFired
                       else mret ());; run_handler (callback e))) as Hk.
  { apply keeps_time_bind; [|intros _; apply Hrun].
    destruct (is_interval e); [apply keeps_time_emit|apply keeps_time_ret]. }
  destruct (Hk _ Hw1) as [Hw' Hnow]. split; [done|].
  unfold exec. rewrite Hnow. cbn. apply He.
Qed.

(** So does what the user and the parent do. *)
Lemma at_time_clock_ok (m : js (world S H) ()) t w w1 :
  keeps_time m → clock_ok w → at_time t w = Some w1 →
  clock_ok (exec m w1) ∧ now w ≤ now (exec m w1).
Proof.
  intros Hm Hw. unfold at_time.
  destruct (Z.leb_spec (now w) t) as [Hle|]; [|done]. cbn.
  destruct (idle_until t (queue w)) eqn:Hidle; [|done]. intros [= <-].
  assert (clock_ok (set_now t w)) as Hw1.
  { unfold clock_ok. cbn. apply Forall_forall. intros x Hx.
    unfold idle_until in Hidle. rewrite forallb_forall in Hidle.
    specialize (Hidle x). rewrite <- list_elem_of_In in Hidle.
    specialize (Hidle Hx). apply Z.leb_le in Hidle.
    eapply Forall_forall in Hw; [|done]. by split; [|apply Hw]. }
  destruct (Hm _ Hw1) as [Hw' Hnow]. split; [done|].
  unfold exec. by rewrite Hnow.
Qed.

End ClockFacts.

Section DashboardClock.
Import Browser Dashboard.
Variable net : nat → N * settlement prices.

Lemma keeps_time_fetchPrices arg : keeps_time (fetchPrices net arg).
Proof.
  unfold fetchPrices, axios_get.
  apply keeps_time_bind; [apply keeps_time_emit|]. intros _ w Hw.
  unfold mbind, js_mbind, js_bind, js_get, js_modify, enqueue, clock_ok in *.
  destruct (net (requests w)) as [latency r]. cbn. split; [|done].
  apply Forall_app. split; [done|]. apply Forall_singleton. cbn.
  split; [lia|done].
Qed.

Lemma keeps_time_fetchPrices_resume rc r :
  keeps_time (fetchPrices_resume rc r).
Proof.
  unfold fetchPrices_resume. apply keeps_time_try.
  - apply keeps_time_bind; [apply keeps_time_await|]. intros d.
    apply keeps_time_bind; [apply keeps_time_emit|]. intros _.
    apply keeps_time_bind; [apply keeps_time_setState|]. intros _.
    apply keeps_time_bind; [|intros _; apply keeps_time_setState].
    apply keeps_time_bind; [apply keeps_time_get|]. intros w.
    apply keeps_time_setState.
  - apply keeps_time_bind; [apply keeps_time_emit|]. intros _.
    destruct (js_lt rc maxRetries).
    + apply keeps_time_bind; [apply keeps_time_emit|]. intros _.
      apply keeps_time_bind; [by apply keeps_time_setTimeout|].
      intros _. apply keeps_time_ret.
    + apply keeps_time_bind; [apply keeps_time_emit|]. intros _.
      apply keeps_time_bind; [apply keeps_time_onNotification|]. intros _.
      apply keeps_time_setState.
Qed.

Lemma keeps_time_run_handler h : keeps_time (run_handler net h).
Proof.
  destruct h; apply keeps_time_async;
    [apply keeps_time_fetchPrices|apply keeps_time_fetchPrices_resume].
Qed.

Lemma keeps_time_effect : keeps_time (effect net).
Proof.
  unfold effect.
  apply keeps_time_bind; [apply keeps_time_emit|]. intros _.
  apply keeps_time_bind;
    [apply keeps_time_async, keeps_time_fetchPrices|]. intros _.
  apply keeps_time_bind; [by apply keeps_time_setInterval|]. intros h.
  by apply keeps_time_modify.
Qed.

Lemma keeps_time_effect_cleanup : keeps_time effect_cleanup.
Proof.
  unfold effect_cleanup.
  apply keeps_time_bind; [apply keeps_time_get|]. intros w.
  destruct (cleanup w) as [h|]; [|apply keeps_time_ret].
  apply keeps_time_bind; [apply keeps_time_clearInterval|]. intros _.
  apply keeps_time_bind; [apply keeps_time_emit|]. intros _.
  by apply keeps_time_modify.
Qed.

Lemma step_clock_ok w a w' :
  clock_ok w → step net w a = Some w' → clock_ok w' ∧ now w ≤ now w'.
Proof.
  intros Hw. destruct a as [|t|t|t]; cbn [step].
  - apply turn_clock_ok; [apply keeps_time_run_handler|done].
  - destruct (component w) as [s|]; [|done]. destruct (loading s); [done|].
    destruct (at_time t w) as [w1|] eqn:Hat; [|done]. intros [= <-].
    eapply at_time_clock_ok; [|done..].
    apply keeps_time_async, keeps_time_fetchPrices.
  - destruct (component w) as [s|]; [|done].
    destruct (at_time t w) as [w1|] eqn:Hat; [|done]. intros [= <-].
    eapply at_time_clock_ok; [|done..].
    apply keeps_time_bind; [apply keeps_time_effect_cleanup|].
    intros _. apply keeps_time_effect.
  - destruct (component w) as [s|]; [|done].
    destruct (at_time t w) as [w1|] eqn:Hat; [|done]. intros [= <-].
    by apply (at_time_clock_ok effect_cleanup t w w1
                keeps_time_effect_cleanup).
Qed.

Lemma mount_clock_ok t0 ns : clock_ok (mount net t0 ns).
Proof.
  unfold mount, exec. apply keeps_time_effect. constructor.
Qed.

Lemma run_clock_ok w acts w' :
  clock_ok w → run (step net) w acts = Some w' →
  clock_ok w' ∧ now w ≤ now w'.
Proof.
  revert w. induction acts as [|a acts IH]; intros w Hw; cbn [run].
  - by intros [= <-].
  - destruct (step net w a) as [w1|] eqn:Hstep; [|done]. cbn.
    destruct (step_clock_ok w a w1 Hw Hstep) as [Hw1 Hle]. intros Hrun.
    destruct (IH w1 Hw1 Hrun). split; [done|lia].
Qed.

End DashboardClock.

Section PriceChartClock.
Import Browser PriceChart.
Variable net : nat → N * reply.

Lemma keeps_time_notify msg ty : keeps_time (notify msg ty).
Proof.
  unfold notify.
  apply keeps_time_bind; [apply keeps_time_onNotification|]. intros _.
  case_decide; [apply keeps_time_ret|apply keeps_time_setState].
Qed.

Lemma keeps_time_fetchChartData_catch crypto range rc :
  keeps_time (fetchChartData_catch crypto range rc).
Proof.
  unfold fetchChartData_catch.
  apply keeps_time_bind; [apply keeps_time_emit|]. intros _.
  destruct (js_lt rc maxRetries).
  - apply keeps_time_bind; [apply keeps_time_emit|]. intros _.
    apply keeps_time_bind; [by apply keeps_time_setTimeout|].
    intros _. apply keeps_time_ret.
  - apply keeps_time_bind; [apply keeps_time_emit|]. intros _.
    apply keeps_time_bind; [apply keeps_time_notify|]. intros _.
    apply keeps_time_bind; [apply keeps_time_setState|]. intros _.
    apply keeps_time_bind; [apply keeps_time_setState|]. intros _.
    apply keeps_time_setState.
Qed.

Lemma keeps_time_fetchRealChartData crypto range rc :
  keeps_time (fetchRealChartData net crypto range rc).
Proof.
  unfold fetchRealChartData.
  destruct (rangeMapping range) as [days|]; [|apply keeps_time_throw].
  apply keeps_time_bind; [apply keeps_time_emit|]. intros _ w Hw.
  unfold mbind, js_mbind, js_bind, js_get, js_modify, enqueue, clock_ok in *.
  destruct (net (requests w)) as [latency r]. cbn. split; [|done].
  apply Forall_app. split; [done|]. apply Forall_singleton. cbn.
  split; [lia|done].
Qed.

Lemma keeps_time_fetchChartData crypto range arg :
  keeps_time (fetchChartData net crypto range arg).
Proof.
  unfold fetchChartData.
  apply keeps_time_bind; [apply keeps_time_setState|]. intros _.
  apply keeps_time_try; [|apply keeps_time_fetchChartData_catch].
  apply keeps_time_bind; [apply keeps_time_emit|]. intros _.
  apply keeps_time_fetchRealChartData.
Qed.

Lemma keeps_time_fetchChartData_resume crypto range rc r :
  keeps_time (fetchChartData_resume crypto range rc r).
Proof.
  unfold fetchChartData_resume.
  apply keeps_time_try; [|apply keeps_time_fetchChartData_catch].
  apply keeps_time_bind.
  { destruct (fetchRealChartData_resume_pure r) as [o Ho].
    intros w Hw. rewrite Ho. by destruct o. }
  intros d. destruct (last d) as [p|]; [|apply keeps_time_throw].
  apply keeps_time_bind; [apply keeps_time_setState|]. intros _.
  apply keeps_time_bind; [apply keeps_time_setState|]. intros _.
  apply keeps_time_bind; [apply keeps_time_setState|]. intros _.
  apply keeps_time_bind; [apply keeps_time_emit|]. intros _.
  apply keeps_time_setState.
Qed.

Lemma chart_keeps_time_effect : keeps_time (effect net).
Proof.
  unfold effect.
  apply keeps_time_bind; [apply keeps_time_emit|]. intros _.
  apply keeps_time_bind; [apply keeps_time_get|]. intros w.
  destruct (component w) as [s|]; [|apply keeps_time_ret].
  apply keeps_time_async, keeps_time_fetchChartData.
Qed.

Lemma keeps_time_render_effects : keeps_time (render_effects net).
Proof.
  unfold render_effects.
  apply keeps_time_bind; [apply keeps_time_get|]. intros w.
  destruct (component w) as [s|]; [|apply keeps_time_ret].
  cbn zeta. case_decide; [apply keeps_time_ret|].
  apply keeps_time_bind; [apply keeps_time_setState|]. intros _.
  apply chart_keeps_time_effect.
Qed.

Lemma chart_keeps_time_run_handler h : keeps_time (run_handler net h).
Proof.
  unfold run_handler.
  apply keeps_time_bind; [|intros _; apply keeps_time_render_effects].
  destruct h; apply keeps_time_async;
    [apply keeps_time_fetchChartData|apply keeps_time_fetchChartData_resume].
Qed.

Lemma chart_step_clock_ok w a w' :
  clock_ok w → step net w a = Some w' → clock_ok w' ∧ now w ≤ now w'.
Proof.
  intros Hw. destruct a as [|t|t crypto range|t|t]; cbn [step].
  - apply turn_clock_ok; [apply chart_keeps_time_run_handler|done].
  - destruct (component w) as [s|]; [|done]. destruct (loading s); [done|].
    destruct (at_time t w) as [w1|] eqn:Hat; [|done]. intros [= <-].
    eapply at_time_clock_ok; [|done..].
    apply keeps_time_bind; [|intros _; apply keeps_time_render_effects].
    apply keeps_time_async, keeps_time_fetchChartData.
  - destruct (component w) as [s|]; [|done].
    destruct (at_time t w) as [w1|] eqn:Hat; [|done]. intros [= <-].
    eapply at_time_clock_ok; [|done..].
    apply keeps_time_bind; [apply keeps_time_setState|].
    intros _. apply keeps_time_render_effects.
  - destruct (component w) as [s|]; [|done].
    destruct (at_time t w) as [w1|] eqn:Hat; [|done]. intros [= <-].
    eapply at_time_clock_ok; [|done..].
    apply keeps_time_bind; [apply keeps_time_setState|].
    intros _. apply keeps_time_render_effects.
  - destruct (component w) as [s|]; [|done].
    destruct (at_time t w) as [w1|] eqn:Hat; [|done]. intros [= <-].
    by apply (at_time_clock_ok (mret ()) t w w1 (keeps_time_ret ())).
Qed.

Lemma chart_mount_clock_ok t0 ns : clock_ok (mount net t0 ns).
Proof. unfold mount, exec. apply keeps_time_render_effects. constructor. Qed.

Lemma chart_run_clock_ok w acts w' :
  clock_ok w → run (step net) w acts = Some w' →
  clock_ok w' ∧ now w ≤ now w'.
Proof.
  revert w. induction acts as [|a acts IH]; intros w Hw; cbn [run].
  - by intros [= <-].
  - destruct (step net w a) as [w1|] eqn:Hstep; [|done]. cbn.
    destruct (chart_step_clock_ok w a w1 Hw Hstep) as [Hw1 Hle]. intros Hrun.
    destruct (IH w1 Hw1 Hrun). split; [done|lia].
Qed.

End PriceChartClock.

(** ** The refresh timer and the retry loops *)

Section ClientClaims.
Import Browser.

Lemma periodic_split p tr1 t tr2 :
  periodic p (tr1 ++ (t, IntervalFired) :: tr2) →
  armed_at tr2 = Some (t - p).
Proof.
  induction tr1 as [|[t' ev] tr1 IH]; cbn.
  - by intros [Harmed _].
  - destruct ev; try done. intros [_ Hper]. by apply IH.
Qed.

Lemma attempts_capped {S H} maxRetries retryDelay attempt
    (retry_call : H → option (option jsval)) (w : world S H) t n :
  retry_discipline maxRetries retryDelay attempt retry_call w →
  (t, attempt (JsNumber n)) ∈ trace w → (n ≤ maxRetries)%nat.
Proof.
  intros Hd Hin. destruct n as [|n]; [lia|].
  destruct (attempts_follow_failures _ _ _ _ _ _ Hd t n Hin). lia.
Qed.

(** C9. From the moment the dashboard is mounted, whatever is clicked,
whatever the network answers and whenever the chat identifier changes:
while the component is mounted one interval timer is pending; it calls
[fetchPrices] without argument, has a period of 30000 ms and is due
30000 ms after it was last set, by the effect or by its own firing; every
firing has come 30000 ms after the timer was set, with no clean-up
between, and has sent a request numbered 0; nothing pending is overdue,
and the event loop has a task to run; mounting itself sends the first
request and sets the timer for 30000 ms later; and once the component is
unmounted no interval timer is pending. *)
Theorem dashboard_refreshes_every_30_seconds :
  ∀ (net : nat → N * settlement Dashboard.prices) (t0 : Z)
    (ns : list App.notification) (acts : list Dashboard.action)
    (w : Dashboard.world),
    run (Dashboard.step net) (Dashboard.mount net t0 ns) acts = Some w →
    Dashboard.refresh_ok w
    ∧ (∀ tr1 t tr2,
         trace w = tr1 ++ (t, IntervalFired) :: tr2 →
         armed_at tr2 = Some (t - 30000))
    ∧ clock_ok w
    ∧ (is_Some (component w) →
       is_Some (turn (Dashboard.run_handler net) w))
    ∧ trace (Dashboard.mount net t0 ns)
      = [(t0, HttpGet (JsNumber 0)); (t0, EffectRan)]
    ∧ intervals (queue (Dashboard.mount net t0 ns))
      = [Task 1 (t0 + 30000) (Some 30000) (Dashboard.CallFetchPrices None)].
Proof.
  intros net t0 ns acts w Hrun.
  destruct (run_invariant net _ acts w (mount_invariant net t0 ns) Hrun)
    as (_ & _ & Hr).
  split_and!; [done| | | | |].
  - intros tr1 t tr2 Htr. apply (periodic_split _ tr1).
    rewrite <- Htr. apply Hr.
  - by apply (run_clock_ok net _ acts w (mount_clock_ok net t0 ns)).
  - intros [s Hs]. pose proof (Dashboard.interval_pending _ Hr) as Hi.
    rewrite Hs in Hi. destruct Hi as (e & Hi & _). unfold turn.
    destruct (pop (queue w)) as [[e' rest]|] eqn:Hpop; [by eexists|].
    apply pop_None in Hpop. by rewrite Hpop in Hi.
  - unfold Dashboard.mount. by rewrite exec_effect.
  - unfold Dashboard.mount. by rewrite exec_effect.
Qed.

End ClientClaims.

Section ClientScenarios.
Import Browser.

(** The server is down: every request is rejected after 100 ms. The
dashboard is mounted at time 0 and the event loop takes twelve turns, the
last of which is the first firing of the refresh timer. *)
Lemma dashboard_refreshes_every_30_seconds_witness :
  let net : nat → N * settlement Dashboard.prices := λ _, (100%N, Rejected) in
  ∃ w, run (Dashboard.step net) (Dashboard.mount net 0 []) (replicate 12 Dashboard.Turn)
       = Some w
       ∧ now w = 30000
       ∧ Dashboard.refresh_ok w.
Proof.
  intros net. eexists. split; [vm_compute; reflexivity|].
  split; [reflexivity|].
  refine (proj1 (dashboard_refreshes_every_30_seconds net 0 []
                   (replicate 12 Dashboard.Turn) _ _)).
  vm_compute. reflexivity.
Defined.

End ClientScenarios.

(** ** Turns of the event loop *)

Section TurnFacts.
Import Browser.
Context {S H : Type}.

(** A turn, written out: the world in which the callback runs. *)
Lemma turn_unfold (run_handler : H → js (world S H) ()) w w' :
  turn run_handler w = Some w' →
  ∃ e rest,
    pop (queue w) = Some (e, rest)
    ∧ w' = exec (run_handler (callback e))
             (World (due e) (rearm e rest) (next_handle w) (requests w)
                (component w) (cleanup w) (notifications w)
                ((if is_interval e then [(due e, IntervalFired)] else [])
                 ++ trace w)).
Proof.
  unfold turn. destruct (pop (queue w)) as [[e rest]|]; [|done].
  cbn [mbind option_bind]. intros [= <-]. exists e, rest. split; [done|].
  destruct w as [t q nh n c cl ns tr].
  destruct (is_interval e); [rewrite exec_emit_then|rewrite exec_skip_then];
    reflexivity.
Qed.

Lemma elem_of_rearm (e : task H) rest x :
  x ∈ rearm e rest →
  x ∈ rest ∨ (callback x = callback e ∧ period x = period e
              ∧ is_Some (period e)).
Proof.
  unfold rearm. destruct (period e) as [p|] eqn:Hp; [|by left].
  intros [Hx|Hx]%elem_of_app; [by left|].
  apply list_elem_of_singleton in Hx as ->. right. cbn.
  by split_and!; [| |eexists].
Qed.

Lemma rearm_timer (e : task H) rest :
  period e = None → rearm e rest = rest ∧ is_interval e = false.
Proof. intros Hp. unfold rearm, is_interval. by rewrite Hp. Qed.

End TurnFacts.

(** ** Dashboard: what each turn does *)

Section DashboardTurnFacts.
Import Browser Dashboard.
Variable net : nat → N * settlement prices.

Implicit Types (w : world) (e : task handler).

Ltac js_unfold :=
  cbv [exec async run_handler fetchPrices fetchPrices_resume axios_get
       effect effect_cleanup onNotification setCryptoPrices setLastUpdate
       setLoading setState setTimeout setInterval clearInterval enqueue emit
       await mbind js_mbind mret js_mret js_bind js_ret js_try js_throw
       js_modify js_get set_now set_queue set_next_handle set_requests
       set_component set_cleanup set_notifications set_trace now queue
       next_handle requests component cleanup notifications trace snd fst].

Local Abbreviation invariant w :=
  (queue_ok maxRetries retryDelay retry_call w
   ∧ retry_discipline maxRetries retryDelay HttpGet retry_call w
   ∧ refresh_ok w).

Lemma exec_resume_fulfilled_state rc d w :
  exec (async (fetchPrices_resume rc (Fulfilled d))) w
  = World (now w) (queue w) (next_handle w) (requests w)
      ((λ _, State d false (Some (now w))) <$> component w) (cleanup w)
      (notifications w) ((now w, LogFetched) :: trace w).
Proof. destruct w as [t q h n [s|] cl ns tr]; by js_unfold. Qed.

Lemma exec_resume_exhausted_state rc w :
  js_lt rc maxRetries = false →
  exec (async (fetchPrices_resume rc Rejected)) w
  = World (now w) (queue w) (next_handle w) (requests w)
      ((λ s, State (cryptoPrices s) false (lastUpdate s)) <$> component w)
      (cleanup w)
      (App.Notification (now w) DashboardTurn.warning "warning" (now w)
       :: take 4 (notifications w))
      ((now w, OnNotification DashboardTurn.warning (Some "warning"))
       :: (now w, LogMaxRetries) :: (now w, LogFetchError rc) :: trace w).
Proof.
  destruct w as [t q h n [s|] cl ns tr]; intros Hlt; js_unfold;
    by rewrite Hlt.
Qed.

Lemma exec_cleanup_any w :
  exec effect_cleanup w
  = World (now w)
      (match cleanup w with
       | Some h => filter (λ e, handle e ≠ h) (queue w)
       | None => queue w
       end)
      (next_handle w) (requests w) (component w) None (notifications w)
      (match cleanup w with
       | Some _ => (now w, CleanupRan) :: trace w
       | None => trace w
       end).
Proof. destruct w as [t q nh n c [h|] ns tr]; by js_unfold. Qed.

Lemma exec_seq (m k : js world ()) w :
  (∀ w0, (m w0).1 = Normal ()) → exec (m;; k) w = exec k (exec m w).
Proof.
  intros Hm. unfold exec, mbind, js_mbind, js_bind. specialize (Hm w).
  by destruct (m w) as [[[]|] w1].
Qed.

Lemma effect_cleanup_normal w0 : (effect_cleanup w0).1 = Normal ().
Proof. destruct w0 as [t q nh n c [h|] ns tr]; by js_unfold. Qed.

(** The turn that runs a call of [fetchPrices]. *)
Lemma turn_call w e rest arg w' :
  pop (queue w) = Some (e, rest) → callback e = CallFetchPrices arg →
  turn (run_handler net) w = Some w' →
  w' = DashboardTurn.request_sent net w e rest (default (JsNumber 0) arg).
Proof.
  intros Hpop Hcb (e' & rest' & Hpop' & ->)%turn_unfold.
  rewrite Hpop in Hpop'. injection Hpop' as <- <-. rewrite Hcb.
  cbn [run_handler]. by rewrite exec_fetchPrices.
Qed.

(** The turns that run the rest of [fetchPrices]. A reply is never
waited for by an interval timer. *)
Lemma turn_reply w e rest rc r w' :
  refresh_ok w →
  pop (queue w) = Some (e, rest) → callback e = ResumeFetchPrices rc r →
  turn (run_handler net) w = Some w' →
  w' = match r with
       | Fulfilled d => DashboardTurn.received w e rest d
       | Rejected =>
           match rc with
           | JsNumber k =>
               if decide (k < maxRetries)%nat
               then DashboardTurn.retry_set w e rest k
               else DashboardTurn.warned w e rest rc
           | JsOther => DashboardTurn.warned w e rest rc
           end
       end.
Proof.
  intros Hr Hpop Hcb (e' & rest' & Hpop' & ->)%turn_unfold.
  rewrite Hpop in Hpop'. injection Hpop' as <- <-. rewrite Hcb.
  assert (period e = None) as Hp.
  { eapply resume_is_timer; [done| |done].
    apply (elem_of_pop _ _ _ _ Hpop). by left. }
  destruct (rearm_timer e rest Hp) as [-> ->]. cbn [run_handler app].
  destruct r as [d|].
  - by rewrite exec_resume_fulfilled_state.
  - destruct rc as [k|].
    + case_decide as Hk.
      * rewrite exec_resume_retry; [done|]. by apply bool_decide_eq_true.
      * rewrite exec_resume_exhausted_state; [done|].
        by apply bool_decide_eq_false.
    + by rewrite exec_resume_exhausted_state.
Qed.

(** Every reply that is waited for belongs to a request with a counted
[retryCount]. *)
Local Abbreviation replies_counted w :=
  (∀ e rc r, e ∈ queue w → callback e = ResumeFetchPrices rc r →
     counted maxRetries rc).

Lemma turn_replies_counted w w' :
  invariant w → replies_counted w →
  turn (run_handler net) w = Some w' → replies_counted w'.
Proof.
  intros (Hq & _ & Hr) Hcount Hturn.
  pose proof Hturn as (e & rest & Hpop & _)%turn_unfold.
  assert (e ∈ queue w) as He by (apply (elem_of_pop _ _ _ _ Hpop); by left).
  assert (∀ x, x ∈ rest → x ∈ queue w) as Hrest.
  { intros x Hx. apply (elem_of_pop _ _ _ _ Hpop). by right. }
  destruct (callback e) as [arg|rc r] eqn:Hcb.
  - rewrite (turn_call w e rest arg w' Hpop Hcb Hturn).
    unfold DashboardTurn.request_sent. fields.
    intros x rc r [Hx|Hx]%elem_of_app Hx'.
    + apply elem_of_rearm in Hx as [Hx|(Hxe & _)].
      * by eapply Hcount; [apply Hrest|].
      * congruence.
    + apply list_elem_of_singleton in Hx as ->. cbn in Hx'.
      injection Hx' as <- <-.
      destruct (period e) as [p|] eqn:Hp.
      * destruct (interval_is_refresh w e Hr He) as (_ & Hcall & _);
          [by rewrite Hp|].
        rewrite Hcb in Hcall. injection Hcall as ->. cbn. lia.
      * destruct (pending_retries _ _ _ _ Hq e arg He Hp)
          as (n & -> & Hn & _); [by rewrite Hcb|].
        cbn. unfold maxRetries in *. lia.
  - rewrite (turn_reply w e rest rc r w' Hr Hpop Hcb Hturn).
    destruct r as [d|]; [|destruct rc as [k|]; [case_decide|]];
      unfold DashboardTurn.received, DashboardTurn.retry_set,
        DashboardTurn.warned; fields.
    + intros x rc' r' Hx. by apply Hcount, Hrest.
    + intros x rc' r' [Hx|Hx]%elem_of_app; [by apply Hcount, Hrest|].
      by apply list_elem_of_singleton in Hx as ->.
    + intros x rc' r' Hx. by apply Hcount, Hrest.
    + intros x rc' r' Hx. by apply Hcount, Hrest.
Qed.

Lemma step_replies_counted w a w' :
  invariant w → replies_counted w →
  step net w a = Some w' → replies_counted w'.
Proof.
  intros Hinv Hcount. destruct a as [|t|t|t]; cbn [step].
  - by apply turn_replies_counted.
  - destruct (component w) as [s|]; [|done]. destruct (loading s); [done|].
    destruct (at_time t w) as [w1|] eqn:Hat; [|done]. intros [= <-].
    apply at_time_spec in Hat as ->. rewrite exec_fetchPrices. fields.
    intros x rc r [Hx|Hx]%elem_of_app Hx'; [by eapply Hcount|].
    apply list_elem_of_singleton in Hx as ->. cbn in Hx'.
    by injection Hx' as <- <-.
  - destruct (component w) as [s|]; [|done].
    destruct (at_time t w) as [w1|] eqn:Hat; [|done]. intros [= <-].
    apply at_time_spec in Hat as ->.
    rewrite exec_seq by apply effect_cleanup_normal.
    rewrite exec_effect, exec_cleanup_any. fields.
    intros x rc r [[Hx|Hx]%elem_of_app|Hx]%elem_of_app Hx'.
    + eapply Hcount; [|done]. destruct (cleanup w); [|done].
      by apply list_elem_of_filter in Hx as [_ Hx].
    + apply list_elem_of_singleton in Hx as ->. cbn in Hx'.
      injection Hx' as <- <-. cbn. lia.
    + by apply list_elem_of_singleton in Hx as ->.
  - destruct (component w) as [s|]; [|done].
    destruct (at_time t w) as [w1|] eqn:Hat; [|done]. intros [= <-].
    apply at_time_spec in Hat as ->. rewrite exec_cleanup_any. fields.
    intros x rc r Hx. apply Hcount. destruct (cleanup w); [|done].
    by apply list_elem_of_filter in Hx as [_ Hx].
Qed.

Lemma mount_replies_counted t0 ns : replies_counted (mount net t0 ns).
Proof.
  unfold mount. rewrite exec_effect. fields.
  intros x rc r Hx Hx'. cbn in Hx. in_list Hx; cbn in Hx'; try done.
  injection Hx' as <- <-. cbn. lia.
Qed.

Lemma run_replies_counted w acts w' :
  invariant w → replies_counted w →
  run (step net) w acts = Some w' → replies_counted w'.
Proof.
  revert w. induction acts as [|a acts IH]; intros w Hinv Hcount; cbn [run].
  - by intros [= <-].
  - destruct (step net w a) as [w1|] eqn:Hstep; [|done]. cbn.
    apply IH; [by eapply step_invariant|by eapply step_replies_counted].
Qed.

End DashboardTurnFacts.

(** ** PriceChart: what each turn does *)

Section PriceChartTurnFacts.
Import Browser PriceChart.
Variable net : nat → N * reply.

Implicit Types (w : world) (e : task handler).

Ltac js_unfold :=
  cbv [exec async run_handler handle_task fetchChartData
       fetchChartData_resume fetchChartData_catch fetchRealChartData effect
       render_effects notify app_rendered onNotification
       setSelection setChartData setLoading setCurrentPrice setDataSource
       setState setTimeout enqueue emit mbind js_mbind mret js_mret
       js_bind js_ret js_try js_throw js_modify js_get set_now set_queue
       set_next_handle set_requests set_component set_cleanup
       set_notifications set_trace now queue next_handle requests
       component cleanup notifications trace snd fst].

Local Abbreviation invariant w :=
  (queue_ok maxRetries retryDelay retry_call w
   ∧ retry_discipline maxRetries retryDelay LogAttempt retry_call w
   ∧ chart_ok w).

(** The page has been rendered since its cells and props last changed. *)
Local Abbreviation rendered w :=
  (∀ s, component w = Some s →
     effect_deps s = Some (selectedCrypto s, timeRange s, app_render s)).

Lemma fetchRealChartData_resume_points r w :
  fetchRealChartData_resume r w
  = (match PriceChartTurn.reply_points r with
     | Some d => Normal d
     | None => Throw
     end, w).
Proof.
  destruct r as [|[|] [[[ps|] vs]|]]; try done. cbn.
  by destruct (forallb _ ps).
Qed.

Lemma exec_call_supported crypto range arg w :
  is_Some (rangeMapping range) →
  exec (async (fetchChartData net crypto range arg)) w
  = World (now w)
      (queue w ++
       [Task (next_handle w) (now w + Z.of_N (net (requests w)).1) None
          (ResumeFetchChartData crypto range (default (JsNumber 0) arg)
             (net (requests w)).2)])
      (S (next_handle w)) (S (requests w))
      ((λ s, State (selectedCrypto s) (timeRange s) (chartData s) true
               (currentPrice s) (dataSource s) (app_render s)
               (effect_deps s)) <$> component w)
      (cleanup w) (notifications w)
      ((now w, HttpGet (default (JsNumber 0) arg))
       :: (now w, LogAttempt (default (JsNumber 0) arg)) :: trace w).
Proof.
  intros [days Hdays]. destruct w as [t q h n [s|] cl ns tr];
    js_unfold; rewrite Hdays; by destruct (net n).
Qed.

Lemma exec_reply_received crypto range rc r d p w :
  PriceChartTurn.reply_points r = Some d → last d = Some p →
  exec (async (fetchChartData_resume crypto range rc r)) w
  = World (now w) (queue w) (next_handle w) (requests w)
      ((λ s, State (selectedCrypto s) (timeRange s) d false
               (Some (price p)) "real" (app_render s) (effect_deps s))
       <$> component w)
      (cleanup w) (notifications w) ((now w, LogFetched) :: trace w).
Proof.
  intros Hd Hp. destruct w as [t q h n [s|] cl ns tr]; js_unfold;
    rewrite fetchRealChartData_resume_points, Hd, Hp; done.
Qed.

Lemma exec_reply_retry crypto range rc r w :
  PriceChartTurn.failed r → js_lt rc maxRetries = true →
  exec (async (fetchChartData_resume crypto range rc r)) w
  = World (now w)
      (queue w ++
       [Task (next_handle w) (now w + retryDelay) None
          (CallFetchChartData crypto range (Some (js_succ rc)))])
      (S (next_handle w)) (requests w) (component w) (cleanup w)
      (notifications w)
      ((now w, LogRetrying rc) :: (now w, LogFetchError rc) :: trace w).
Proof.
  intros Hfail Hlt. destruct w as [t q h n c cl ns tr]. js_unfold.
  rewrite fetchRealChartData_resume_points.
  destruct Hfail as [-> | ->]; cbn; by rewrite Hlt.
Qed.

Lemma exec_reply_exhausted crypto range rc r w :
  PriceChartTurn.failed r → js_lt rc maxRetries = false →
  exec (async (fetchChartData_resume crypto range rc r)) w
  = World (now w) (queue w) (next_handle w) (requests w)
      ((λ s, State (selectedCrypto s) (timeRange s) [] false
               (currentPrice s) "error" (S (app_render s))
               (effect_deps s)) <$> component w)
      (cleanup w)
      (App.Notification (now w) (PriceChartTurn.warning crypto) "warning"
         (now w)
       :: take 4 (notifications w))
      ((now w, OnNotification (PriceChartTurn.warning crypto)
                 (Some "warning"))
       :: (now w, LogMaxRetries) :: (now w, LogFetchError rc) :: trace w).
Proof.
  intros Hfail Hlt. destruct w as [t q h n [s|] cl ns tr]; js_unfold;
    rewrite fetchRealChartData_resume_points;
    destruct Hfail as [-> | ->]; cbn; by rewrite Hlt.
Qed.

(** Rendering a page that has been rendered changes nothing. *)
Lemma render_rendered w :
  rendered w → exec (render_effects net) w = w.
Proof.
  intros Hw. destruct w as [t q h n [s|] cl ns tr]; [|done].
  unfold exec, render_effects, mbind, js_mbind, js_bind, js_get.
  cbn [component]. by rewrite decide_True by by apply Hw.
Qed.

Lemma call_None_component crypto range w :
  component (exec (async (fetchChartData net crypto range None)) w)
  = (λ s, State (selectedCrypto s) (timeRange s) (chartData s) true
            (currentPrice s) (dataSource s) (app_render s)
            (effect_deps s)) <$> component w.
Proof.
  destruct w as [t q h n [s|] cl ns tr]; js_unfold;
    destruct (rangeMapping range); cbn; by destruct (net n).
Qed.

(** After rendering, the page has been rendered. *)
Lemma rendered_render w : rendered (exec (render_effects net) w).
Proof.
  destruct w as [t q h n [s|] cl ns tr]; [|done].
  destruct (decide (effect_deps s
                    = Some (selectedCrypto s, timeRange s, app_render s)))
    as [Heq|Hne].
  - rewrite render_rendered; [|by intros ? [= <-]]. by intros ? [= <-].
  - set (s' := State (selectedCrypto s) (timeRange s) (chartData s)
                 (loading s) (currentPrice s) (dataSource s) (app_render s)
                 (Some (selectedCrypto s, timeRange s, app_render s))).
    assert (exec (render_effects net) (World t q h n (Some s) cl ns tr)
            = exec (async (fetchChartData net (selectedCrypto s)
                             (timeRange s) None))
                (World t q h n (Some s') cl ns ((t, EffectRan) :: tr)))
      as ->.
    { unfold exec, render_effects, mbind, js_mbind, js_bind, js_get.
      cbn [component]. by rewrite decide_False by done. }
    rewrite call_None_component. cbn. by intros ? [= <-].
Qed.

(** The turn that runs a call of [fetchChartData] by a timer. *)
Lemma chart_turn_call w e rest crypto range arg w' :
  chart_ok w → rendered w →
  pop (queue w) = Some (e, rest) →
  callback e = CallFetchChartData crypto range arg →
  is_Some (rangeMapping range) →
  turn (run_handler net) w = Some w' →
  w' = PriceChartTurn.request_sent net w e rest crypto range
         (default (JsNumber 0) arg).
Proof.
  intros [_ Htim] Hw Hpop Hcb Hrange. rewrite turn_run_handler.
  destruct (turn (handle_task net) w) as [w1|] eqn:Hturn; [|done].
  intros [= <-]. apply turn_unfold in Hturn as (e' & rest' & Hpop' & ->).
  rewrite Hpop in Hpop'. injection Hpop' as <- <-. rewrite Hcb.
  assert (period e = None) as Hp.
  { eapply Forall_forall in Htim; [done|].
    apply (elem_of_pop _ _ _ _ Hpop). by left. }
  destruct (rearm_timer e rest Hp) as [-> ->]. cbn [handle_task app].
  rewrite exec_call_supported by done. fields.
  apply render_rendered. intros s Hs.
  unfold PriceChartTurn.request_sent in Hs. cbn [component] in Hs.
  destruct (component w) as [s0|] eqn:Hs0; cbn in Hs; [|done].
    injection Hs as <-.
  cbn. by apply Hw.
Qed.

(** The turns that run the rest of [fetchChartData]. *)
Lemma chart_turn_reply w e rest crypto range rc r w' :
  chart_ok w → rendered w →
  pop (queue w) = Some (e, rest) →
  callback e = ResumeFetchChartData crypto range rc r →
  turn (run_handler net) w = Some w' →
  (∀ d p, PriceChartTurn.reply_points r = Some d → last d = Some p →
     w' = PriceChartTurn.received w e rest d p)
  ∧ (PriceChartTurn.failed r →
     w' = if js_lt rc maxRetries
          then PriceChartTurn.retry_set w e rest crypto range
                 (match rc with JsNumber k => k | JsOther => 0%nat end)
          else exec (render_effects net)
                 (PriceChartTurn.warned w e rest crypto rc)).
Proof.
  intros [_ Htim] Hw Hpop Hcb. rewrite turn_run_handler.
  destruct (turn (handle_task net) w) as [w1|] eqn:Hturn; [|done].
  intros [= <-]. apply turn_unfold in Hturn as (e' & rest' & Hpop' & ->).
  rewrite Hpop in Hpop'. injection Hpop' as <- <-. rewrite Hcb.
  assert (period e = None) as Hp.
  { eapply Forall_forall in Htim; [done|].
    apply (elem_of_pop _ _ _ _ Hpop). by left. }
  destruct (rearm_timer e rest Hp) as [-> ->]. cbn [handle_task app].
  split.
  - intros d p Hd Hlast. rewrite (exec_reply_received _ _ _ _ d p) by done.
    fields. apply render_rendered. intros s Hs.
    unfold PriceChartTurn.received in Hs. cbn [component] in Hs.
    destruct (component w) as [s0|] eqn:Hs0; cbn in Hs; [|done].
    injection Hs as <-.
    cbn. by apply Hw.
  - intros Hfail. destruct (js_lt rc maxRetries) eqn:Hlt.
    + rewrite exec_reply_retry by done. fields.
      destruct rc as [k|]; [|done]. by apply render_rendered.
    + by rewrite exec_reply_exhausted.
Qed.

(** Every page that a step leads to has been rendered. *)
Lemma step_rendered w a w' : step net w a = Some w' → rendered w'.
Proof.
  destruct a as [|t|t crypto range|t|t]; cbn [step].
  - rewrite turn_run_handler.
    destruct (turn (handle_task net) w) as [w1|]; [|done].
    intros [= <-]. apply rendered_render.
  - destruct (component w) as [s|]; [|done]. destruct (loading s); [done|].
    destruct (at_time t w) as [w1|]; [|done]. intros [= <-].
    rewrite exec_then by apply async_normal. apply rendered_render.
  - destruct (component w) as [s|]; [|done].
    destruct (at_time t w) as [w1|]; [|done]. intros [= <-].
    rewrite exec_then by apply setState_normal. apply rendered_render.
  - destruct (component w) as [s|]; [|done].
    destruct (at_time t w) as [w1|]; [|done]. intros [= <-].
    rewrite exec_then by apply setState_normal. apply rendered_render.
  - destruct (component w) as [s|]; [|done].
    destruct (at_time t w) as [w1|]; [|done]. by intros [= <-].
Qed.

Lemma run_rendered w acts w' :
  rendered w → run (step net) w acts = Some w' → rendered w'.
Proof.
  revert w. induction acts as [|a acts IH]; intros w Hw; cbn [run].
  - by intros [= <-].
  - destruct (step net w a) as [w1|] eqn:Hstep; [|done]. cbn.
    apply IH. by eapply step_rendered.
Qed.

(** Every reply that is waited for belongs to a request with a counted
[retryCount]. *)
Local Abbreviation task_counted :=
  (λ e : task handler,
     ∀ crypto range rc r,
       callback e = ResumeFetchChartData crypto range rc r →
       counted maxRetries rc).

Lemma call_counted crypto range arg w :
  Forall task_counted (queue w) →
  counted maxRetries (default (JsNumber 0) arg) →
  Forall task_counted
    (queue (exec (async (fetchChartData net crypto range arg)) w)).
Proof.
  intros Hq Harg.
  destruct (exec_fetchChartData net crypto range arg w)
    as (c & _ & [[_ ->]|[[_ ->]|(_ & msg & ns & ->)]]); fields; [| |done].
  - apply Forall_app. split; [done|]. apply Forall_singleton.
    by intros ? ? ? ? [= <- <- <- <-].
  - apply Forall_app. split; [done|]. by apply Forall_singleton.
Qed.

Lemma reply_counted crypto range rc r w :
  Forall task_counted (queue w) →
  Forall task_counted
    (queue (exec (async (fetchChartData_resume crypto range rc r)) w)).
Proof.
  intros Hq.
  destruct (exec_fetchChartData_resume crypto range rc r w)
    as (c & _ & [->|[[_ ->]|(_ & msg & ns & ->)]]); fields; [done| |done].
  apply Forall_app. split; [done|]. by apply Forall_singleton.
Qed.

Lemma render_counted w :
  Forall task_counted (queue w) →
  Forall task_counted (queue (exec (render_effects net) w)).
Proof.
  intros Hq.
  destruct (exec_render_effects net w) as [->|(s & s' & Hs & ->)]; [done|].
  apply call_counted; [done|]. cbn. lia.
Qed.

Lemma chart_step_counted w a w' :
  invariant w → Forall task_counted (queue w) →
  step net w a = Some w' → Forall task_counted (queue w').
Proof.
  intros (Hq & _ & [_ Htim]) Hcount.
  destruct a as [|t|t crypto range|t|t]; cbn [step].
  - rewrite turn_run_handler.
    destruct (turn (handle_task net) w) as [w1|] eqn:Hturn; [|done].
    intros [= <-]. apply render_counted.
    apply turn_unfold in Hturn as (e & rest & Hpop & ->).
    assert (e ∈ queue w) as He by (apply (elem_of_pop _ _ _ _ Hpop); by left).
    assert (period e = None) as Hp by by eapply Forall_forall in Htim.
    destruct (rearm_timer e rest Hp) as [-> ->]. cbn [app].
    assert (Forall task_counted rest) as Hrest.
    { apply Forall_forall. intros x Hx. eapply Forall_forall in Hcount; [done|].
      apply (elem_of_pop _ _ _ _ Hpop). by right. }
    destruct (callback e) as [crypto range arg|crypto range rc r] eqn:Hcb;
      cbn [handle_task].
    + apply call_counted; [done|].
      destruct (pending_retries _ _ _ _ Hq e arg He Hp)
        as (k & -> & Hk & _); [by rewrite Hcb|].
      cbn. unfold maxRetries in *. lia.
    + by apply reply_counted.
  - destruct (component w) as [s|]; [|done]. destruct (loading s); [done|].
    destruct (at_time t w) as [w1|] eqn:Hat; [|done]. intros [= <-].
    apply at_time_spec in Hat as ->.
    rewrite exec_then by apply async_normal.
    by apply render_counted, call_counted.
  - destruct (component w) as [s|]; [|done].
    destruct (at_time t w) as [w1|] eqn:Hat; [|done]. intros [= <-].
    apply at_time_spec in Hat as ->.
    rewrite exec_then by apply setState_normal.
    apply render_counted. by destruct w.
  - destruct (component w) as [s|]; [|done].
    destruct (at_time t w) as [w1|] eqn:Hat; [|done]. intros [= <-].
    apply at_time_spec in Hat as ->.
    rewrite exec_then by apply setState_normal.
    apply render_counted. by destruct w.
  - destruct (component w) as [s|]; [|done].
    destruct (at_time t w) as [w1|] eqn:Hat; [|done]. intros [= <-].
    apply at_time_spec in Hat as ->. by destruct w.
Qed.

Lemma chart_run_counted w acts w' :
  invariant w → Forall task_counted (queue w) →
  run (step net) w acts = Some w' → Forall task_counted (queue w').
Proof.
  revert w. induction acts as [|a acts IH]; intros w Hinv Hcount; cbn [run].
  - by intros [= <-].
  - destruct (step net w a) as [w1|] eqn:Hstep; [|done]. cbn.
    apply IH; [by eapply chart_step_invariant|by eapply chart_step_counted].
Qed.

Lemma chart_mount_counted t0 ns :
  Forall task_counted (queue (mount net t0 ns)).
Proof. unfold mount. apply render_counted. constructor. Qed.

Lemma chart_mount_rendered t0 ns : rendered (mount net t0 ns).
Proof. unfold mount. apply rendered_render. Qed.

End PriceChartTurnFacts.

(** ** The retry loops *)

Section RetryClaims.
Import Browser.

(** C5. On every page the dashboard reaches: every reply that is waited
for belongs to a request whose [retryCount] is a number up to 5 (or the
click event); the turn in which a timer calls [fetchPrices] sends the
request; the turn in which the request numbered [k] is found to have
failed sets, for [k < 5], a timer that calls [fetchPrices(k + 1)] 2000 ms
later and, for [k = 5], puts the warning on top of the notifications and
sets nothing, and nothing is thrown in either; the turn in which the reply
has come shows the prices; and while the component is mounted the refresh
timer is pending, so that the next chain starts with its firing. The same
holds for the chart, with 3000 ms, with the attempts as they are logged,
and with no timer but those of the retries; after its warning the page is
rendered. *)
Theorem failed_fetch_is_retried_five_times_then_warned :
  (∀ (net : nat → N * settlement Dashboard.prices) (t0 : Z)
     (ns : list App.notification) (acts : list Dashboard.action)
     (w : Dashboard.world),
     run (Dashboard.step net) (Dashboard.mount net t0 ns) acts = Some w →
     retry_discipline 5 2000 HttpGet Dashboard.retry_call w
     ∧ (∀ t n, (t, HttpGet (JsNumber n)) ∈ trace w → (n ≤ 5)%nat)
     ∧ (∀ e rc r, e ∈ queue w →
          callback e = Dashboard.ResumeFetchPrices rc r → counted 5 rc)
     ∧ (is_Some (component w) →
        ∃ e, e ∈ queue w ∧ period e = Some 30000
             ∧ callback e = Dashboard.CallFetchPrices None)
     ∧ ∀ e rest w',
         pop (queue w) = Some (e, rest) →
         Dashboard.step net w Dashboard.Turn = Some w' →
         (∀ arg, callback e = Dashboard.CallFetchPrices arg →
            w' = DashboardTurn.request_sent net w e rest
                   (default (JsNumber 0) arg))
         ∧ (∀ k, callback e
                 = Dashboard.ResumeFetchPrices (JsNumber k) Rejected →
                 (k < 5)%nat → w' = DashboardTurn.retry_set w e rest k)
         ∧ (callback e = Dashboard.ResumeFetchPrices (JsNumber 5) Rejected →
            w' = DashboardTurn.warned w e rest (JsNumber 5))
         ∧ (∀ rc d, callback e
                    = Dashboard.ResumeFetchPrices rc (Fulfilled d) →
                    w' = DashboardTurn.received w e rest d))
  ∧ (∀ (net : nat → N * PriceChart.reply) (t0 : Z)
       (ns : list App.notification) (acts : list PriceChart.action)
       (w : PriceChart.world),
       run (PriceChart.step net) (PriceChart.mount net t0 ns) acts = Some w →
       retry_discipline 5 3000 LogAttempt PriceChart.retry_call w
       ∧ (∀ t n, (t, LogAttempt (JsNumber n)) ∈ trace w → (n ≤ 5)%nat)
       ∧ (∀ e crypto range rc r, e ∈ queue w →
            callback e = PriceChart.ResumeFetchChartData crypto range rc r →
            counted 5 rc)
       ∧ PriceChart.chart_ok w
       ∧ ∀ e rest w',
           pop (queue w) = Some (e, rest) →
           PriceChart.step net w PriceChart.Turn = Some w' →
           (∀ crypto range arg,
              callback e = PriceChart.CallFetchChartData crypto range arg →
              is_Some (PriceChart.rangeMapping range) →
              w' = PriceChartTurn.request_sent net w e rest crypto range
                     (default (JsNumber 0) arg))
           ∧ (∀ crypto range k r,
                callback e
                = PriceChart.ResumeFetchChartData crypto range (JsNumber k) r →
                PriceChartTurn.failed r → (k < 5)%nat →
                w' = PriceChartTurn.retry_set w e rest crypto range k)
           ∧ (∀ crypto range r,
                callback e
                = PriceChart.ResumeFetchChartData crypto range (JsNumber 5) r →
                PriceChartTurn.failed r →
                w' = exec (PriceChart.render_effects net)
                       (PriceChartTurn.warned w e rest crypto (JsNumber 5)))
           ∧ (∀ crypto range rc r d p,
                callback e
                = PriceChart.ResumeFetchChartData crypto range rc r →
                PriceChartTurn.reply_points r = Some d → last d = Some p →
                w' = PriceChartTurn.received w e rest d p)).
Proof.
  split.
  - intros net t0 ns acts w Hrun.
    pose proof (run_invariant net _ acts w (mount_invariant net t0 ns) Hrun)
      as (Hq & Hd & Hr).
    split_and!; [done| | | |].
    + intros t n. by apply (attempts_capped _ _ _ _ _ _ _ Hd).
    + eapply run_replies_counted;
        [apply mount_invariant|apply mount_replies_counted|done].
    + intros [s Hs]. pose proof (Dashboard.interval_pending _ Hr) as Hi.
      rewrite Hs in Hi. destruct Hi as (e & Hi & ? & ? & _).
      exists e. split; [|done].
      apply (elem_of_intervals e (queue w)). rewrite Hi. left.
    + intros e rest w' Hpop Hturn. cbn [Dashboard.step] in Hturn.
      split_and!.
      * intros arg Hcb. by eapply turn_call.
      * intros k Hcb Hk.
        rewrite (turn_reply net w e rest _ _ w' Hr Hpop Hcb Hturn).
        by rewrite decide_True.
      * intros Hcb.
        rewrite (turn_reply net w e rest _ _ w' Hr Hpop Hcb Hturn).
        by rewrite decide_False by (unfold Dashboard.maxRetries; lia).
      * intros rc d Hcb.
        by rewrite (turn_reply net w e rest _ _ w' Hr Hpop Hcb Hturn).
  - intros net t0 ns acts w Hrun.
    pose proof (chart_run_invariant net _ acts w
                  (chart_mount_invariant net t0 ns) Hrun) as (Hq & Hd & Hc).
    pose proof (run_rendered net _ acts w (chart_mount_rendered net t0 ns)
                  Hrun) as Hw.
    split_and!; [done| | |done|].
    + intros t n. by apply (attempts_capped _ _ _ _ _ _ _ Hd).
    + intros e crypto range rc r He.
      pose proof (chart_run_counted net _ acts w
                    (chart_mount_invariant net t0 ns)
                    (chart_mount_counted net t0 ns) Hrun) as Hcount.
      eapply Forall_forall in Hcount; [|done]. apply Hcount.
    + intros e rest w' Hpop Hturn. cbn [PriceChart.step] in Hturn.
      split_and!.
      * intros crypto range arg Hcb Hrange. by eapply chart_turn_call.
      * intros crypto range k r Hcb Hfail Hk.
        destruct (chart_turn_reply net w e rest _ _ _ _ w' Hc Hw Hpop Hcb
                    Hturn) as [_ Hf].
        rewrite (Hf Hfail). cbn. by rewrite bool_decide_eq_true_2.
      * intros crypto range r Hcb Hfail.
        destruct (chart_turn_reply net w e rest _ _ _ _ w' Hc Hw Hpop Hcb
                    Hturn) as [_ Hf].
        by rewrite (Hf Hfail).
      * intros crypto range rc r d p Hcb Hd' Hp.
        destruct (chart_turn_reply net w e rest _ _ _ _ w' Hc Hw Hpop Hcb
                    Hturn) as [Hrec _].
        by apply Hrec.
Qed.

End RetryClaims.

Section RetryScenarios.
Import Browser.

(** The first request is answered, then the server is down. The user
clicks Refresh at 500 ms: the request fails at 600 ms and is answered with
the warning at once; no retry is announced and none is pending. And on the
chart, with the server down from the start, the sixth request fails at
15600 ms; the warning makes [App] render, the effect runs again, and a
seventh request leaves in the same turn. *)
Lemma refresh_click_is_not_retried_and_chart_restarts :
  (let net : nat → N * settlement Dashboard.prices :=
     λ k, if decide (k = 0)%nat then (100%N, Fulfilled ∅)
          else (100%N, Rejected) in
   ∃ w, run (Dashboard.step net) (Dashboard.mount net 0 [])
          [Dashboard.Turn; Dashboard.ClickRefresh 500; Dashboard.Turn]
        = Some w
        ∧ trace w
          = [(600, OnNotification DashboardTurn.warning (Some "warning"));
             (600, LogMaxRetries); (600, LogFetchError JsOther);
             (500, HttpGet JsOther); (100, LogFetched);
             (0, HttpGet (JsNumber 0)); (0, EffectRan)]
        ∧ queue w
          = [Task 1 30000 (Some 30000) (Dashboard.CallFetchPrices None)])
  ∧ (let net : nat → N * PriceChart.reply :=
       λ _, (100%N, PriceChart.NetworkError) in
     ∃ w, run (PriceChart.step net) (PriceChart.mount net 0 [])
            (replicate 11 PriceChart.Turn)
          = Some w
          ∧ requests w = 7%nat
          ∧ take 6 (trace w)
            = [(15600, HttpGet (JsNumber 0));
               (15600, LogAttempt (JsNumber 0)); (15600, EffectRan);
               (15600, OnNotification (PriceChartTurn.warning "BTC")
                         (Some "warning"));
               (15600, LogMaxRetries);
               (15600, LogFetchError (JsNumber 5))]
          ∧ queue w
            = [Task 11 15700 None
                 (PriceChart.ResumeFetchChartData "BTC" "24h" (JsNumber 0)
                    PriceChart.NetworkError)]).
Proof.
  split.
  - intros net. eexists. split; [vm_compute; reflexivity|].
    split; vm_compute; reflexivity.
  - intros net. eexists. split; [vm_compute; reflexivity|].
    split_and!; vm_compute; reflexivity.
Qed.

(** The server is down. On the dashboard, mounted at 0, the tenth turn
leaves the reply to the request numbered 5 waited for; the next turn finds
it failed, at 10600 ms, and posts the warning. On the chart the first turn
finds the first request failed, at 100 ms, and sets the timer for the
retry numbered 1, due at 3100 ms; the eleventh finds the request numbered
5 failed, at 15600 ms, and posts the warning, and the page is rendered. *)
Lemma failed_fetch_is_retried_five_times_then_warned_witness :
  (let net : nat → N * settlement Dashboard.prices :=
     λ _, (100%N, Rejected) in
   ∃ w e rest w',
     run (Dashboard.step net) (Dashboard.mount net 0 [])
       (replicate 10 Dashboard.Turn) = Some w
     ∧ pop (queue w) = Some (e, rest)
     ∧ callback e = Dashboard.ResumeFetchPrices (JsNumber 5) Rejected
     ∧ Dashboard.step net w Dashboard.Turn = Some w'
     ∧ w' = DashboardTurn.warned w e rest (JsNumber 5)
     ∧ notifications w'
       = [App.Notification 10600 DashboardTurn.warning "warning" 10600]
     ∧ queue w'
       = [Task 1 30000 (Some 30000) (Dashboard.CallFetchPrices None)])
  ∧ (let net : nat → N * PriceChart.reply :=
       λ _, (100%N, PriceChart.NetworkError) in
     ∃ e rest w',
       let w := PriceChart.mount net 0 [] in
       pop (queue w) = Some (e, rest)
       ∧ callback e
         = PriceChart.ResumeFetchChartData "BTC" "24h" (JsNumber 0)
             PriceChart.NetworkError
       ∧ PriceChart.step net w PriceChart.Turn = Some w'
       ∧ w' = PriceChartTurn.retry_set w e rest "BTC" "24h" 0
       ∧ queue w'
         = [Task 1 3100 None
              (PriceChart.CallFetchChartData "BTC" "24h"
                 (Some (JsNumber 1)))])
  ∧ (let net : nat → N * PriceChart.reply :=
       λ _, (100%N, PriceChart.NetworkError) in
     ∃ w e rest w',
       run (PriceChart.step net) (PriceChart.mount net 0 [])
         (replicate 10 PriceChart.Turn) = Some w
       ∧ pop (queue w) = Some (e, rest)
       ∧ callback e
         = PriceChart.ResumeFetchChartData "BTC" "24h" (JsNumber 5)
             PriceChart.NetworkError
       ∧ PriceChart.step net w PriceChart.Turn = Some w'
       ∧ w' = exec (PriceChart.render_effects net)
                (PriceChartTurn.warned w e rest "BTC" (JsNumber 5))
       ∧ notifications w'
         = [App.Notification 15600 (PriceChartTurn.warning "BTC")
              "warning" 15600]).
Proof.
  destruct failed_fetch_is_retried_five_times_then_warned as [HD HC].
  split; [|split].
  - intros net.
    eassert (run (Dashboard.step net) (Dashboard.mount net 0 [])
               (replicate 10 Dashboard.Turn) = Some _) as Hrun
      by (vm_compute; reflexivity).
    match type of Hrun with _ = Some ?w0 => set (w := w0) in * end.
    eassert (pop (queue w) = Some (_, _)) as Hpop
      by (vm_compute; reflexivity).
    match type of Hpop with
    | _ = Some (?e0, ?r0) => set (e := e0) in *; set (rest := r0) in *
    end.
    eassert (Dashboard.step net w Dashboard.Turn = Some _) as Hstep
      by (vm_compute; reflexivity).
    match type of Hstep with _ = Some ?w0 => set (w' := w0) in * end.
    exists w, e, rest, w'.
    destruct (HD net 0 [] _ w Hrun) as (_ & _ & _ & _ & HT).
    destruct (HT e rest w' Hpop Hstep) as (_ & _ & Hw & _).
    split; [exact Hrun|]. split; [exact Hpop|]. split; [reflexivity|].
    split; [exact Hstep|]. split; [by apply Hw|].
    split; vm_compute; reflexivity.
  - intros net.
    eassert (pop (queue (PriceChart.mount net 0 [])) = Some (_, _)) as Hpop
      by (vm_compute; reflexivity).
    match type of Hpop with
    | _ = Some (?e0, ?r0) => set (e := e0) in *; set (rest := r0) in *
    end.
    eassert (PriceChart.step net (PriceChart.mount net 0 []) PriceChart.Turn
             = Some _) as Hstep
      by (vm_compute; reflexivity).
    match type of Hstep with _ = Some ?w0 => set (w' := w0) in * end.
    exists e, rest, w'. cbn zeta.
    destruct (HC net 0 [] [] _ eq_refl) as (_ & _ & _ & _ & HT).
    destruct (HT e rest w' Hpop Hstep) as (_ & Hw & _).
    split; [exact Hpop|]. split; [reflexivity|].
    split; [exact Hstep|]. split; [|vm_compute; reflexivity].
    apply (Hw "BTC" "24h" 0%nat PriceChart.NetworkError);
      [reflexivity|by left|lia].
  - intros net.
    eassert (run (PriceChart.step net) (PriceChart.mount net 0 [])
               (replicate 10 PriceChart.Turn) = Some _) as Hrun
      by (vm_compute; reflexivity).
    match type of Hrun with _ = Some ?w0 => set (w := w0) in * end.
    eassert (pop (queue w) = Some (_, _)) as Hpop
      by (vm_compute; reflexivity).
    match type of Hpop with
    | _ = Some (?e0, ?r0) => set (e := e0) in *; set (rest := r0) in *
    end.
    eassert (PriceChart.step net w PriceChart.Turn = Some _) as Hstep
      by (vm_compute; reflexivity).
    match type of Hstep with _ = Some ?w0 => set (w' := w0) in * end.
    exists w, e, rest, w'.
    destruct (HC net 0 [] _ w Hrun) as (_ & _ & _ & _ & HT).
    destruct (HT e rest w' Hpop Hstep) as (_ & _ & Hw & _).
    split; [exact Hrun|]. split; [exact Hpop|]. split; [reflexivity|].
    split; [exact Hstep|]. split; [|vm_compute; reflexivity].
    apply (Hw "BTC" "24h" PriceChart.NetworkError); [reflexivity|by left].
Defined.

End RetryScenarios.

(** * Further properties of the client and of the security notes *)

(** ** What the page shows of the notifications *)

Section AppViewFacts.
Import App.

Lemma perform_no_error prev c :
  Forall (λ n, type n ≠ "error") prev →
  Forall (λ n, type n ≠ "error") (perform prev c).
Proof.
  intros Hprev. destruct c as [d n m ty|i]; cbn [perform].
  - unfold addNotification. case_decide; [done|].
    constructor; [done|]. by apply Forall_take.
  - apply Forall_forall. intros x [_ Hx]%list_elem_of_filter.
    by eapply Forall_forall in Hprev.
Qed.

Lemma notifications_after_no_error cs :
  Forall (λ n, type n ≠ "error") (notifications_after cs).
Proof.
  induction cs as [|c cs IH] using rev_ind; [constructor|].
  rewrite notifications_after_snoc. by apply perform_no_error.
Qed.


End AppViewFacts.

(** X1. Whatever calls of [addNotification] and [removeNotification]
    have been made, no notification of the list has type ['error']: the
    red colours and the X icon that the markup provides for that type are
    never rendered. *)
Theorem error_notifications_are_never_rendered :
  ∀ cs : list App.call,
    Forall (λ n, App.type n ≠ "error"
                 ∧ AppView.notification_class (App.type n)
                   ≠ "bg-red-500 text-white"
                 ∧ AppView.X ∉ AppView.notification_icons (App.type n))
           (App.notifications_after cs).
Proof.
  intros cs. eapply Forall_impl; [apply notifications_after_no_error|].
  intros n Hty. cbn beta. split; [done|].
  unfold AppView.notification_class, AppView.notification_icons.
  repeat case_decide; try done; split; try done;
    intros Hin; in_list Hin.
Qed.

(** X2. [removeNotification(id)] takes out every notification with that
    [id] (two made in the same millisecond share one) and keeps every other
    one; doing it twice is doing it once, and two removals commute. *)
Theorem removeNotification_removes_that_id :
  ∀ (i j : Z) (prev : list App.notification),
    (∀ n, n ∈ App.removeNotification i prev ↔ n ∈ prev ∧ App.id n ≠ i)
    ∧ length prev
      = (length (App.removeNotification i prev)
         + length (filter (λ n, App.id n = i) prev))%nat
    ∧ App.removeNotification i (App.removeNotification i prev)
      = App.removeNotification i prev
    ∧ App.removeNotification i (App.removeNotification j prev)
      = App.removeNotification j (App.removeNotification i prev).
Proof.
  intros i j prev. unfold App.removeNotification. split_and!.
  - intros n. rewrite list_elem_of_filter. tauto.
  - induction prev as [|n prev IH]; [done|].
    rewrite !filter_cons. destruct (decide (App.id n = i)).
    + rewrite decide_False by tauto. cbn [length]. lia.
    + rewrite decide_True by done. cbn [length]. lia.
  - induction prev as [|n prev IH]; [done|].
    rewrite filter_cons. case_decide; [|done].
    rewrite filter_cons, decide_True by done. by f_equal.
  - rewrite !list_filter_filter. apply list_filter_iff. tauto.
Qed.


(** ** The symbol check on any input *)

Section SecurityMoreFacts.
Import Security.

Lemma ascii_letters_alnum s :
  Forall (λ c, ascii_isletter c = true) s → forallb ascii_isalnum s = true.
Proof.
  induction 1 as [|c s Hc _ IH]; [done|].
  cbn [forallb]. rewrite IH. unfold ascii_isalnum. by rewrite Hc.
Qed.

End SecurityMoreFacts.

(** X4. Whatever the Unicode tables say, [validate_crypto_symbol] turns
    down what is not a string, the empty string and every string of more
    than ten characters; and an ASCII string it accepts is one the
    documented rule (letters or digits, at most ten) accepts as well. *)
Theorem validate_crypto_symbol_is_strict :
  ∀ (unicode_isalpha : N → bool) (unicode_upper : N → list N),
    let validate :=
      Security.validate_crypto_symbol unicode_isalpha unicode_upper in
    (∀ truthy, validate (Security.PyOther truthy) = false)
    ∧ validate (Security.PyStr []) = false
    ∧ (∀ s, (10 < length s)%nat → validate (Security.PyStr s) = false)
    ∧ (∀ s, Forall (λ c, (c < 128)%N) s →
            validate (Security.PyStr s) = true →
            Security.documented_symbol_ok (Security.PyStr s) = true).
Proof.
  intros ia up validate. split_and!.
  - done.
  - done.
  - intros [|c s] Hlen; [done|]. unfold validate. cbn.
    rewrite bool_decide_eq_false_2 by (cbn in Hlen; lia).
    apply andb_false_r.
  - intros s Hascii Hok.
    apply validate_crypto_symbol_ascii in Hok as (Hne & Hall & Hlen);
      [|done].
    destruct s as [|c s]; [done|]. unfold Security.documented_symbol_ok.
    rewrite ascii_letters_alnum by done.
    by rewrite bool_decide_eq_true_2.
Qed.

(** ** The frontend snippets *)

Section FrontendFacts.
Import Frontend.

Lemma substring_drop (p rest : string) :
  substring (String.length p) (p +:+ rest) = rest.
Proof.
  unfold substring. induction p as [|c p IH].
  - change (EmptyString +:+ rest) with rest. cbn [String.length].
    rewrite Nat.sub_0_r. induction rest as [|c rest IH]; [done|].
    cbn. by rewrite IH.
  - change (String c p +:+ rest) with (String c (p +:+ rest)).
    cbn [String.length String.substring]. exact IH.
Qed.

End FrontendFacts.

(** X5. The sanitised input holds no [<] and no [>]; it is the input
    with characters taken out, and the input itself exactly when that
    holds none of the two; sanitising twice changes nothing more, and the
    pieces of a concatenation are sanitised one by one. *)
Theorem sanitizedInput_strips_angle_brackets :
  ∀ input other : Frontend.js_string,
    let out := Frontend.sanitizedInput input in
    (60%N ∉ out) ∧ (62%N ∉ out)
    ∧ out `sublist_of` input
    ∧ (∀ c, c ≠ 60%N → c ≠ 62%N → c ∈ input → c ∈ out)
    ∧ (out = input ↔ (60%N ∉ input) ∧ (62%N ∉ input))
    ∧ Frontend.sanitizedInput out = out
    ∧ Frontend.sanitizedInput (input ++ other)
      = out ++ Frontend.sanitizedInput other.
Proof.
  intros input other out. subst out. unfold Frontend.sanitizedInput.
  split_and!.
  - intros [[? _] _]%list_elem_of_filter. done.
  - intros [[_ ?] _]%list_elem_of_filter. done.
  - apply sublist_filter.
  - intros c ? ? Hin. by apply list_elem_of_filter.
  - split.
    + intros Heq. rewrite <- Heq. split.
      * intros [[? _] _]%list_elem_of_filter. done.
      * intros [[_ ?] _]%list_elem_of_filter. done.
    + intros [H60 H62]. induction input as [|c input IH]; [done|].
      apply not_elem_of_cons in H60 as [? H60].
      apply not_elem_of_cons in H62 as [? H62].
      rewrite filter_cons_True by done. f_equal. by apply IH.
  - induction input as [|c input IH]; [done|].
    rewrite filter_cons. case_decide; [|done].
    rewrite filter_cons, decide_True by done. by f_equal.
  - apply filter_app.
Qed.

(** X6. The HTTPS enforcement redirects only a production build that was
    not loaded over HTTPS; the address it goes to is the address of the
    page with the scheme replaced by [https:], and on the page loaded
    from there it does not redirect again. *)
Theorem https_redirect_replaces_the_scheme :
  ∀ (node_env protocol rest : string),
    let href := protocol +:+ rest in
    (node_env ≠ "production" →
     Frontend.https_redirect node_env protocol href = None)
    ∧ Frontend.https_redirect node_env "https:" ("https:" +:+ rest)
      = None
    ∧ (node_env = "production" → protocol ≠ "https:" →
       Frontend.https_redirect node_env protocol href
       = Some ("https:" +:+ rest)).
Proof.
  intros node_env protocol rest href. unfold Frontend.https_redirect.
  split_and!.
  - intros Hne. rewrite decide_False; [done|]. tauto.
  - rewrite decide_False; [done|]. tauto.
  - intros Hprod Hp. rewrite decide_True by done.
    unfold href. by rewrite substring_drop.
Qed.

Lemma https_redirect_replaces_the_scheme_witness :
  Frontend.https_redirect "production" "http:"
    "http://localhost:3000/alerts"
  = Some "https://localhost:3000/alerts".
Proof.
  apply (https_redirect_replaces_the_scheme "production" "http:"
           "//localhost:3000/alerts"); [reflexivity|discriminate].
Defined.

(** ** Dashboard: prices, time of the last update, spinner *)

Section DashboardPageFacts.
Import Browser Dashboard DashboardPage.
Variable net : nat → N * settlement prices.

Implicit Types (w : world) (e : task handler).

(** Running a callback whose reply, if it waits for one, came from the
server. *)
Lemma handler_display_ok h w :
  display_ok net w →
  (∀ rc r, h = ResumeFetchPrices rc r →
     ∃ k, (k < requests w)%nat ∧ (net k).2 = r) →
  display_ok net (exec (run_handler net h) w).
Proof.
  intros [Hrep Hlast Hload Hprices] Hh.
  destruct h as [arg|rc [d|]]; cbn [run_handler].
  - rewrite exec_fetchPrices. split; fields.
    + intros e rc r [He|He]%elem_of_app Hcb.
      * destruct (Hrep e rc r He Hcb) as (k & ? & ?). exists k.
        split; [lia|done].
      * apply list_elem_of_singleton in He as ->. cbn in Hcb.
        injection Hcb as <- <-. exists (requests w). split; [lia|done].
    + done.
    + done.
    + intros s Hs. specialize (Hprices s Hs).
      destruct (lastUpdate s); [|done].
      destruct Hprices as (k & ? & ?). exists k. split; [lia|done].
  - rewrite exec_resume_fulfilled_state. split; fields.
    + done.
    + intros s Hs. destruct (component w); [|done]. by injection Hs as <-.
    + intros s Hs. destruct (component w); [|done]. by injection Hs as <-.
    + intros s Hs. destruct (component w); [|done]. injection Hs as <-.
      cbn. by apply (Hh rc).
  - destruct (js_lt rc maxRetries) eqn:Hlt.
    + rewrite exec_resume_retry by done. split; fields.
      * intros e rc' r [He|He]%elem_of_app Hcb; [by eapply Hrep|].
        by apply list_elem_of_singleton in He as ->.
      * done.
      * done.
      * done.
    + rewrite exec_resume_exhausted_state by done. split; fields.
      * done.
      * intros s Hs. destruct (component w) as [s0|]; [|done].
        injection Hs as <-. cbn. by apply Hlast.
      * intros s Hs. destruct (component w) as [s0|]; [|done].
        by injection Hs as <-.
      * intros s Hs. destruct (component w) as [s0|]; [|done].
        injection Hs as <-. cbn. by apply (Hprices s0).
Qed.

Lemma turn_display_ok w w' :
  display_ok net w → turn (run_handler net) w = Some w' →
  display_ok net w'.
Proof.
  intros [Hrep Hlast Hload Hprices] (e & rest & Hpop & ->)%turn_unfold.
  assert (∀ x, x ∈ rearm e rest → ∃ y, y ∈ queue w ∧ callback y = callback x)
    as Hkept.
  { intros x [Hx|[Hx _]]%elem_of_rearm.
    - exists x. split; [|done]. apply (elem_of_pop _ _ _ _ Hpop). by right.
    - exists e. split; [|done]. apply (elem_of_pop _ _ _ _ Hpop). by left. }
  apply handler_display_ok.
  - split; fields.
    + intros x rc r Hx Hcb. destruct (Hkept x Hx) as (y & Hy & Hyx).
      apply (Hrep y rc r Hy). congruence.
    + intros s Hs. rewrite (Hlast s Hs). by destruct (is_interval e).
    + intros s Hs. rewrite (Hload s Hs). by destruct (is_interval e).
    + done.
  - fields. intros rc r Hcb. apply (Hrep e rc r); [|done].
    apply (elem_of_pop _ _ _ _ Hpop). by left.
Qed.

Lemma effect_display_ok w :
  display_ok net w → display_ok net (exec (effect net) w).
Proof.
  intros [Hrep Hlast Hload Hprices]. rewrite exec_effect. split; fields.
  - intros e rc r [[He|He]%elem_of_app|He]%elem_of_app Hcb.
    + destruct (Hrep e rc r He Hcb) as (k & ? & ?). exists k.
      split; [lia|done].
    + apply list_elem_of_singleton in He as ->. cbn in Hcb.
      injection Hcb as <- <-. exists (requests w). split; [lia|done].
    + by apply list_elem_of_singleton in He as ->.
  - done.
  - done.
  - intros s Hs. specialize (Hprices s Hs).
    destruct (lastUpdate s); [|done].
    destruct Hprices as (k & ? & ?). exists k. split; [lia|done].
Qed.

Lemma cleanup_display_ok w :
  display_ok net w → display_ok net (exec effect_cleanup w).
Proof.
  intros [Hrep Hlast Hload Hprices]. rewrite exec_cleanup_any.
  split; fields.
  - intros e rc r He. apply Hrep. destruct (cleanup w); [|done].
    by apply list_elem_of_filter in He as [_ He].
  - intros s Hs. rewrite (Hlast s Hs). by destruct (cleanup w).
  - intros s Hs. rewrite (Hload s Hs). by destruct (cleanup w).
  - done.
Qed.

Lemma set_now_display_ok t w :
  display_ok net w → display_ok net (set_now t w).
Proof. by intros []. Qed.

Lemma step_display_ok w a w' :
  display_ok net w → step net w a = Some w' → display_ok net w'.
Proof.
  intros Hok. destruct a as [|t|t|t]; cbn [step].
  - by apply turn_display_ok.
  - destruct (component w) as [s|]; [|done]. destruct (loading s); [done|].
    destruct (at_time t w) as [w1|] eqn:Hat; [|done]. intros [= <-].
    apply at_time_spec in Hat as ->.
    apply (handler_display_ok (CallFetchPrices (Some JsOther)));
      [by apply set_now_display_ok|done].
  - destruct (component w) as [s|]; [|done].
    destruct (at_time t w) as [w1|] eqn:Hat; [|done]. intros [= <-].
    apply at_time_spec in Hat as ->.
    rewrite exec_seq by apply effect_cleanup_normal.
    by apply effect_display_ok, cleanup_display_ok, set_now_display_ok.
  - destruct (component w) as [s|]; [|done].
    destruct (at_time t w) as [w1|] eqn:Hat; [|done]. intros [= <-].
    apply at_time_spec in Hat as ->.
    pose proof (cleanup_display_ok _ (set_now_display_ok t w Hok))
      as [Hrep _ _ _].
    by split.
Qed.

Lemma mount_display_ok t0 ns : display_ok net (mount net t0 ns).
Proof.
  unfold mount. apply effect_display_ok. split; fields.
  - intros e rc r He. by apply elem_of_nil in He.
  - by intros s [= <-].
  - by intros s [= <-].
  - by intros s [= <-].
Qed.

Lemma run_display_ok w acts w' :
  display_ok net w → run (step net) w acts = Some w' → display_ok net w'.
Proof.
  revert w. induction acts as [|a acts IH]; intros w Hok; cbn [run].
  - by intros [= <-].
  - destruct (step net w a) as [w1|] eqn:Hstep; [|done]. cbn.
    apply IH. by eapply step_display_ok.
Qed.

End DashboardPageFacts.

Section DashboardPricesFacts.
Import Browser Dashboard DashboardPage.
Variable net : nat → N * settlement prices.

Implicit Types (w : world) (e : task handler).

(** What a callback does to the prices on display. *)
Lemma handler_keeps_prices h w s s' :
  component w = Some s →
  component (exec (run_handler net h) w) = Some s' →
  (cryptoPrices s' = cryptoPrices s ∧ lastUpdate s' = lastUpdate s)
  ∨ (∃ rc d, h = ResumeFetchPrices rc (Fulfilled d)
             ∧ cryptoPrices s' = d ∧ lastUpdate s' = Some (now w)).
Proof.
  intros Hs. destruct h as [arg|rc [d|]]; cbn [run_handler].
  - rewrite exec_fetchPrices. fields. rewrite Hs. intros [= <-]. by left.
  - rewrite exec_resume_fulfilled_state. fields. rewrite Hs. cbn.
    intros [= <-]. right. by exists rc, d.
  - destruct (js_lt rc maxRetries) eqn:Hlt.
    + rewrite exec_resume_retry by done. fields. rewrite Hs.
      intros [= <-]. by left.
    + rewrite exec_resume_exhausted_state by done. fields. rewrite Hs.
      cbn. intros [= <-]. by left.
Qed.

Lemma step_keeps_prices w a w' s s' :
  step net w a = Some w' → component w = Some s → component w' = Some s' →
  (cryptoPrices s' = cryptoPrices s ∧ lastUpdate s' = lastUpdate s)
  ∨ (a = Turn
     ∧ ∃ e rest rc d, pop (queue w) = Some (e, rest)
         ∧ callback e = ResumeFetchPrices rc (Fulfilled d)
         ∧ cryptoPrices s' = d ∧ lastUpdate s' = Some (due e)).
Proof.
  intros Hstep Hs Hs'. destruct a as [|t|t|t]; cbn [step] in Hstep.
  - apply turn_unfold in Hstep as (e & rest & Hpop & ->).
    eapply handler_keeps_prices in Hs' as [?|(rc & d & Hcb & ? & ?)];
      [by left| |done].
    right. split; [done|]. by exists e, rest, rc, d.
  - rewrite Hs in Hstep. destruct (loading s); [done|].
    destruct (at_time t w) as [w1|] eqn:Hat; [|done].
    injection Hstep as <-. apply at_time_spec in Hat as ->.
    eapply (handler_keeps_prices (CallFetchPrices (Some JsOther)))
      in Hs' as [?|(rc & d & Hcb & ? & ?)]; [by left|done|done].
  - rewrite Hs in Hstep.
    destruct (at_time t w) as [w1|] eqn:Hat; [|done].
    injection Hstep as <-. apply at_time_spec in Hat as ->.
    rewrite exec_seq in Hs' by apply effect_cleanup_normal.
    rewrite exec_effect, exec_cleanup_any in Hs'. cbn in Hs'. left.
    rewrite Hs in Hs'. by injection Hs' as <-.
  - rewrite Hs in Hstep.
    destruct (at_time t w) as [w1|] eqn:Hat; [|done].
    by injection Hstep as <-.
Qed.

End DashboardPricesFacts.

(** X7. On every page reached from mounting the dashboard, whatever the
    network does: each reply waited for is the server's reply to a request
    that was sent; [lastUpdate] is the time of the newest reply received,
    [cryptoPrices] is [{}] before the first and afterwards what some reply
    of the server held, and [loading] is true exactly until a chain of
    attempts has ended, with a reply or by giving up. A further step
    leaves the prices and [lastUpdate] as they are unless it is the turn
    in which a reply arrives, which replaces both; a failure clears
    nothing. *)
Theorem dashboard_shows_what_the_server_sent :
  ∀ (net : nat → N * settlement Dashboard.prices) (t0 : Z)
    (ns : list App.notification) (acts : list Dashboard.action)
    (w : Dashboard.world),
    Browser.run (Dashboard.step net) (Dashboard.mount net t0 ns) acts
    = Some w →
    DashboardPage.display_ok net w
    ∧ ∀ a w' s s',
        Dashboard.step net w a = Some w' →
        Browser.component w = Some s → Browser.component w' = Some s' →
        (Dashboard.cryptoPrices s' = Dashboard.cryptoPrices s
         ∧ Dashboard.lastUpdate s' = Dashboard.lastUpdate s)
        ∨ (a = Dashboard.Turn
           ∧ ∃ e rest rc d,
               Browser.pop (Browser.queue w) = Some (e, rest)
               ∧ Browser.callback e
                 = Dashboard.ResumeFetchPrices rc (Fulfilled d)
               ∧ Dashboard.cryptoPrices s' = d
               ∧ Dashboard.lastUpdate s' = Some (Browser.due e)).
Proof.
  intros net t0 ns acts w Hrun. split.
  - eapply run_display_ok; [apply mount_display_ok|done].
  - intros a w' s s'. apply step_keeps_prices.
Qed.

(** The first request fails after 5 ms, the second is answered after 40
    ms with a price for BTC: after three turns the page shows that price,
    received at 2045 ms. *)
Lemma dashboard_shows_what_the_server_sent_witness :
  let btc : Dashboard.prices := {[ "BTC" := 60000%Q ]} in
  let net := λ k : nat,
    if decide (k = 1)%nat then (40%N, Fulfilled btc) else (5%N, Rejected) in
  ∃ w, Browser.run (Dashboard.step net) (Dashboard.mount net 0 [])
         [Dashboard.Turn; Dashboard.Turn; Dashboard.Turn] = Some w
       ∧ Browser.component w
         = Some (Dashboard.State btc false (Some 2045))
       ∧ DashboardPage.display_ok net w.
Proof.
  intros btc net.
  eassert (Browser.run (Dashboard.step net) (Dashboard.mount net 0 [])
             [Dashboard.Turn; Dashboard.Turn; Dashboard.Turn] = Some _)
    as Hrun by (vm_compute; reflexivity).
  match type of Hrun with _ = Some ?w0 => set (w := w0) in * end.
  exists w. split; [exact Hrun|]. split; [vm_compute; reflexivity|].
  exact (proj1 (dashboard_shows_what_the_server_sent net 0 [] _ w Hrun)).
Defined.
